(** * PRIMME: restart of the projected subspace and the SVD front end

    A shallow embedding of [PRIMMESRC/DSRC/restart_d.c] (the restart
    coordinator, the soft-locking restart, the projection restart for
    Rayleigh-Ritz extraction, the dynamic thick restart and the flag reset)
    and of [PRIMMESRC/SVDS/ZSRC/primme_svds_z.c] (the two-stage driver and
    the parameter hand-over between the stages), followed by the properties
    established for them.

    Conventions of the embedding.
    - A C [double] is a binary64 value: [PrimFloat.float], with the
      primitive IEEE operations and comparisons.
    - A C [int] is a mathematical integer of [Z]; the quantities handled
      here are basis dimensions and return codes.  Where a return code is
      computed by subtraction the 32-bit wrap-around is written out.
    - An array is a list.  A read outside the list yields the default
      value of the type and a write outside it is dropped; C leaves both
      undefined, so the properties below are stated for indices in range.
    - A pointer that the code tests against NULL is an [option].
    - A function that writes through its pointer arguments returns the new
      contents of what it wrote.  [assert] stops the program: functions
      that contain one return an [option], [None] being the abort. *)

From stdpp Require Import base list numbers.
From Stdlib Require Import Floats Uint63 Sorted.
Local Open Scope Z_scope.

(** ** The C data model *)

Module C.

Abbreviation double := float (only parsing).

#[export] Instance double_inhabited : Inhabited double := populate 0%float.

(** [a[i]] *)
Definition aget {A} `{Inhabited A} (a : list A) (i : Z) : A :=
  if bool_decide (0 ≤ i) then a !!! Z.to_nat i else inhabitant.

(** [a[i] = x] *)
Definition aset {A} (a : list A) (i : Z) (x : A) : list A :=
  if bool_decide (0 ≤ i) then <[Z.to_nat i := x]> a else a.

(** [for (i = i0; i < i0 + n && cond; i++) body], [n] iterations at most. *)
Fixpoint for_from {S} (n : nat) (i : Z) (cond : Z → S → bool)
    (body : Z → S → S) (s : S) : S :=
  match n with
  | O => s
  | Datatypes.S n' =>
      if cond i s then for_from n' (i + 1) cond body (body i s) else s
  end.

(** [for (i = lo; i < hi; i++) body] *)
Definition for_loop {S} (lo hi : Z) (body : Z → S → S) (s : S) : S :=
  for_from (Z.to_nat (hi - lo)) lo (λ _ _, true) body s.

(** [for (i = lo; i < hi && cond; i++) body] *)
Definition for_loop_while {S} (lo hi : Z) (cond : Z → S → bool)
    (body : Z → S → S) (s : S) : S :=
  for_from (Z.to_nat (hi - lo)) lo cond body s.

(** The conversion of an [int] to [double] in a mixed product. *)
Definition double_of_int (z : Z) : double :=
  if bool_decide (0 ≤ z) then PrimFloat.of_uint63 (Uint63.of_Z z)
  else PrimFloat.opp (PrimFloat.of_uint63 (Uint63.of_Z (- z))).

(** [a > b] and [a <= b] on doubles. *)
Definition dgt (a b : double) : bool := PrimFloat.ltb b a.
Definition dle (a b : double) : bool := PrimFloat.leb a b.

(** The [max] macro of the numerical headers, [((a) > (b) ? (a) : (b))],
    at type [double].  At type [int] it is [Z.max], and [min] is [Z.min]. *)
Definition dmax (a b : double) : double := if dgt a b then a else b.

Definition fabs (a : double) : double := PrimFloat.abs a.

(** A double that is a number (a finite value or an infinity). *)
Definition not_nan (x : double) : Prop := PrimFloat.is_nan x = false.

Definition wrap_int (z : Z) : Z := (z + 2 ^ 31) `mod` 2 ^ 32 - 2 ^ 31.
Definition int_sub (a b : Z) : Z := wrap_int (a - b).

(** BLAS [dcopy] as the restart calls it, [n] elements from [x + offx]
    to [y + offy] with the given strides, in increasing order. *)
Definition Num_dcopy (n : Z) (x : list double) (offx incx : Z)
    (y : list double) (offy incy : Z) : list double :=
  for_loop 0 n (λ k y', aset y' (offy + k * incy) (aget x (offx + k * incx))) y.

(** The same copy when source and destination lie in one array: every
    read sees the writes made before it. *)
Definition Num_dcopy_within (n : Z) (a : list double) (offx incx offy incy : Z)
    : list double :=
  for_loop 0 n (λ k a', aset a' (offy + k * incy) (aget a' (offx + k * incx))) a.

End C.
Export C.

(** ** Solver parameters and status flags *)

Inductive flag := UNCONVERGED | CONVERGED | LOCKED.

#[export] Instance flag_eq_dec : EqDecision flag.
Proof. solve_decision. Defined.

#[export] Instance flag_inhabited : Inhabited flag := populate UNCONVERGED.

Inductive primme_target :=
  | primme_smallest | primme_largest
  | primme_closest_geq | primme_closest_leq | primme_closest_abs.

#[export] Instance primme_target_eq_dec : EqDecision primme_target.
Proof. solve_decision. Defined.

Inductive primme_restartscheme := primme_thick | primme_dtr.

#[export] Instance primme_restartscheme_eq_dec : EqDecision primme_restartscheme.
Proof. solve_decision. Defined.

Inductive primme_projection :=
  | primme_proj_default | primme_proj_RR
  | primme_proj_harmonic | primme_proj_refined.

(** The fields of [primme_params] that the restart reads. *)
Record primme_params := {
  n : Z;
  nLocal : Z;
  numEvals : Z;
  numOrthoConst : Z;
  maxBasisSize : Z;
  minRestartSize : Z;
  maxBlockSize : Z;
  locking : bool;
  target : primme_target;
  numTargetShifts : Z;
  targetShifts : list double;
  scheme : primme_restartscheme;
  projection : primme_projection
}.

(** [primme->nLocal], for the routines that also have a parameter [nLocal]. *)
Definition primme_nLocal (primme : primme_params) : Z := nLocal primme.

(** Return codes named in the header comment of [restart_dprimme]. *)
Definition RESTART_H_FAILURE : Z := -2.
Definition UDUDECOMPOSE_FAILURE : Z := -4.
Definition INSERT_SUBMATRIX_FAILURE : Z := -1.

(** ** The dynamic thick restart and the flag reset *)

Module Dtr.

(** [reset_flags_dprimme]: the loop starts at 0, [first] is not read.
    A write outside the array is dropped here;
    [reset_flags_dprimme_checked] below is the loop with the bounds of
    the array. *)
Definition reset_flags_dprimme (flags : list flag) (first last : Z) : list flag :=
  for_loop 0 (last + 1) (λ i fl, aset fl i UNCONVERGED) flags.

(** The same loop with the bounds of the array: [None] as soon as
    [flags[i] = UNCONVERGED] writes outside the array, which the C
    language leaves undefined. *)
Definition reset_flags_dprimme_checked (flags : list flag) (first last : Z)
    : option (list flag) :=
  for_loop 0 (last + 1)
    (λ i fl, match fl with
             | Some fl =>
                 if bool_decide (0 ≤ i < Z.of_nat (length fl))
                 then Some (aset fl i UNCONVERGED) else None
             | None => None
             end)
    (Some flags).

(** The lower bound [lMin] on the number of left vectors. *)
Definition dtr_lMin (primme : primme_params) (numLocked : Z)
    (flags : list flag) (basisSize : Z) : Z :=
  if locking primme then
    let lMin :=
      for_loop 0 basisSize
        (λ l lMin,
           if bool_decide (aget flags l ≠ UNCONVERGED
                           ∧ numLocked + l < numEvals primme)
           then l else lMin) 0 in
    Z.max lMin (Z.min basisSize (minRestartSize primme))
  else Z.min basisSize (minRestartSize primme).

(** The gap-ratio objective at [(l, r)]. *)
Definition dtr_newVal (hVals : list double) (basisSize : Z)
    (currentRitzVal : double) (l r : Z) : double :=
  let maxIndex := basisSize - 1 in
  (double_of_int (basisSize - l - r)
   * PrimFloat.sqrt ((currentRitzVal - aget hVals (l + 1))
                     / (aget hVals (l + 1) - aget hVals (maxIndex - r))))%float.

(** The pairs [(l, r)] that the two search loops visit and test. *)
Definition in_search_region (primme : primme_params)
    (basisSize numFree lMin l r : Z) : Prop :=
  lMin ≤ l < basisSize - numFree
  ∧ 0 ≤ r < basisSize - l - numFree
  ∧ Z.rem (basisSize - l - r) (maxBlockSize primme) = 0.

(** The search state [(lOpt, rOpt, optVal)]. *)
Definition dtr_opt : Type := Z * Z * double.

Definition dtr_step (primme : primme_params) (hVals : list double)
    (basisSize : Z) (currentRitzVal : double) (l r : Z) (o : dtr_opt) : dtr_opt :=
  if bool_decide (Z.rem (basisSize - l - r) (maxBlockSize primme) = 0) then
    let newVal := dtr_newVal hVals basisSize currentRitzVal l r in
    if dgt newVal (o.2) then (l, r, newVal) else o
  else o.

Definition dtr_search (primme : primme_params) (hVals : list double)
    (basisSize numFree : Z) (currentRitzVal : double) (lMin : Z) : dtr_opt :=
  for_loop lMin (basisSize - numFree)
    (λ l o,
       for_loop 0 (basisSize - l - numFree)
         (λ r o', dtr_step primme hVals basisSize currentRitzVal l r o') o)
    (lMin, 0, 0%float).

(** [dtr_dprimme]: returns the restart size and the new contents of
    [hVecs], [hVals] and [flags].  The contents of the scratch array
    [rwork] are not returned; the diagnostic prints are left out. *)
Definition dtr_dprimme (numLocked : Z) (hVecs hVals : list double)
    (flags : list flag) (basisSize numFree : Z) (iev : list Z)
    (rwork : list double) (primme : primme_params)
    : Z * (list double * list double * list flag) :=
  let currentRitzVal := aget hVals (aget iev 0) in
  let lMin := dtr_lMin primme numLocked flags basisSize in
  let opt := dtr_search primme hVals basisSize numFree currentRitzVal lMin in
  let lOpt := opt.1.1 in
  let rOpt := opt.1.2 in
  let restartSize := lOpt + rOpt in
  let i := basisSize - restartSize in
  let rwork := Num_dcopy (i * basisSize) hVecs (basisSize * lOpt) 1 rwork 0 1 in
  let hVecs := Num_dcopy_within (rOpt * basisSize) hVecs
                 (basisSize * (basisSize - rOpt)) 1 (basisSize * lOpt) 1 in
  let hVecs := Num_dcopy (i * basisSize) rwork 0 1 hVecs (basisSize * restartSize) 1 in
  let rwork := Num_dcopy i hVals lOpt 1 rwork 0 1 in
  let hVals := Num_dcopy_within rOpt hVals (basisSize - rOpt) 1 lOpt 1 in
  let hVals := Num_dcopy i rwork 0 1 hVals restartSize 1 in
  let flags :=
    for_loop 0 rOpt
      (λ i fl, aset fl (lOpt + i) (aget fl (basisSize - rOpt + i))) flags in
  let flags := reset_flags_dprimme flags restartSize (maxBasisSize primme) in
  (restartSize, (hVecs, hVals, flags)).

(** The flags of [dtr_dprimme] with the bounds of the array in its last
    step: the copy of the right-hand flags, and the call
    [reset_flags_dprimme(flags, restartSize, primme->maxBasisSize)] as
    [reset_flags_dprimme_checked]. *)
Definition dtr_flags_checked (numLocked : Z) (hVals : list double)
    (flags : list flag) (basisSize numFree : Z) (iev : list Z)
    (primme : primme_params) : option (list flag) :=
  let currentRitzVal := aget hVals (aget iev 0) in
  let lMin := dtr_lMin primme numLocked flags basisSize in
  let opt := dtr_search primme hVals basisSize numFree currentRitzVal lMin in
  let lOpt := opt.1.1 in
  let rOpt := opt.1.2 in
  let restartSize := lOpt + rOpt in
  let flags :=
    for_loop 0 rOpt
      (λ i fl, aset fl (lOpt + i) (aget fl (basisSize - rOpt + i))) flags in
  reset_flags_dprimme_checked flags restartSize (maxBasisSize primme).

End Dtr.

(** ** The state of a restart *)

(** The arrays of doubles that the restart receives. *)
Module Da.
Inductive name :=
  | V | W | Q | R | QV | H | hU | hVecs | hVals | hSVals | blockNorms
  | evecs | evecsHat | M | UDU | previousHVecs | prevRitzVals
  | evals | resNorms | rwork.
#[global] Instance name_eq_dec : EqDecision name.
Proof. solve_decision. Defined.
End Da.

(** The arrays of ints.  [restartPerm] and [hVecsPerm] are the two
    arrays of [basisSize] entries that the coordinator carves out of
    [iwork]; what is left of [iwork] is scratch space and is not
    represented. *)
Module Ia.
Inductive name := iev | evecsPerm | ipivot | restartPerm | hVecsPerm.
#[global] Instance name_eq_dec : EqDecision name.
Proof. solve_decision. Defined.
End Ia.

(** The ints: the in/out parameters of [restart_dprimme], the locals whose
    address it hands to the routines it calls, the counter
    [primme->stats.numPreconds], and the locals [numCandidates] and [left]
    of the soft-locking restart. *)
Module Iv.
Inductive name :=
  | ievSize | numConverged | numLocked | numConvergedStored
  | numPrevRetained | numPrevRitzVals | restartSizeOutput
  | targetShiftIndex | restartSize | indexOfPreviousVecs
  | numArbitraryVecs | numPreconds | numCandidates | left.
#[global] Instance name_eq_dec : EqDecision name.
Proof. solve_decision. Defined.
End Iv.

Record rstate := {
  dmem : Da.name → list double;
  zmem : Ia.name → list Z;
  ivar : Iv.name → Z;
  flags : list flag
}.

Definition set_d (a : Da.name) (v : list double) (st : rstate) : rstate :=
  {| dmem := λ b, if decide (b = a) then v else dmem st b;
     zmem := zmem st; ivar := ivar st; flags := flags st |}.

Definition set_z (a : Ia.name) (v : list Z) (st : rstate) : rstate :=
  {| dmem := dmem st;
     zmem := λ b, if decide (b = a) then v else zmem st b;
     ivar := ivar st; flags := flags st |}.

Definition set_i (a : Iv.name) (v : Z) (st : rstate) : rstate :=
  {| dmem := dmem st; zmem := zmem st;
     ivar := λ b, if decide (b = a) then v else ivar st b;
     flags := flags st |}.

Definition set_flags (v : list flag) (st : rstate) : rstate :=
  {| dmem := dmem st; zmem := zmem st; ivar := ivar st; flags := v |}.

(** The arguments of [restart_dprimme] passed by value.  [evecsHat_given]
    and [QV_given] tell whether the pointers [evecsHat] and [QV] are
    non-null.  The model covers the calls with [V != NULL]; the call with
    [V == NULL], which only adds up workspace sizes, is left out. *)
Record restart_args := {
  a_nLocal : Z;
  a_basisSize : Z;
  a_ldV : Z;
  a_ldevecsHat : Z;
  a_ldM : Z;
  a_ldUDU : Z;
  a_ldpreviousHVecs : Z;
  a_numGuesses : Z;
  a_ldH : Z;
  a_ldQ : Z;
  a_ldR : Z;
  a_ldQV : Z;
  a_ldhU : Z;
  a_newldhU : Z;
  a_ldhVecs : Z;
  a_newldhVecs : Z;
  a_numArbitraryVecs : Z;
  a_machEps : double;
  a_rworkSize : Z;
  a_evecsHat_given : bool;
  a_QV_given : bool
}.

(** ** The numerical collaborators

    The kernels below are defined outside [restart_d.c].  The two that only
    move data are written out; the others are the fields of [Kernels], of
    which the restart uses the return code and the arrays written. *)

(** Modelled from the spec: [permute_vecs_dprimme], whose source is not at
    hand; "permute hVals and hVecs by restartPerm": column [j] of the
    result is column [perm[j]] of the [m] x [n] input. *)
Definition permute_vecs_dprimme (vecs : list double) (m n ld : Z)
    (perm : list Z) : list double :=
  for_loop 0 n
    (λ j out,
       for_loop 0 m
         (λ i out, aset out (ld * j + i) (aget vecs (ld * aget perm j + i)))
         out)
    vecs.

(** Modelled from the spec: [Num_copy_matrix_dprimme], whose source is not
    at hand; copies the [m] x [n] matrix at [x + offx] to [y + offy]. *)
Definition Num_copy_matrix_dprimme (x : list double) (offx m n ldx : Z)
    (y : list double) (offy ldy : Z) : list double :=
  for_loop 0 n
    (λ j y',
       for_loop 0 m
         (λ i y', aset y' (offy + ldy * j + i) (aget x (offx + ldx * j + i)))
         y')
    y.

Class Kernels := {
  (** [ortho_dprimme(basis, ldBasis, NULL, 0, b1, b2, basis + offLocked,
      ldLocked, numLocked, nLocal, iseed, machEps, ...)]: orthonormalises
      the columns [b1 .. b2] of [basis]; returns the code and [basis]. *)
  ortho_dprimme (basis : list double) (ldBasis b1 b2 offLocked ldLocked
                 numLocked nLocal : Z) (machEps : double) : Z * list double;
  (** [Num_trsm_dprimme("L", "U", "N", "N", m, n, alpha, A, lda, B + offB,
      ldb)]: returns [B]. *)
  Num_trsm_dprimme (m n : Z) (alpha : double) (A : list double) (lda : Z)
                   (B : list double) (offB ldb : Z) : list double;
  (** The call of [Num_update_VWXR_dprimme] in the soft-locking restart:
      [V] and [W] become [V*h] and [W*h] over [restartSize] columns, the
      Ritz vectors and residuals of the columns [left .. right) are left
      at [V + restartSize*ldV] and [W + restartSize*ldV] and the residual
      norms in [blockNorms]; returns the code, [V], [W] and
      [blockNorms]. *)
  Num_update_VWXR_dprimme (V W : list double) (nLocal basisSize ldV : Z)
      (h : list double) (restartSize ldh : Z) (hVals : list double)
      (left right : Z) (blockNorms : list double)
      : Z * (list double * list double * list double);
  (** [compute_submatrix_dprimme(X + offX, nX, ldX, H, nH, ldH, R + offR,
      ldR, ...)]: writes X'*H*X; returns [R]. *)
  compute_submatrix_dprimme (X : list double) (offX nX ldX : Z)
      (H : list double) (nH ldH : Z) (R : list double) (offR ldR : Z)
      : list double;
  (** [solve_H_dprimme(H + offH, n, ldH, NULL, 0, NULL, 0, NULL, 0,
      hVecs + offVecs, ldhVecs, hVals + offVals, NULL, numConverged,
      machEps, ...)], the Rayleigh-Ritz case: returns the code, [hVecs] and
      [hVals]. *)
  solve_H_dprimme (H : list double) (offH n ldH : Z) (hVecs : list double)
      (offVecs ldhVecs : Z) (hVals : list double) (offVals : Z)
      (numConverged : Z) (machEps : double) (primme : primme_params)
      : Z * (list double * list double);
  (** [restart_qr], the projection restart of the refined and harmonic
      extractions, taken at its interface: its arguments by value, the
      state it works on; returns the code and the state. *)
  restart_qr (ldV ldW ldH nLocal ldQ ldR ldQV ldhU newldhU ldhVecs
              newldhVecs restartSize basisSize numPrevRetained
              indexOfPreviousVecs numConverged numArbitraryVecs rworkSize : Z)
             (QV_given : bool) (machEps : double) (primme : primme_params)
             (st : rstate) : Z * rstate;
  (** [restart_locking_dprimme], the restart with hard locking, defined in
      another file: taken at its interface. *)
  restart_locking_dprimme (args : restart_args) (primme : primme_params)
                          (st : rstate) : Z * rstate;
  (** [primme->applyPreconditioner(evecs + off, evecsHat + off, &blockSize,
      primme)]: returns [evecsHat]. *)
  applyPreconditioner (evecs : list double) (evecsHat : list double)
                      (off blockSize : Z) : list double;
  (** [update_projection_dprimme(X, ldX, Y, ldY, Z, ldZ, nLocal, numCols,
      blockSize, ..., symmetric, primme)]: returns [Z]. *)
  update_projection_dprimme (X : list double) (ldX : Z) (Y : list double)
      (ldY : Z) (Zm : list double) (ldZ nLocal numCols blockSize : Z)
      (symmetric : bool) : list double;
  (** [UDUDecompose_dprimme(M, ldM, UDU, ldUDU, ipivot, dimM, ...)]:
      returns the code, [UDU] and [ipivot]. *)
  UDUDecompose_dprimme (M : list double) (ldM : Z) (UDU : list double)
      (ldUDU : Z) (ipivot : list Z) (dimM : Z) : Z * (list double * list Z)
}.

(** ** The restart (restart_d.c) *)

Module Restart.
Section with_kernels.
Context {K : Kernels}.

(** The conversion of a [double] argument to an [int] parameter:
    truncation toward zero. *)
Definition int_of_double (x : double) : Z :=
  match Prim2SF x with
  | S754_finite s m e =>
      let a := if bool_decide (0 ≤ e) then Z.pos m * 2 ^ e
               else Z.pos m `div` 2 ^ (- e) in
      if s then - a else a
  | _ => 0
  end.

(** [ortho_coefficient_vectors_dprimme], for [hVecs != NULL]; its
    parameter [machEps] is declared [int].  Returns the code, [hVecs]
    and [hU]. *)
Definition ortho_coefficient_vectors_dprimme (hVecs : list double)
    (basisSize ldhVecs indexOfPreviousVecs newBasisSize : Z) (perm : list Z)
    (hU : list double) (ldhU : Z) (R : list double)
    (ldR numPrevRetained machEps : Z) (primme : primme_params)
    : Z * (list double * list double) :=
  let tpone := 1%float in
  let '(ret, hVecs, hU) :=
    match projection primme with
    | primme_proj_harmonic =>
        let hU := permute_vecs_dprimme hU basisSize basisSize ldhU perm in
        let hU := Num_copy_matrix_dprimme hVecs (ldhVecs * indexOfPreviousVecs)
                    basisSize numPrevRetained ldhVecs
                    hU (ldhU * indexOfPreviousVecs) ldhU in
        let '(ret, hU) :=
          ortho_dprimme hU ldhU indexOfPreviousVecs
            (indexOfPreviousVecs + numPrevRetained - 1)
            (ldhU * (indexOfPreviousVecs + numPrevRetained)) ldhU
            (newBasisSize - indexOfPreviousVecs - numPrevRetained) basisSize
            (double_of_int machEps) in
        if bool_decide (ret ≠ 0) then (ret, hVecs, hU)
        else
          let hVecs := Num_copy_matrix_dprimme hU (ldhU * indexOfPreviousVecs)
                         basisSize numPrevRetained ldhU
                         hVecs (ldhVecs * indexOfPreviousVecs) ldhVecs in
          let hVecs := Num_trsm_dprimme basisSize numPrevRetained tpone R ldR
                         hVecs (ldhVecs * indexOfPreviousVecs) ldhVecs in
          (0, hVecs, hU)
    | _ => (0, hVecs, hU)
    end in
  if bool_decide (ret ≠ 0) then (ret, (hVecs, hU))
  else
    let '(ret, hVecs) :=
      ortho_dprimme hVecs ldhVecs indexOfPreviousVecs
        (indexOfPreviousVecs + numPrevRetained - 1)
        (ldhVecs * (indexOfPreviousVecs + numPrevRetained)) ldhVecs
        (newBasisSize - indexOfPreviousVecs - numPrevRetained) basisSize
        (double_of_int machEps) in
    (ret, (hVecs, hU)).

(** The first step of the soft-locking restart: a pair flagged as
    converged whose Ritz value has moved away from the stored eigenvalue
    by more than its residual norm is flagged UNCONVERGED again. *)
Definition recheck_converged_flags (primme : primme_params) (basisSize : Z)
    (hVals evals resNorms : list double) (flags : list flag) : list flag :=
  if bool_decide (basisSize + numOrthoConst primme < n primme) then
    for_loop 0 (numEvals primme)
      (λ i fl,
         if bool_decide (aget fl i ≠ UNCONVERGED)
            && dgt (fabs (aget hVals i - aget evals i)%float) (aget resNorms i)
         then aset fl i UNCONVERGED else fl)
      flags
  else flags.

(** The size of the block as the soft-locking restart first sets it. *)
Definition soft_locking_ievSize (primme : primme_params)
    (numConverged restartSize : Z) : Z :=
  Z.min (Z.min (maxBlockSize primme) (numEvals primme - numConverged + 1))
        (maxBasisSize primme - restartSize).

(** The loop that fills [restartPerm]; the state is [(j, k, restartPerm)]. *)
Definition build_restartPerm (flags : list flag)
    (basisSize numCandidates left : Z) (restartPerm : list Z) : list Z :=
  (for_loop 0 basisSize
     (λ i '(j, k, rp),
        if bool_decide (j < numCandidates)
           && bool_decide (aget flags i = UNCONVERGED)
        then (j + 1, k, aset rp (left + j) i)
        else if bool_decide (k < left) then (j, k + 1, aset rp k i)
        else (j, k + 1, aset rp (numCandidates + k) i))
     (0, 0, restartPerm)).2.

(** The copy of the converged vectors kept for the skew projector and
    the permutation of [M]; runs when [evecsHat] is given. *)
Definition pack_converged_evecs (nLocal ldevecsHat ldM : Z)
    (primme : primme_params) (st : rstate) : rstate :=
  let tpone := 1%float in
  let tzero := 0%float in
  let restartPerm := zmem st Ia.restartPerm in
  let numConverged := ivar st Iv.numConverged in
  let numConvergedStored := ivar st Iv.numConvergedStored in
  let packed :=
    for_loop_while 0 numConverged
      (λ i _, bool_decide (aget restartPerm i < numConvergedStored))
      (λ i '(new, evecs, evecsHat),
         (new + 1,
          Num_copy_matrix_dprimme
            evecs ((aget restartPerm i + numOrthoConst primme) * nLocal)
            nLocal 1 nLocal
            evecs ((new + numOrthoConst primme) * nLocal) nLocal,
          Num_copy_matrix_dprimme
            evecsHat ((aget restartPerm i + numOrthoConst primme) * ldevecsHat)
            nLocal 1 ldevecsHat
            evecsHat ((new + numOrthoConst primme) * ldevecsHat) ldevecsHat))
      (0, dmem st Da.evecs, dmem st Da.evecsHat) in
  let newNumConvergedStored := packed.1.1 in
  let st := set_d Da.evecs (packed.1.2) st in
  let st := set_d Da.evecsHat (packed.2) st in
  let oldSizeM := numConvergedStored + numOrthoConst primme in
  let newSizeM := newNumConvergedStored + numOrthoConst primme in
  let rwork :=
    for_loop 0 (oldSizeM * newSizeM) (λ i rw, aset rw i tzero)
      (dmem st Da.rwork) in
  let rwork :=
    for_loop 0 (numOrthoConst primme)
      (λ i rw, aset rw (oldSizeM * i + i) tpone) rwork in
  let rwork :=
    for_loop (Z.max 0 (numOrthoConst primme)) newSizeM
      (λ i rw, aset rw (oldSizeM * i + aget restartPerm i
                        + numOrthoConst primme) tpone) rwork in
  let st := set_d Da.rwork rwork st in
  let st := set_d Da.M
              (compute_submatrix_dprimme rwork 0 newSizeM oldSizeM
                 (dmem st Da.M) oldSizeM ldM (dmem st Da.M) 0 ldM) st in
  set_i Iv.numConvergedStored newNumConvergedStored st.

(** [restart_soft_locking_dprimme], for [V != NULL], in the order of its
    text.  [restartSize], [numPrevRetained], [ievSize], [numConverged],
    [numConvergedStored] and [indexOfPreviousVecs] are the ints behind
    the pointers of the same name, [numCandidates] and [left] are the
    locals, and [hR] is the array [R] of the state. *)

(** The flags, the sizes and [restartPerm]; the permutation of [hVals]
    and [hVecs] and the insertion of the previous coefficient vectors. *)
Definition soft_locking_layout (basisSize ldhVecs ldpreviousHVecs
    numArbitraryVecs : Z) (primme : primme_params) (st : rstate) : rstate :=
  let st := set_flags
              (recheck_converged_flags primme basisSize (dmem st Da.hVals)
                 (dmem st Da.evals) (dmem st Da.resNorms) (flags st)) st in
  let st := set_i Iv.numPrevRetained
              (Z.min (maxBasisSize primme)
                     (ivar st Iv.restartSize + ivar st Iv.numPrevRetained)
               - ivar st Iv.restartSize) st in
  let st := set_i Iv.numCandidates
              (for_loop_while 0 numArbitraryVecs
                 (λ i _, bool_decide (i < ivar st Iv.restartSize))
                 (λ i c, if bool_decide (aget (flags st) i = UNCONVERGED)
                         then c + 1 else c) 0) st in
  let st := set_i Iv.restartSize
              (ivar st Iv.restartSize + ivar st Iv.numPrevRetained) st in
  let st := set_i Iv.ievSize
              (soft_locking_ievSize primme (ivar st Iv.numConverged)
                 (ivar st Iv.restartSize)) st in
  let st := set_i Iv.numCandidates
              (Z.max (ivar st Iv.ievSize) (ivar st Iv.numCandidates)) st in
  let st := set_i Iv.indexOfPreviousVecs
              (ivar st Iv.restartSize - ivar st Iv.numCandidates
               - ivar st Iv.numPrevRetained) st in
  let st := set_i Iv.left
              (ivar st Iv.restartSize - ivar st Iv.numCandidates) st in
  let st := set_z Ia.restartPerm
              (build_restartPerm (flags st) basisSize
                 (ivar st Iv.numCandidates) (ivar st Iv.left)
                 (zmem st Ia.restartPerm)) st in
  let st := set_i Iv.numConverged
              (for_loop 0 basisSize
                 (λ i c, if bool_decide (aget (flags st) i ≠ UNCONVERGED)
                            && bool_decide (i < numEvals primme)
                         then c + 1 else c) 0) st in
  let st := set_d Da.hVals
              (permute_vecs_dprimme (dmem st Da.hVals) 1 basisSize 1
                 (zmem st Ia.restartPerm)) st in
  let st := set_d Da.hVecs
              (permute_vecs_dprimme (dmem st Da.hVecs) basisSize basisSize
                 ldhVecs (zmem st Ia.restartPerm)) st in
  set_d Da.hVecs
    (Num_copy_matrix_dprimme (dmem st Da.previousHVecs) 0 basisSize
       (ivar st Iv.numPrevRetained) ldpreviousHVecs (dmem st Da.hVecs)
       (ldhVecs * ivar st Iv.indexOfPreviousVecs) ldhVecs) st.

(** [hVecsPerm], the arbitrary vectors among the candidates, and [iev]. *)
Definition soft_locking_perms (basisSize numArbitraryVecs : Z)
    (st : rstate) : rstate :=
  let st := set_z Ia.hVecsPerm
              (for_loop 0 basisSize
                 (λ i hp, aset hp (aget (zmem st Ia.restartPerm) i) i)
                 (zmem st Ia.hVecsPerm)) st in
  (* the count of the first loop over [j] is overwritten by [j = 0] *)
  let j :=
    for_loop 0 (ivar st Iv.restartSize)
      (λ i j, if bool_decide
                   (aget (zmem st Ia.restartPerm)
                      (aget (zmem st Ia.hVecsPerm) i) < numArbitraryVecs)
              then j + 1 else j) 0 in
  let j := 0 in
  let st := set_z Ia.hVecsPerm
              (for_loop 0 (ivar st Iv.restartSize)
                 (λ i hp,
                    if bool_decide (ivar st Iv.indexOfPreviousVecs ≤ aget hp i)
                       && bool_decide (aget hp i < ivar st Iv.left + j)
                    then aset hp i
                           (Z.rem (aget hp i - ivar st Iv.indexOfPreviousVecs + j)
                                  (ivar st Iv.numPrevRetained + j)
                            + ivar st Iv.indexOfPreviousVecs)
                    else hp)
                 (zmem st Ia.hVecsPerm)) st in
  let st := set_i Iv.numPrevRetained (ivar st Iv.numPrevRetained + j) st in
  set_z Ia.iev
    (for_loop 0 (ivar st Iv.ievSize)
       (λ i iev, aset iev i
                   (aget (zmem st Ia.restartPerm) (ivar st Iv.left + i)))
       (zmem st Ia.iev)) st.

(** The loop of [assert(iev[j] == i)] over the leading UNCONVERGED
    pairs: whether every assertion holds. *)
Definition soft_locking_asserts (basisSize : Z) (st : rstate) : bool :=
  (for_loop_while 0 basisSize
     (λ i '(j, ok), bool_decide (j < ivar st Iv.ievSize))
     (λ i '(j, ok),
        if bool_decide (aget (flags st) i = UNCONVERGED)
        then (j + 1, ok && bool_decide (aget (zmem st Ia.iev) j = i))
        else (j, ok))
     (0, true)).2.

Definition restart_soft_locking_dprimme
    (nLocal ldhR ldhU basisSize ldV ldhVecs ldevecsHat ldM ldpreviousHVecs
     numArbitraryVecs : Z) (evecsHat_given : bool) (machEps : double)
    (primme : primme_params) (st : rstate) : option (Z * rstate) :=
  let st := soft_locking_layout basisSize ldhVecs ldpreviousHVecs
              numArbitraryVecs primme st in
  let '(ret, (hVecs, hU)) :=
    ortho_coefficient_vectors_dprimme (dmem st Da.hVecs) basisSize ldhVecs
      (ivar st Iv.indexOfPreviousVecs) (ivar st Iv.restartSize)
      (zmem st Ia.restartPerm) (dmem st Da.hU) ldhU (dmem st Da.R) ldhR
      (ivar st Iv.numPrevRetained) (int_of_double machEps) primme in
  let st := set_d Da.hU hU (set_d Da.hVecs hVecs st) in
  if bool_decide (ret ≠ 0) then Some (ret, st)
  else
  let '(ret, (V, W, blockNorms)) :=
    Num_update_VWXR_dprimme (dmem st Da.V) (dmem st Da.W) nLocal basisSize
      ldV (dmem st Da.hVecs) (ivar st Iv.restartSize) ldhVecs
      (dmem st Da.hVals) (ivar st Iv.left)
      (ivar st Iv.left + ivar st Iv.ievSize) (dmem st Da.blockNorms) in
  let st := set_d Da.blockNorms blockNorms
              (set_d Da.W W (set_d Da.V V st)) in
  if bool_decide (ret ≠ 0) then Some (ret, st)
  else
  let st := soft_locking_perms basisSize numArbitraryVecs st in
  if negb (soft_locking_asserts basisSize st) then None
  else
  (* TEMP!!! *)
  let st := set_i Iv.ievSize 0 st in
  let st := if evecsHat_given
            then pack_converged_evecs nLocal ldevecsHat ldM primme st
            else st in
  Some (0, st).

(** The three loops of [restart_RR] that set the restarted [H]: the
    columns before and after those of the previous vectors get zeros
    down to the diagonal and the Ritz value on it; the columns of the
    previous vectors get zeros above the inserted submatrix. *)
Definition restart_RR_H (H : list double) (ldH : Z) (hVals : list double)
    (restartSize numPrevRetained indexOfPreviousVecs : Z) : list double :=
  let tzero := 0%float in
  let H :=
    for_loop 0 indexOfPreviousVecs
      (λ j H,
         let H := for_loop 0 (j + 1) (λ i H, aset H (ldH * j + i) tzero) H in
         aset H (ldH * j + j) (aget hVals j))
      H in
  let H :=
    for_loop indexOfPreviousVecs (indexOfPreviousVecs + numPrevRetained)
      (λ j H,
         for_loop 0 indexOfPreviousVecs (λ i H, aset H (ldH * j + i) tzero) H)
      H in
  for_loop (indexOfPreviousVecs + numPrevRetained) restartSize
    (λ j H,
       let H := for_loop 0 (j + 1) (λ i H, aset H (ldH * j + i) tzero) H in
       aset H (ldH * j + j) (aget hVals j))
    H.

(** The loop of [restart_RR] that sets [hVecs] to the standard basis
    vectors in the order of [hVecsPerm]. *)
Definition restart_RR_hVecs (hVecs : list double) (newldhVecs restartSize : Z)
    (hVecsPerm : list Z) : list double :=
  let tpone := 1%float in
  let tzero := 0%float in
  for_loop 0 restartSize
    (λ j hVecs,
       let hVecs :=
         for_loop 0 restartSize
           (λ i hVecs, aset hVecs (newldhVecs * j + i) tzero) hVecs in
       aset hVecs (newldhVecs * j + aget hVecsPerm j) tpone)
    hVecs.

(** The search of [restart_RR] for the place of [indexOfPreviousVecs] in
    [hVecsPerm]; it stops at the first hit, which makes the index differ
    from [restartSize]. *)
Definition restart_RR_ordered (hVecsPerm : list Z)
    (restartSize indexOfPreviousVecs : Z) : Z :=
  for_loop_while 0 restartSize
    (λ i ordered, bool_decide (ordered = restartSize))
    (λ i ordered,
       if bool_decide (aget hVecsPerm i = indexOfPreviousVecs)
       then i else ordered)
    restartSize.

(** [restart_RR], for [H != NULL]: returns the code, [H], [hVecs] and
    [hVals]; [None] when the assertion on the position of the previous
    vectors fails. *)
Definition restart_RR (H : list double) (ldH : Z) (hVecs : list double)
    (ldhVecs newldhVecs : Z) (hVals : list double)
    (restartSize basisSize numLocked numPrevRetained indexOfPreviousVecs : Z)
    (hVecsPerm : list Z) (machEps : double) (primme : primme_params)
    : option (Z * (list double * list double * list double)) :=
  let H := compute_submatrix_dprimme hVecs (ldhVecs * indexOfPreviousVecs)
             numPrevRetained ldhVecs H basisSize ldH
             H (ldH * indexOfPreviousVecs + indexOfPreviousVecs) ldH in
  let H := restart_RR_H H ldH hVals restartSize numPrevRetained
             indexOfPreviousVecs in
  let hVecs := restart_RR_hVecs hVecs newldhVecs restartSize hVecsPerm in
  let hVals := permute_vecs_dprimme hVals 1 restartSize 1 hVecsPerm in
  let orderedIndexOfPreviousVecs :=
    restart_RR_ordered hVecsPerm restartSize indexOfPreviousVecs in
  if negb (bool_decide (orderedIndexOfPreviousVecs ≠ restartSize)
           || bool_decide (restartSize ≤ indexOfPreviousVecs))
  then None
  else
  let '(ret, (hVecs, hVals)) :=
    solve_H_dprimme H (ldH * indexOfPreviousVecs + indexOfPreviousVecs)
      numPrevRetained ldH hVecs
      (newldhVecs * orderedIndexOfPreviousVecs + orderedIndexOfPreviousVecs)
      newldhVecs hVals orderedIndexOfPreviousVecs numLocked machEps primme in
  if bool_decide (ret ≠ 0)
  then Some (INSERT_SUBMATRIX_FAILURE, (H, hVecs, hVals))
  else Some (0, (H, hVecs, hVals)).

(** The part of [restart_projection_dprimme] that follows the switch:
    the report of a failed projection and the update of the skew
    projector.  [evecsSize] is [numConvergedStored] of the state. *)
Definition restart_projection_finish
    (ret nLocal ldevecs ldM ldUDU numConverged : Z) (evecsHat_given : bool)
    (primme : primme_params) (st : rstate) : option (Z * rstate) :=
  if bool_decide (ret ≠ 0) then Some (RESTART_H_FAILURE, st)
  else if evecsHat_given then
    let evecsSize := ivar st Iv.numConvergedStored in
    let numRecentlyConverged := numConverged - evecsSize in
    if bool_decide (ldevecs ≠ primme_nLocal primme) then None
    else
    let st := set_d Da.evecsHat
                (applyPreconditioner (dmem st Da.evecs) (dmem st Da.evecsHat)
                   (primme_nLocal primme * (evecsSize + numOrthoConst primme))
                   numRecentlyConverged) st in
    let st := set_i Iv.numPreconds
                (ivar st Iv.numPreconds + numRecentlyConverged) st in
    let st := set_d Da.M
                (update_projection_dprimme (dmem st Da.evecs)
                   (primme_nLocal primme) (dmem st Da.evecsHat)
                   (primme_nLocal primme) (dmem st Da.M) ldM nLocal
                   (evecsSize + numOrthoConst primme) numRecentlyConverged
                   true) st in
    let st := set_i Iv.numConvergedStored numConverged st in
    let '(ret, (UDU, ipivot)) :=
      UDUDecompose_dprimme (dmem st Da.M) ldM (dmem st Da.UDU) ldUDU
        (zmem st Ia.ipivot)
        (ivar st Iv.numConvergedStored + numOrthoConst primme) in
    let st := set_z Ia.ipivot ipivot (set_d Da.UDU UDU st) in
    if bool_decide (ret ≠ 0) then Some (UDUDECOMPOSE_FAILURE, st)
    else Some (ret, st)
  else Some (ret, st).

(** [restart_projection_dprimme], for [H != NULL]. *)
Definition restart_projection_dprimme
    (ldV ldW ldH nLocal ldQ ldR ldQV ldhU newldhU ldhVecs newldhVecs
     restartSize basisSize numPrevRetained indexOfPreviousVecs ldevecs
     ldevecsHat ldM ldUDU numConverged numArbitraryVecs rworkSize : Z)
    (evecsHat_given QV_given : bool) (machEps : double)
    (primme : primme_params) (st : rstate) : option (Z * rstate) :=
  let finish '(ret, st) :=
    restart_projection_finish ret nLocal ldevecs ldM ldUDU numConverged
      evecsHat_given primme st in
  match projection primme with
  | primme_proj_RR =>
      match restart_RR (dmem st Da.H) ldH (dmem st Da.hVecs) ldhVecs
              newldhVecs (dmem st Da.hVals) restartSize basisSize
              numConverged numPrevRetained indexOfPreviousVecs
              (zmem st Ia.hVecsPerm) machEps primme with
      | None => None
      | Some (ret, (H, hVecs, hVals)) =>
          finish (ret, set_d Da.hVals hVals
                         (set_d Da.hVecs hVecs (set_d Da.H H st)))
      end
  | primme_proj_harmonic =>
      let indexOfPreviousVecs := 0 in
      let numPrevRetained := restartSize in
      let st := set_z Ia.hVecsPerm
                  (for_loop 0 restartSize (λ i hp, aset hp i i)
                     (zmem st Ia.hVecsPerm)) st in
      finish (restart_qr ldV ldW ldH nLocal ldQ ldR ldQV ldhU newldhU
                ldhVecs newldhVecs restartSize basisSize numPrevRetained
                indexOfPreviousVecs numConverged numArbitraryVecs rworkSize
                QV_given machEps primme st)
  | primme_proj_refined =>
      finish (restart_qr ldV ldW ldH nLocal ldQ ldR ldQV ldhU newldhU
                ldhVecs newldhVecs restartSize basisSize numPrevRetained
                indexOfPreviousVecs numConverged numArbitraryVecs rworkSize
                QV_given machEps primme st)
  | primme_proj_default => None
  end.

(** The choice of the restart size at the head of [restart_dprimme]. *)
Definition choose_restartSize (args : restart_args) (primme : primme_params)
    (st : rstate) : rstate :=
  let basisSize := a_basisSize args in
  if bool_decide (n primme ≤ basisSize + ivar st Iv.numLocked
                              + numOrthoConst primme) then
    let marked :=
      for_loop_while 0 basisSize
        (λ i '(fl, nc), bool_decide (nc < numEvals primme))
        (λ i '(fl, nc),
           if bool_decide (aget fl i = UNCONVERGED)
           then (aset fl i CONVERGED, nc + 1) else (fl, nc))
        (flags st, ivar st Iv.numConverged) in
    let st := set_i Iv.numConverged (marked.2) (set_flags (marked.1) st) in
    let st := set_i Iv.restartSize basisSize st in
    set_i Iv.numPrevRetained 0 st
  else if bool_decide (basisSize ≤ maxBasisSize primme - maxBlockSize primme)
  then set_i Iv.restartSize basisSize st
  else if bool_decide (scheme primme = primme_dtr) then
    let numFree := ivar st Iv.numPrevRetained
                   + Z.max 3 (maxBlockSize primme) in
    let dtr :=
      Dtr.dtr_dprimme (ivar st Iv.numLocked) (dmem st Da.hVecs)
        (dmem st Da.hVals) (flags st) basisSize numFree (zmem st Ia.iev)
        (dmem st Da.rwork) primme in
    let st := set_flags (dtr.2.2)
                (set_d Da.hVals (dtr.2.1.2) (set_d Da.hVecs (dtr.2.1.1) st)) in
    set_i Iv.restartSize (dtr.1) st
  else set_i Iv.restartSize (Z.min basisSize (minRestartSize primme)) st.

(** [restart_dprimme], for [V != NULL], in the order of its text.  The
    locals [restartSize], [indexOfPreviousVecs] and [numArbitraryVecs],
    whose addresses are handed to the restart routines, live in the
    state. *)

(** The choice of the restart size and the restart of the bases, with
    or without locking. *)
Definition restart_bases (args : restart_args) (primme : primme_params)
    (st : rstate) : option (Z * rstate) :=
  let st := set_i Iv.numArbitraryVecs (a_numArbitraryVecs args) st in
  let st := choose_restartSize args primme st in
  if negb (locking primme) then
    restart_soft_locking_dprimme (a_nLocal args) (a_ldR args)
      (a_ldhU args) (a_basisSize args) (a_ldV args) (a_ldhVecs args)
      (a_ldevecsHat args) (a_ldM args) (a_ldpreviousHVecs args)
      (a_numArbitraryVecs args) (a_evecsHat_given args) (a_machEps args)
      primme st
  else Some (restart_locking_dprimme args primme st).

(** The rearrangement of [prevRitzVals] and the call of the projection
    restart. *)
Definition restart_projected (args : restart_args) (primme : primme_params)
    (st : rstate) : option (Z * rstate) :=
  let basisSize := a_basisSize args in
  let restartSize := ivar st Iv.restartSize in
  let st :=
    if bool_decide (target primme ≠ primme_smallest)
       && bool_decide (target primme ≠ primme_largest)
    then
      let st := set_d Da.prevRitzVals
                  (permute_vecs_dprimme (dmem st Da.prevRitzVals) 1
                     basisSize 1 (zmem st Ia.restartPerm)) st in
      let st := set_d Da.prevRitzVals
                  (permute_vecs_dprimme (dmem st Da.prevRitzVals) 1
                     restartSize 1 (zmem st Ia.hVecsPerm)) st in
      set_i Iv.numPrevRitzVals restartSize st
    else st in
  let newldhVecs := if bool_decide (a_newldhVecs args = 0)
                    then restartSize else a_newldhVecs args in
  let newldhU := if bool_decide (a_newldhU args = 0)
                 then restartSize else a_newldhU args in
  restart_projection_dprimme (a_ldV args) (a_ldV args)
    (a_ldH args) (a_ldV args) (a_nLocal args) (a_ldR args)
    (a_ldQV args) (a_ldhU args) newldhU (a_ldhVecs args)
    newldhVecs restartSize basisSize (ivar st Iv.numPrevRetained)
    (ivar st Iv.indexOfPreviousVecs) (primme_nLocal primme)
    (a_ldevecsHat args) (a_ldM args) (a_ldUDU args)
    (ivar st Iv.numConverged) (ivar st Iv.numArbitraryVecs)
    (a_rworkSize args) (a_evecsHat_given args) (a_QV_given args)
    (a_machEps args) primme st.

Definition restart_dprimme (args : restart_args) (primme : primme_params)
    (st : rstate) : option (Z * rstate) :=
  match restart_bases args primme st with
  | None => None
  | Some (ret, st) =>
      if bool_decide (ret ≠ 0) then Some (ret, st)
      else
      let restartSize := ivar st Iv.restartSize in
      (* the value returned by the projection restart is not used *)
      match restart_projected args primme st with
      | None => None
      | Some (_, st) => Some (0, set_i Iv.restartSizeOutput restartSize st)
      end
  end.

End with_kernels.
End Restart.

(** ** Counting for the statements about the restart *)

(** The number of UNCONVERGED flags among [flags[0 .. n)]. *)
Definition count_unconverged (flags : list flag) (n : Z) : Z :=
  for_loop 0 n
    (λ i c, if bool_decide (aget flags i = UNCONVERGED) then c + 1 else c) 0.

(** The entries of [restartPerm] that the loop of the soft-locking
    restart has written once it has placed [j] candidates and [k] other
    indices. *)
Definition restartPerm_written (numCandidates left j k p : Z) : Prop :=
  0 ≤ p < Z.min k left
  ∨ left ≤ p < left + j
  ∨ left + numCandidates ≤ p < numCandidates + k.


(** ** The SVD front end (primme_svds_z.c) *)

Module Svds.

Inductive primme_svds_operator :=
  | primme_svds_op_none | primme_svds_op_AtA
  | primme_svds_op_AAt | primme_svds_op_augmented.

#[global] Instance primme_svds_operator_eq_dec : EqDecision primme_svds_operator.
Proof. solve_decision. Defined.

Inductive primme_svds_target :=
  | primme_svds_largest | primme_svds_smallest | primme_svds_closest_abs.

#[global] Instance primme_svds_target_eq_dec : EqDecision primme_svds_target.
Proof. solve_decision. Defined.

(** The pointer [primme->targetShifts] of a stage: null, the array
    [primme_svds->targetShifts] itself, or an array of its own (given by
    the user or allocated by the front end). *)
Inductive shifts_ptr :=
  | shifts_null
  | shifts_of_svds
  | shifts_array (a : list double).

Definition is_null (p : shifts_ptr) : bool :=
  match p with shifts_null => true | _ => false end.

(** The fields of the [primme_params] of a stage that the front end sets
    and reads back.  The operator and preconditioner callbacks, the
    seeds, the workspace pointers and the statistics other than the
    matvec count are left out. *)
Record stage_params := {
  p_aNorm : double;
  p_initSize : Z;
  p_numOrthoConst : Z;
  p_targetShifts : shifts_ptr;
  p_numTargetShifts : Z;
  p_maxMatvecs : Z;
  p_numMatvecs : Z
}.

Record primme_svds_params := {
  s_m : Z;
  s_n : Z;
  s_numProcs : Z;
  s_matrixMatvec_given : bool;
  s_applyPreconditioner_given : bool;
  s_precondition : Z;
  s_globalSumDouble_given : bool;
  s_numSvals : Z;
  s_target : primme_svds_target;
  s_method : primme_svds_operator;
  s_methodStage2 : primme_svds_operator;
  s_printLevel : Z;
  s_aNorm : double;
  s_initSize : Z;
  s_numOrthoConst : Z;
  s_numTargetShifts : Z;
  s_targetShifts : list double;
  s_maxMatvecs : Z;
  s_primme : stage_params;
  s_primmeStage2 : stage_params
}.

Definition set_stage (stage : Z) (p : stage_params)
    (ps : primme_svds_params) : primme_svds_params :=
  {| s_m := s_m ps; s_n := s_n ps; s_numProcs := s_numProcs ps;
     s_matrixMatvec_given := s_matrixMatvec_given ps;
     s_applyPreconditioner_given := s_applyPreconditioner_given ps;
     s_precondition := s_precondition ps;
     s_globalSumDouble_given := s_globalSumDouble_given ps;
     s_numSvals := s_numSvals ps; s_target := s_target ps;
     s_method := s_method ps; s_methodStage2 := s_methodStage2 ps;
     s_printLevel := s_printLevel ps; s_aNorm := s_aNorm ps;
     s_initSize := s_initSize ps; s_numOrthoConst := s_numOrthoConst ps;
     s_numTargetShifts := s_numTargetShifts ps;
     s_targetShifts := s_targetShifts ps; s_maxMatvecs := s_maxMatvecs ps;
     s_primme := if bool_decide (stage = 0) then p else s_primme ps;
     s_primmeStage2 := if bool_decide (stage = 0) then s_primmeStage2 ps
                       else p |}.

(** The fields of [primme_svds] itself that [copy_last_params_to_svds]
    writes. *)
Definition set_svds (aNorm : double) (initSize maxMatvecs : Z)
    (targetShifts : list double) (ps : primme_svds_params)
    : primme_svds_params :=
  {| s_m := s_m ps; s_n := s_n ps; s_numProcs := s_numProcs ps;
     s_matrixMatvec_given := s_matrixMatvec_given ps;
     s_applyPreconditioner_given := s_applyPreconditioner_given ps;
     s_precondition := s_precondition ps;
     s_globalSumDouble_given := s_globalSumDouble_given ps;
     s_numSvals := s_numSvals ps; s_target := s_target ps;
     s_method := s_method ps; s_methodStage2 := s_methodStage2 ps;
     s_printLevel := s_printLevel ps; s_aNorm := aNorm;
     s_initSize := initSize; s_numOrthoConst := s_numOrthoConst ps;
     s_numTargetShifts := s_numTargetShifts ps;
     s_targetShifts := targetShifts; s_maxMatvecs := maxMatvecs;
     s_primme := s_primme ps; s_primmeStage2 := s_primmeStage2 ps |}.

Definition stage_of (stage : Z) (ps : primme_svds_params) : stage_params :=
  if bool_decide (stage = 0) then s_primme ps else s_primmeStage2 ps.

Definition method_of (stage : Z) (ps : primme_svds_params)
    : primme_svds_operator :=
  if bool_decide (stage = 0) then s_method ps else s_methodStage2 ps.

Definition is_normal_eq (method : primme_svds_operator) : bool :=
  bool_decide (method = primme_svds_op_AtA)
  || bool_decide (method = primme_svds_op_AAt).

Definition ALLOCATE_WORKSPACE_FAILURE : Z := -1.

(** The [min] macro at type [double], [((a) < (b) ? (a) : (b))]. *)
Definition dmin (a b : double) : double := if PrimFloat.ltb a b then a else b.

(** [comp_double] *)
Definition comp_double (a b : double) : Z := if dle a b then -1 else 1.

(** The order [x <= y] of the doubles, as a relation. *)
Definition dle_rel (x y : double) : Prop := dle x y = true.

(** [primme_svds_check_input], for [primme_svds != NULL]. *)
Definition primme_svds_check_input (svals_given svecs_given
    resNorms_given : bool) (ps : primme_svds_params) : Z :=
  if bool_decide (s_n ps ≤ 0 ∨ s_m ps ≤ 0) then -5
  else if bool_decide (s_numProcs ps < 1) then -6
  else if negb (s_matrixMatvec_given ps) then -7
  else if negb (s_applyPreconditioner_given ps)
          && bool_decide (s_precondition ps = 1) then -8
  else if bool_decide (s_numProcs ps > 1)
          && negb (s_globalSumDouble_given ps) then -9
  else if bool_decide (s_numSvals ps > Z.min (s_n ps) (s_m ps)) then -10
  else if bool_decide (s_numSvals ps < 1) then -11
  else if bool_decide (s_target ps ≠ primme_svds_smallest
                       ∧ s_target ps ≠ primme_svds_largest
                       ∧ s_target ps ≠ primme_svds_closest_abs) then -13
  else if bool_decide (s_method ps ≠ primme_svds_op_AtA
                       ∧ s_method ps ≠ primme_svds_op_AAt
                       ∧ s_method ps ≠ primme_svds_op_augmented) then -14
  else if bool_decide
            ((s_method ps = primme_svds_op_augmented
              ∧ s_methodStage2 ps ≠ primme_svds_op_none)
             ∨ (s_method ps ≠ primme_svds_op_augmented
                ∧ s_methodStage2 ps ≠ primme_svds_op_augmented
                ∧ s_methodStage2 ps ≠ primme_svds_op_none)) then -15
  else if bool_decide (s_printLevel ps < 0 ∨ s_printLevel ps > 5) then -16
  else if negb svals_given then -17
  else if negb svecs_given then -18
  else if negb resNorms_given then -19
  else 0.

(** The collaborators of the front end.  [svecs_t] stands for the
    array of singular vectors, which the front end only hands to the
    operator, to the copy kernels and to the eigensolver. *)
Class SvdsKernels := {
  svecs_t : Type;
  (** [Num_dlamch_primme("E")] *)
  Num_dlamch_E : double;
  primme_svds_set_defaults (ps : primme_svds_params) : primme_svds_params;
  (** [allocate_workspace_svds], which asks the eigensolver for its
      sizes and allocates: the code and the parameters. *)
  allocate_workspace_svds (ps : primme_svds_params) (allocate : bool)
    : Z * primme_svds_params;
  (** [zprimme(svals, svecs0, resNorms, primme)]: the code, the three
      arrays and the parameters of the stage. *)
  zprimme (svals : list double) (svecs : svecs_t) (resNorms : list double)
          (p : stage_params)
    : Z * (list double * svecs_t * list double * stage_params);
  (** What [copy_last_params_from_svds] does to [svecs] (the shuffle of
      the vectors and, for the augmented operator without a guess, the
      initial vector). *)
  svecs_from_svds (stage : Z) (ps : primme_svds_params) (svecs : svecs_t)
    : svecs_t;
  (** What [copy_last_params_to_svds] does to [svecs]. *)
  svecs_to_svds (stage : Z) (ps : primme_svds_params) (svals : list double)
                (svecs : svecs_t) : svecs_t;
  (** [qsort(base, nmemb, sizeof(double), compar)] of the C library: the
      array after the call. *)
  qsort (base : list double) (nmemb : Z) (compar : double → double → Z)
    : list double
}.

Section with_kernels.
Context {K : SvdsKernels}.

(** The shifts that [copy_last_params_from_svds] builds for the second
    stage when the target is the smallest singular values and the stage
    has no shifts of its own: the array that the two loops fill, and the
    array after the call of [qsort]. *)
Definition stage2_unsorted_shifts (svals rnorms : list double)
    (ps : primme_svds_params) : list double :=
  let machEps := Num_dlamch_E in
  let targetShifts := replicate (Z.to_nat (s_numSvals ps)) 0%float in
  let targetShifts :=
    for_loop 0 (s_initSize ps)
      (λ i ts, aset ts i (dmax (aget svals i - aget rnorms i)%float
                               (s_aNorm ps * machEps)%float))
      targetShifts in
  for_loop (Z.max 0 (s_initSize ps)) (s_numSvals ps)
    (λ i ts, aset ts i (s_aNorm ps * machEps)%float)
    targetShifts.

Definition stage2_smallest_shifts (svals rnorms : list double)
    (ps : primme_svds_params) : list double :=
  qsort (stage2_unsorted_shifts svals rnorms ps) (s_numSvals ps) comp_double.

(** [copy_last_params_from_svds], as far as the parameters go: the
    parameters and [allocatedTargetShifts]; [None] when the assertion
    [assert(method == primme_svds_op_augmented)] fails.  The vectors are
    dealt with by [svecs_from_svds]; the assertion
    [assert(primme->nLocal == primme_svds->mLocal+primme_svds->nLocal)],
    which stands in the shuffle of the vectors and reads fields that the
    records leave out, is not part of this function: what is proved of
    its result holds when the program gets past that assertion. *)
Definition copy_last_params_from_svds (ps : primme_svds_params)
    (stage : Z) (svals rnorms : list double)
    : option (primme_svds_params * bool) :=
  let primme := stage_of stage ps in
  let method := method_of stage ps in
  if bool_decide (method = primme_svds_op_none) then
    Some (set_stage stage
            {| p_aNorm := p_aNorm primme; p_initSize := p_initSize primme;
               p_numOrthoConst := p_numOrthoConst primme;
               p_targetShifts := p_targetShifts primme;
               p_numTargetShifts := p_numTargetShifts primme;
               p_maxMatvecs := 1; p_numMatvecs := p_numMatvecs primme |} ps,
          false)
  else
  let aNorm :=
    if dgt (s_aNorm ps) 0%float then
      match method with
      | primme_svds_op_AtA | primme_svds_op_AAt => (s_aNorm ps * s_aNorm ps)%float
      | primme_svds_op_augmented => s_aNorm ps
      | primme_svds_op_none => p_aNorm primme
      end
    else p_aNorm primme in
  let initSize := s_initSize ps in
  let numOrthoConst := s_numOrthoConst ps in
  let maxMatvecs := s_maxMatvecs ps in
  let shifts_branch : option (primme_svds_params * shifts_ptr * Z * bool) :=
    if (bool_decide (stage = 0) && bool_decide (s_numTargetShifts ps > 0))
       || (bool_decide (stage = 1)
           && is_null (p_targetShifts primme)
           && bool_decide (s_target ps = primme_svds_closest_abs))
    then
      (* the stage shares the array of primme_svds; the first stage on
         the normal equations squares its entries in place *)
      let shifts :=
        if bool_decide (stage = 0) && is_normal_eq method then
          for_loop 0 (s_numTargetShifts ps)
            (λ i ts, aset ts i (aget ts i * aget ts i)%float)
            (s_targetShifts ps)
        else s_targetShifts ps in
      Some (set_svds (s_aNorm ps) (s_initSize ps) (s_maxMatvecs ps) shifts ps,
            shifts_of_svds, s_numTargetShifts ps, false)
    else if bool_decide (stage = 1)
            && is_null (p_targetShifts primme)
            && bool_decide (s_target ps = primme_svds_smallest)
    then
      if bool_decide (method = primme_svds_op_augmented) then
        Some (ps, shifts_array (stage2_smallest_shifts svals rnorms ps),
              s_numSvals ps, true)
      else None
    else if bool_decide (method = primme_svds_op_augmented)
            && bool_decide (s_target ps = primme_svds_smallest)
            && is_null (p_targetShifts primme)
    then Some (ps, shifts_array [0%float], 1, true)
    else Some (ps, p_targetShifts primme, p_numTargetShifts primme, false) in
  match shifts_branch with
  | None => None
  | Some (ps, targetShifts, numTargetShifts, allocatedTargetShifts) =>
      (* without a guess the augmented operator gets one initial vector *)
      let initSize :=
        if bool_decide (method = primme_svds_op_augmented)
           && bool_decide (initSize ≤ 0) then 1 else initSize in
      Some (set_stage stage
              {| p_aNorm := aNorm; p_initSize := initSize;
                 p_numOrthoConst := numOrthoConst;
                 p_targetShifts := targetShifts;
                 p_numTargetShifts := numTargetShifts;
                 p_maxMatvecs := maxMatvecs;
                 p_numMatvecs := p_numMatvecs primme |} ps,
            allocatedTargetShifts)
  end.

(** Whether [primme_svds->targetShifts == primme->targetShifts]; a null
    array of [primme_svds] is the empty list. *)
Definition same_shifts (p : shifts_ptr) (ps : primme_svds_params) : bool :=
  match p with
  | shifts_of_svds => true
  | shifts_null => match s_targetShifts ps with [] => true | _ => false end
  | shifts_array _ => false
  end.

(** The loop of [copy_last_params_to_svds] that turns the eigenvalues of
    the normal equations into singular values. *)
Definition svals_of_evals (initSize : Z) (svals : list double) : list double :=
  for_loop 0 initSize
    (λ i sv, aset sv i (PrimFloat.sqrt (dmax 0%float (aget sv i)))) svals.

(** [copy_last_params_to_svds], as far as the parameters, [svals] and
    [rnorms] go; the assertions on the workspaces are left out, as the
    workspaces are.  The vectors are dealt with by [svecs_to_svds]. *)
Definition copy_last_params_to_svds (ps : primme_svds_params) (stage : Z)
    (svals rnorms : list double) (allocatedTargetShifts : bool)
    : primme_svds_params * (list double * list double) :=
  let primme := stage_of stage ps in
  let method := method_of stage ps in
  if bool_decide (method = primme_svds_op_none) then
    (set_stage stage
       {| p_aNorm := p_aNorm primme; p_initSize := p_initSize primme;
          p_numOrthoConst := p_numOrthoConst primme;
          p_targetShifts := p_targetShifts primme;
          p_numTargetShifts := p_numTargetShifts primme;
          p_maxMatvecs := 1; p_numMatvecs := p_numMatvecs primme |} ps,
     (svals, rnorms))
  else
  let aNorm :=
    if dgt (p_aNorm primme) 0%float then
      match method with
      | primme_svds_op_AtA | primme_svds_op_AAt => PrimFloat.sqrt (p_aNorm primme)
      | primme_svds_op_augmented => p_aNorm primme
      | primme_svds_op_none => s_aNorm ps
      end
    else s_aNorm ps in
  let svals :=
    if is_normal_eq method then svals_of_evals (p_initSize primme) svals
    else svals in
  let initSize := p_initSize primme in
  let maxMatvecs := s_maxMatvecs ps - p_numMatvecs primme in
  let targetShifts :=
    if bool_decide (stage = 0) && same_shifts (p_targetShifts primme) ps
       && is_normal_eq method
    then for_loop 0 (s_numTargetShifts ps)
           (λ i ts, aset ts i (PrimFloat.sqrt (aget ts i))) (s_targetShifts ps)
    else s_targetShifts ps in
  let primme :=
    if allocatedTargetShifts then
      {| p_aNorm := p_aNorm primme; p_initSize := p_initSize primme;
         p_numOrthoConst := p_numOrthoConst primme;
         p_targetShifts := shifts_null;
         p_numTargetShifts := p_numTargetShifts primme;
         p_maxMatvecs := p_maxMatvecs primme;
         p_numMatvecs := p_numMatvecs primme |}
    else primme in
  let rnorms :=
    if bool_decide (s_methodStage2 ps ≠ primme_svds_op_none) then
      match method with
      | primme_svds_op_AtA | primme_svds_op_AAt =>
          for_loop 0 initSize
            (λ i rn, aset rn i (dmin (aget rn i / aget svals i)%float aNorm))
            rnorms
      | primme_svds_op_augmented =>
          for_loop 0 initSize
            (λ i rn, aset rn i (aget rn i * PrimFloat.sqrt 2)%float) rnorms
      | primme_svds_op_none => rnorms
      end
    else rnorms in
  (set_stage stage primme
     (set_svds aNorm initSize maxMatvecs targetShifts ps),
   (svals, rnorms)).

(** One stage of [zprimme_svds]: the hand-over of the parameters, the
    call of the eigensolver and the hand-back. *)
Definition run_stage (stage : Z) (svals : list double) (svecs : svecs_t)
    (resNorms : list double) (ps : primme_svds_params)
    : option (Z * (list double * svecs_t * list double * primme_svds_params)) :=
  let from := if bool_decide (stage = 0)
              then copy_last_params_from_svds ps stage [] []
              else copy_last_params_from_svds ps stage svals resNorms in
  match from with
  | None => None
  | Some (ps, allocatedTargetShifts) =>
      let svecs0 := svecs_from_svds stage ps svecs in
      let '(ret, (svals, svecs, resNorms, primme)) :=
        zprimme svals svecs0 resNorms (stage_of stage ps) in
      let ps := set_stage stage primme ps in
      let '(ps', (svals', resNorms')) :=
        copy_last_params_to_svds ps stage svals resNorms
          allocatedTargetShifts in
      let svecs := svecs_to_svds stage ps svals' svecs in
      Some (ret, (svals', svecs, resNorms', ps'))
  end.

(** [zprimme_svds] once the three output arrays are known to be given
    (the call with three null pointers only reports workspace sizes). *)
Definition zprimme_svds (svals : list double) (svecs : svecs_t)
    (resNorms : list double) (ps : primme_svds_params)
    : option (Z * (list double * svecs_t * list double * primme_svds_params)) :=
  let ps := primme_svds_set_defaults ps in
  let ret := primme_svds_check_input true true true ps in
  if bool_decide (ret ≠ 0) then Some (ret, (svals, svecs, resNorms, ps))
  else
  let '(ret, ps) := allocate_workspace_svds ps true in
  if bool_decide (ret ≠ 0)
  then Some (ALLOCATE_WORKSPACE_FAILURE, (svals, svecs, resNorms, ps))
  else
  (* Execute stage 1 *)
  match run_stage 0 svals svecs resNorms ps with
  | None => None
  | Some (ret, (svals, svecs, resNorms, ps)) =>
      if bool_decide (ret ≠ 0)
      then Some (int_sub ret 100, (svals, svecs, resNorms, ps))
      else if bool_decide (s_methodStage2 ps = primme_svds_op_none)
      then Some (0, (svals, svecs, resNorms, ps))
      else
      (* Execute stage 2 *)
      match run_stage 1 svals svecs resNorms ps with
      | None => None
      | Some (ret, (svals, svecs, resNorms, ps)) =>
          if bool_decide (ret ≠ 0)
          then Some (int_sub ret 200, (svals, svecs, resNorms, ps))
          else Some (0, (svals, svecs, resNorms, ps))
      end
  end.

End with_kernels.
End Svds.

(** ** The operator of the eigensolver stages (primme_svds_z.c) *)

Module SvdsOperator.
Import Svds.

(** The arrays that [matrixMatvecSVDS] hands to the operator of the
    user: the input [x], the output [y], and the workspace
    [primme_svds->realWork]. *)
Inductive buffer := buf_x | buf_y | buf_realWork.

#[global] Instance buffer_eq_dec : EqDecision buffer.
Proof. solve_decision. Defined.

(** One call [primme_svds->matrixMatvec(x, &ldx, y, &ldy, &blockSize,
    &transpose, primme_svds)]: the two arrays with the offsets of the
    pointers into them, the leading dimensions, the number of columns
    and the mode. *)
Record matvec_call := {
  mv_x : buffer; mv_x_off : Z; mv_ldx : Z;
  mv_y : buffer; mv_y_off : Z; mv_ldy : Z;
  mv_blockSize : Z; mv_transpose : Z
}.

(** [for (i=0, bs=min(blockSize-i, maxBlockSize); bs>0;
         i+=bs, bs=min(blockSize-i, maxBlockSize)) body]:
    the calls that the iterations make, in order; [None] when the fuel
    runs out before the loop ends. *)
Fixpoint block_loop (fuel : nat) (i blockSize maxBlockSize : Z)
    (body : Z → Z → list matvec_call) : option (list matvec_call) :=
  match fuel with
  | O => None
  | S fuel' =>
      let bs := Z.min (blockSize - i) maxBlockSize in
      if bool_decide (bs > 0) then
        match block_loop fuel' (i + bs) blockSize maxBlockSize body with
        | Some calls => Some (body i bs ++ calls)
        | None => None
        end
      else Some []
  end.

(** [matrixMatvecSVDS(x, y, blockSize, primme)]: the calls of the
    operator of the user.  [stage] says which of the two eigensolvers
    [primme] is, [nLocal] and [maxBlockSize] are its fields, [mLocal_svds]
    and [nLocal_svds] those of [primme_svds].  The loops get
    [blockSize + 1] iterations of fuel. *)
Definition matrixMatvecSVDS (stage blockSize nLocal maxBlockSize
    mLocal_svds nLocal_svds : Z) (ps : primme_svds_params)
    : option (list matvec_call) :=
  let trans := 1 in
  let notrans := 0 in
  let fuel := Datatypes.S (Z.to_nat blockSize) in
  match method_of stage ps with
  | primme_svds_op_AtA =>
      block_loop fuel 0 blockSize maxBlockSize
        (λ i bs,
           [ {| mv_x := buf_x; mv_x_off := nLocal * i; mv_ldx := nLocal;
                mv_y := buf_realWork; mv_y_off := 0; mv_ldy := mLocal_svds;
                mv_blockSize := bs; mv_transpose := notrans |};
             {| mv_x := buf_realWork; mv_x_off := 0; mv_ldx := mLocal_svds;
                mv_y := buf_y; mv_y_off := i * nLocal; mv_ldy := nLocal;
                mv_blockSize := bs; mv_transpose := trans |} ])
  | primme_svds_op_AAt =>
      block_loop fuel 0 blockSize maxBlockSize
        (λ i bs,
           [ {| mv_x := buf_x; mv_x_off := nLocal * i; mv_ldx := nLocal;
                mv_y := buf_realWork; mv_y_off := 0; mv_ldy := nLocal_svds;
                mv_blockSize := bs; mv_transpose := trans |};
             {| mv_x := buf_realWork; mv_x_off := 0; mv_ldx := nLocal_svds;
                mv_y := buf_y; mv_y_off := i * nLocal; mv_ldy := nLocal;
                mv_blockSize := bs; mv_transpose := notrans |} ])
  | primme_svds_op_augmented =>
      Some
        [ {| mv_x := buf_x; mv_x_off := nLocal_svds; mv_ldx := nLocal;
             mv_y := buf_y; mv_y_off := 0; mv_ldy := nLocal;
             mv_blockSize := blockSize; mv_transpose := trans |};
          {| mv_x := buf_x; mv_x_off := 0; mv_ldx := nLocal;
             mv_y := buf_y; mv_y_off := nLocal_svds; mv_ldy := nLocal;
             mv_blockSize := blockSize; mv_transpose := notrans |} ]
  | primme_svds_op_none => Some []
  end.

(** The blocks [(i, bs)] of columns follow one another from [from] up to
    [to]. *)
Fixpoint blocks_cover (from : Z) (blocks : list (Z * Z)) (to : Z) : Prop :=
  match blocks with
  | [] => from = to
  | (i, bs) :: rest => i = from ∧ blocks_cover (from + bs) rest to
  end.

End SvdsOperator.


(** ** Stand-ins for the collaborators and concrete inputs

    Executable stand-ins for the kernels, used to run the routines on the
    concrete inputs of the examples below.  They follow the description of
    the collaborators in the specification (V <- V*hVecs, X'*H*X, ...) in
    plain binary64 arithmetic, summing in increasing index order. *)

Module Examples.

(** Entry [(i, j)] of a column-major matrix at [off] with leading
    dimension [ld]. *)
Definition mget (a : list double) (off ld i j : Z) : double :=
  aget a (off + ld * j + i).

(** The sum of [f k] for [k] from 0 to [n - 1]. *)
Definition dsum (n : Z) (f : Z → double) : double :=
  for_loop 0 n (λ k acc, (acc + f k)%float) 0%float.

(** Writes [f i j] at every entry of the [m] x [n] matrix at [off]. *)
Definition mfill (a : list double) (off ld m n : Z) (f : Z → Z → double)
    : list double :=
  for_loop 0 n
    (λ j a, for_loop 0 m (λ i a, aset a (off + ld * j + i) (f i j)) a) a.

(** Modelled from the spec: [ortho_dprimme], classical Gram-Schmidt of
    the columns [b1 .. b2] against the columns before them and against
    the [numLocked] columns at [offLocked]; a column that vanishes is an
    error (the re-draw of a random column is not provided). *)
Definition ref_ortho (basis : list double)
    (ldBasis b1 b2 offLocked ldLocked numLocked nLocal : Z)
    (machEps : double) : Z * list double :=
  for_loop b1 (b2 + 1)
    (λ c '(ret, basis),
       let against (q : Z → double) (basis : list double) :=
         let s := dsum nLocal (λ i, q i * mget basis 0 ldBasis i c)%float in
         mfill basis (ldBasis * c) ldBasis nLocal 1
           (λ i _, mget basis 0 ldBasis i c - s * q i)%float in
       let basis :=
         for_loop 0 c
           (λ k basis, against (λ i, mget basis 0 ldBasis i k) basis) basis in
       let basis :=
         for_loop 0 numLocked
           (λ l basis, against (λ i, mget basis offLocked ldLocked i l) basis)
           basis in
       let nrm := PrimFloat.sqrt
                    (dsum nLocal (λ i, mget basis 0 ldBasis i c
                                       * mget basis 0 ldBasis i c)%float) in
       if dgt nrm 0%float
       then (ret,
             mfill basis (ldBasis * c) ldBasis nLocal 1
               (λ i _, mget basis 0 ldBasis i c / nrm)%float)
       else (-1, basis))
    (0, basis).

(** Modelled from the spec: the update kernel, "V <- V*hVecs and
    W <- W*hVecs, simultaneously extracting the block's Ritz vectors X
    and residual vectors Res into the tail of V and W", with the
    residual norms in [blockNorms]. *)
Definition ref_update_VWXR (V W : list double) (nLocal basisSize ldV : Z)
    (h : list double) (restartSize ldh : Z) (hVals : list double)
    (left right : Z) (blockNorms : list double)
    : Z * (list double * list double * list double) :=
  let Vh i c := dsum basisSize (λ k, mget V 0 ldV i k * mget h 0 ldh k c)%float in
  let Wh i c := dsum basisSize (λ k, mget W 0 ldV i k * mget h 0 ldh k c)%float in
  let res i c := (Wh i c - aget hVals c * Vh i c)%float in
  let V' := mfill V 0 ldV nLocal restartSize Vh in
  let V' := mfill V' (restartSize * ldV) ldV nLocal (right - left)
              (λ i c, Vh i (left + c)) in
  let W' := mfill W 0 ldV nLocal restartSize Wh in
  let W' := mfill W' (restartSize * ldV) ldV nLocal (right - left)
              (λ i c, res i (left + c)) in
  let blockNorms :=
    for_loop 0 (right - left)
      (λ c bn, aset bn c
                 (PrimFloat.sqrt
                    (dsum nLocal (λ i, let r := res i (left + c) in
                                       (r * r)%float))))
      blockNorms in
  (0, (V', W', blockNorms)).

(** Modelled from the spec: [compute_submatrix_dprimme], X'*H*X for the
    symmetric [H] stored in its upper triangle. *)
Definition ref_compute_submatrix (X : list double) (offX nX ldX : Z)
    (H : list double) (nH ldH : Z) (R : list double) (offR ldR : Z)
    : list double :=
  let Hsym k l := if bool_decide (k ≤ l) then mget H 0 ldH k l
                  else mget H 0 ldH l k in
  mfill R offR ldR nX nX
    (λ i j, dsum nH (λ l, dsum nH (λ k, mget X offX ldX k i * Hsym k l)%float
                          * mget X offX ldX l j)%float).

(** A solver for the projected problems of order 0 and 1, whose
    eigenpair is exact; it reports failure for larger orders. *)
Definition ref_solve_H (H : list double) (offH n ldH : Z)
    (hVecs : list double) (offVecs ldhVecs : Z) (hVals : list double)
    (offVals numConverged : Z) (machEps : double) (primme : primme_params)
    : Z * (list double * list double) :=
  if bool_decide (n ≤ 0) then (0, (hVecs, hVals))
  else if bool_decide (n = 1)
  then (0, (aset hVecs offVecs 1%float, aset hVals offVals (aget H offH)))
  else (-1, (hVecs, hVals)).

(** A solver whose LAPACK call fails. *)
Definition failing_solve_H (H : list double) (offH n ldH : Z)
    (hVecs : list double) (offVecs ldhVecs : Z) (hVals : list double)
    (offVals numConverged : Z) (machEps : double) (primme : primme_params)
    : Z * (list double * list double) :=
  (-1, (hVecs, hVals)).

(** The kernels of the examples, with the solver as a parameter.  The
    examples use Rayleigh-Ritz extraction without locking and without
    skew projector: the routines of the other configurations are not
    provided and report failure or leave their argument as it is. *)
Definition kernels_with
    (solve : list double → Z → Z → Z → list double → Z → Z → list double
             → Z → Z → double → primme_params
             → Z * (list double * list double)) : Kernels :=
  {| ortho_dprimme := ref_ortho;
     Num_trsm_dprimme := λ m n alpha A lda B offB ldb, B;
     Num_update_VWXR_dprimme := ref_update_VWXR;
     compute_submatrix_dprimme := ref_compute_submatrix;
     solve_H_dprimme := solve;
     restart_qr := λ _ _ _ _ _ _ _ _ _ _ _ _ _ _ _ _ _ _ _ _ _ st, (-1, st);
     restart_locking_dprimme := λ _ _ st, (-1, st);
     applyPreconditioner := λ evecs evecsHat off blockSize, evecsHat;
     update_projection_dprimme := λ X ldX Y ldY Zm ldZ nLocal numCols
                                    blockSize symmetric, Zm;
     UDUDecompose_dprimme := λ M ldM UDU ldUDU ipivot dimM,
                               (-1, (UDU, ipivot)) |}.

Definition ref_kernels : Kernels := kernels_with ref_solve_H.
Definition failing_solver_kernels : Kernels := kernels_with failing_solve_H.

(** A state with the given arrays and ints; what is not listed is empty
    or zero. *)
Definition mk_rstate (V W H hVecs hVals previousHVecs evals resNorms
    : list double) (flags : list flag) (restartPerm hVecsPerm iev : list Z)
    (numConverged numPrevRetained : Z) : rstate :=
  {| dmem := λ a, match a with
                  | Da.V => V | Da.W => W | Da.H => H | Da.hVecs => hVecs
                  | Da.hVals => hVals | Da.previousHVecs => previousHVecs
                  | Da.evals => evals | Da.resNorms => resNorms
                  | Da.blockNorms => [0%float]
                  | Da.rwork => replicate 16 0%float
                  | _ => []
                  end;
     zmem := λ a, match a with
                  | Ia.restartPerm => restartPerm
                  | Ia.hVecsPerm => hVecsPerm
                  | Ia.iev => iev
                  | _ => []
                  end;
     ivar := λ a, match a with
                  | Iv.numConverged => numConverged
                  | Iv.numPrevRetained => numPrevRetained
                  | _ => 0
                  end;
     flags := flags |}.

(** Example A: A = diag(1,2,3), a basis of two vectors out of three, one
    eigenvalue wanted, nothing retained from the previous step. *)
Definition primme_A : primme_params :=
  {| n := 3; nLocal := 3; numEvals := 1; numOrthoConst := 0;
     maxBasisSize := 3; minRestartSize := 1; maxBlockSize := 1;
     locking := false; target := primme_smallest; numTargetShifts := 0;
     targetShifts := []; scheme := primme_thick;
     projection := primme_proj_RR |}.

Definition args_A : restart_args :=
  {| a_nLocal := 3; a_basisSize := 2; a_ldV := 3; a_ldevecsHat := 3;
     a_ldM := 1; a_ldUDU := 1; a_ldpreviousHVecs := 3; a_numGuesses := 0;
     a_ldH := 3; a_ldQ := 3; a_ldR := 3; a_ldQV := 3; a_ldhU := 3;
     a_newldhU := 0; a_ldhVecs := 3; a_newldhVecs := 0;
     a_numArbitraryVecs := 0; a_machEps := 0x1p-53%float;
     a_rworkSize := 16; a_evecsHat_given := false; a_QV_given := false |}.

Definition state_A : rstate :=
  mk_rstate
    [1; 0; 0;  0; 1; 0;  0; 0; 0;  0; 0; 0]%float       (* V = [e0 e1 . .] *)
    [1; 0; 0;  0; 2; 0;  0; 0; 0;  0; 0; 0]%float       (* W = A*V *)
    [1; 0; 0;  0; 2; 0;  0; 0; 0]%float                 (* H = diag(1,2) *)
    [1; 0; 0;  0; 1; 0;  0; 0; 0]%float                 (* hVecs = I *)
    [1; 2; 0]%float                                     (* hVals *)
    [0; 0; 0]%float [0; 0; 0]%float [0; 0; 0]%float
    [UNCONVERGED; UNCONVERGED; UNCONVERGED]
    [0; 0] [0; 0] [0] 0 0.

(** Example B: A = diag(1,2,3,4), a full basis of three vectors, one
    coefficient vector retained from the previous step. *)
Definition primme_B : primme_params :=
  {| n := 4; nLocal := 4; numEvals := 1; numOrthoConst := 0;
     maxBasisSize := 3; minRestartSize := 1; maxBlockSize := 1;
     locking := false; target := primme_smallest; numTargetShifts := 0;
     targetShifts := []; scheme := primme_thick;
     projection := primme_proj_RR |}.

Definition args_B : restart_args :=
  {| a_nLocal := 4; a_basisSize := 3; a_ldV := 4; a_ldevecsHat := 4;
     a_ldM := 1; a_ldUDU := 1; a_ldpreviousHVecs := 3; a_numGuesses := 0;
     a_ldH := 3; a_ldQ := 4; a_ldR := 3; a_ldQV := 3; a_ldhU := 3;
     a_newldhU := 0; a_ldhVecs := 3; a_newldhVecs := 0;
     a_numArbitraryVecs := 0; a_machEps := 0x1p-53%float;
     a_rworkSize := 16; a_evecsHat_given := false; a_QV_given := false |}.

Definition state_B : rstate :=
  mk_rstate
    [1; 0; 0; 0;  0; 1; 0; 0;  0; 0; 1; 0;  0; 0; 0; 0]%float
    [1; 0; 0; 0;  0; 2; 0; 0;  0; 0; 3; 0;  0; 0; 0; 0]%float
    [1; 0; 0;  0; 2; 0;  0; 0; 3]%float
    [1; 0; 0;  0; 1; 0;  0; 0; 1]%float
    [1; 2; 3]%float
    [0; 0; 1]%float                                     (* previousHVecs *)
    [0; 0; 0]%float [0; 0; 0]%float
    [UNCONVERGED; UNCONVERGED; UNCONVERGED]
    [0; 0; 0] [0; 0; 0] [0] 0 1.

(** Example D: a full basis of seven vectors restarted by the dynamic
    thick restart, with blocks of two vectors. *)
Definition primme_D : primme_params :=
  {| n := 20; nLocal := 20; numEvals := 1; numOrthoConst := 0;
     maxBasisSize := 7; minRestartSize := 1; maxBlockSize := 2;
     locking := false; target := primme_smallest; numTargetShifts := 0;
     targetShifts := []; scheme := primme_dtr;
     projection := primme_proj_RR |}.

Definition hVecs_D : list double := replicate 49 1%float.

Definition hVals_D : list double := [1; 2; 3; 4; 5; 6; 7]%float.

Definition flags_D : list flag :=
  [CONVERGED; CONVERGED; UNCONVERGED; UNCONVERGED; UNCONVERGED;
   CONVERGED; CONVERGED; LOCKED; LOCKED].

Definition rwork_D : list double := replicate 49 0%float.

(** Example E: a basis of two vectors whose first Ritz pair is flagged
    CONVERGED although its Ritz value 1 is at distance 4 from the stored
    eigenvalue 5, with residual norm 1/2.  With [primme_E] the basis
    spans the whole space of dimension 2; with [primme_F] the space has
    dimension 3. *)
Definition primme_E : primme_params :=
  {| n := 2; nLocal := 2; numEvals := 1; numOrthoConst := 0;
     maxBasisSize := 2; minRestartSize := 1; maxBlockSize := 1;
     locking := false; target := primme_smallest; numTargetShifts := 0;
     targetShifts := []; scheme := primme_thick;
     projection := primme_proj_RR |}.

Definition primme_F : primme_params :=
  {| n := 3; nLocal := 3; numEvals := 1; numOrthoConst := 0;
     maxBasisSize := 2; minRestartSize := 1; maxBlockSize := 1;
     locking := false; target := primme_smallest; numTargetShifts := 0;
     targetShifts := []; scheme := primme_thick;
     projection := primme_proj_RR |}.

Definition state_E : rstate :=
  set_i Iv.restartSize 1
    (mk_rstate
       [1; 0; 0;  0; 1; 0;  0; 0; 0]%float
       [1; 0; 0;  0; 2; 0;  0; 0; 0]%float
       [1; 0;  0; 2]%float
       [1; 0;  0; 1]%float
       [1; 2]%float
       [0; 0]%float
       [5; 0]%float                                     (* evals *)
       [0.5; 0]%float                                   (* resNorms *)
       [CONVERGED; UNCONVERGED]
       [0; 0] [0; 0] [0] 1 0).

(** The soft-locking restart of Example E with the given parameters. *)
Definition soft_locking_E (primme : primme_params) : option (Z * rstate) :=
  Restart.restart_soft_locking_dprimme (K := ref_kernels)
    (nLocal primme) 2 2 2 3 2 3 1 2 0 false 0x1p-53%float primme state_E.

(** Example E entered with a block of five candidates and iev = (7). *)
Definition state_E5 : rstate :=
  set_z Ia.iev [7] (set_i Iv.ievSize 5 state_E).

(** Example H: Example E5 with room for three basis vectors and one
    previous coefficient vector retained, which is the zero vector, so
    that the orthogonalisation of the coefficient vectors fails. *)
Definition primme_H : primme_params :=
  {| n := 3; nLocal := 3; numEvals := 1; numOrthoConst := 0;
     maxBasisSize := 3; minRestartSize := 1; maxBlockSize := 1;
     locking := false; target := primme_smallest; numTargetShifts := 0;
     targetShifts := []; scheme := primme_thick;
     projection := primme_proj_RR |}.

Definition state_H : rstate := set_i Iv.numPrevRetained 1 state_E5.

(** Example G: the projection restart of a basis of three vectors for
    A = diag(1,2,3) to two vectors, the first of them retained from the
    previous step; [H] holds a 7 below its diagonal. *)
Definition H_G : list double := [1; 7; 0;  0; 2; 0;  0; 0; 3]%float.

Definition hVecs_G : list double := [0; 0; 1;  1; 0; 0;  0; 1; 0]%float.

Definition hVals_G : list double := [3; 1; 2]%float.

Definition restart_RR_G
    : option (Z * (list double * list double * list double)) :=
  Restart.restart_RR (K := ref_kernels) H_G 3 hVecs_G 3 2 hVals_G 2 3 0 1 0
    [1; 0] 0x1p-53%float primme_B.

(** A sorting routine to stand for [qsort] of the C library: an
    insertion sort of the first [nmemb] elements that places an element
    before the first one it compares below. *)
Fixpoint qsort_insert (compar : double → double → Z) (x : double)
    (l : list double) : list double :=
  match l with
  | [] => [x]
  | y :: l' => if bool_decide (compar x y < 0) then x :: y :: l'
               else y :: qsort_insert compar x l'
  end.

Definition insertion_qsort (base : list double) (nmemb : Z)
    (compar : double → double → Z) : list double :=
  foldr (qsort_insert compar) [] (take (Z.to_nat nmemb) base)
  ++ drop (Z.to_nat nmemb) base.

(** Whether [compar] orders any two elements of the list one way only:
    it does not put each of the two below the other, nor each above the
    other.  The C standard specifies [qsort] for comparison functions
    whose results are consistent with one another. *)
Fixpoint consistent_pairs (compar : double → double → Z)
    (l : list double) : bool :=
  match l with
  | [] => true
  | x :: l' =>
      forallb (λ y, negb (bool_decide (compar x y < 0)
                          && bool_decide (compar y x < 0))
                    && negb (bool_decide (0 < compar x y)
                             && bool_decide (0 < compar y x))) l'
      && consistent_pairs compar l'
  end.

(** A second stand-in for [qsort], which does what the C standard
    specifies and nothing beyond it: it sorts when the comparison
    function is consistent on the elements, and leaves the array as it
    is otherwise. *)
Definition strict_qsort (base : list double) (nmemb : Z)
    (compar : double → double → Z) : list double :=
  if consistent_pairs compar (take (Z.to_nat nmemb) base)
  then insertion_qsort base nmemb compar else base.

(** Stand-ins for the collaborators of the front end: no vectors, an
    eigensolver that returns the given code and leaves its arguments as
    they are, defaults and workspaces that change nothing, and the
    insertion sort for [qsort]. *)
Definition svds_kernels_with (code : Z) : Svds.SvdsKernels :=
  {| Svds.svecs_t := unit;
     Svds.Num_dlamch_E := 0x1p-53%float;
     Svds.primme_svds_set_defaults := λ ps, ps;
     Svds.allocate_workspace_svds := λ ps _, (0, ps);
     Svds.zprimme := λ svals svecs resNorms p,
                       (code, (svals, svecs, resNorms, p));
     Svds.svecs_from_svds := λ _ _ svecs, svecs;
     Svds.svecs_to_svds := λ _ _ _ svecs, svecs;
     Svds.qsort := insertion_qsort |}.

(** The same with the second stand-in for [qsort]. *)
Definition svds_kernels_strict : Svds.SvdsKernels :=
  {| Svds.svecs_t := unit;
     Svds.Num_dlamch_E := 0x1p-53%float;
     Svds.primme_svds_set_defaults := λ ps, ps;
     Svds.allocate_workspace_svds := λ ps _, (0, ps);
     Svds.zprimme := λ svals svecs resNorms p,
                       (0, (svals, svecs, resNorms, p));
     Svds.svecs_from_svds := λ _ _ svecs, svecs;
     Svds.svecs_to_svds := λ _ _ _ svecs, svecs;
     Svds.qsort := strict_qsort |}.

Definition stage_S : Svds.stage_params :=
  {| Svds.p_aNorm := 0%float; Svds.p_initSize := 2;
     Svds.p_numOrthoConst := 0; Svds.p_targetShifts := Svds.shifts_null;
     Svds.p_numTargetShifts := 0; Svds.p_maxMatvecs := 100;
     Svds.p_numMatvecs := 0 |}.

(** Example S: two smallest singular values of a 3 x 2 matrix, first on
    A'A, then on the augmented operator. *)
Definition svds_S : Svds.primme_svds_params :=
  {| Svds.s_m := 3; Svds.s_n := 2; Svds.s_numProcs := 1;
     Svds.s_matrixMatvec_given := true;
     Svds.s_applyPreconditioner_given := false; Svds.s_precondition := 0;
     Svds.s_globalSumDouble_given := false; Svds.s_numSvals := 2;
     Svds.s_target := Svds.primme_svds_smallest;
     Svds.s_method := Svds.primme_svds_op_AtA;
     Svds.s_methodStage2 := Svds.primme_svds_op_augmented;
     Svds.s_printLevel := 0; Svds.s_aNorm := 2%float;
     Svds.s_initSize := 1; Svds.s_numOrthoConst := 0;
     Svds.s_numTargetShifts := 0; Svds.s_targetShifts := [];
     Svds.s_maxMatvecs := 100;
     Svds.s_primme := stage_S; Svds.s_primmeStage2 := stage_S |}.

(** Example T: three smallest singular values of a 4 x 3 matrix, one of
    them known from the first stage. *)
Definition svds_T : Svds.primme_svds_params :=
  {| Svds.s_m := 4; Svds.s_n := 3; Svds.s_numProcs := 1;
     Svds.s_matrixMatvec_given := true;
     Svds.s_applyPreconditioner_given := false; Svds.s_precondition := 0;
     Svds.s_globalSumDouble_given := false; Svds.s_numSvals := 3;
     Svds.s_target := Svds.primme_svds_smallest;
     Svds.s_method := Svds.primme_svds_op_AtA;
     Svds.s_methodStage2 := Svds.primme_svds_op_augmented;
     Svds.s_printLevel := 0; Svds.s_aNorm := 2%float;
     Svds.s_initSize := 1; Svds.s_numOrthoConst := 0;
     Svds.s_numTargetShifts := 0; Svds.s_targetShifts := [];
     Svds.s_maxMatvecs := 100;
     Svds.s_primme := stage_S; Svds.s_primmeStage2 := stage_S |}.


End Examples.

(** Further inputs. *)
Module MoreExamples.
Import Examples.

(** Example P: three flags and an empty [restartPerm] of three entries,
    for one candidate behind one other pair. *)
Definition flags_P : list flag := [UNCONVERGED; CONVERGED; UNCONVERGED].

(** Example W: a state after the restart of the bases of two vectors,
    with restartPerm = (1, 0), one previous vector at the index 0 and
    the candidate behind it. *)
Definition state_W : rstate :=
  set_i Iv.left 1
    (set_i Iv.indexOfPreviousVecs 0
       (set_i Iv.restartSize 2
          (mk_rstate [] [] [] [] [] [] [] []
             [UNCONVERGED; UNCONVERGED]
             [1; 0] [9; 9] [0] 0 1))).

(** Example E with no pair counted as converged, and the arguments of
    its restart. *)
Definition state_E0 : rstate := set_i Iv.numConverged 0 state_E.

Definition args_E : restart_args :=
  {| a_nLocal := 2; a_basisSize := 2; a_ldV := 3; a_ldevecsHat := 3;
     a_ldM := 1; a_ldUDU := 1; a_ldpreviousHVecs := 2; a_numGuesses := 0;
     a_ldH := 2; a_ldQ := 3; a_ldR := 2; a_ldQV := 2; a_ldhU := 2;
     a_newldhU := 0; a_ldhVecs := 2; a_newldhVecs := 0;
     a_numArbitraryVecs := 0; a_machEps := 0x1p-53%float;
     a_rworkSize := 16; a_evecsHat_given := false; a_QV_given := false |}.

(** Example G as a state: the arrays of Example G with
    hVecsPerm = (1, 0). *)
Definition state_G : rstate :=
  mk_rstate [] [] H_G hVecs_G hVals_G [] [] []
    [UNCONVERGED; UNCONVERGED; UNCONVERGED]
    [0; 0; 0] [1; 0] [0] 0 1.

(** An eigensolver that reports seven matvecs and returns 0. *)
Definition svds_kernels_matvecs : Svds.SvdsKernels :=
  {| Svds.svecs_t := unit;
     Svds.Num_dlamch_E := 0x1p-53%float;
     Svds.primme_svds_set_defaults := λ ps, ps;
     Svds.allocate_workspace_svds := λ ps _, (0, ps);
     Svds.zprimme := λ svals svecs resNorms p,
       (0, (svals, svecs, resNorms,
            {| Svds.p_aNorm := Svds.p_aNorm p;
               Svds.p_initSize := Svds.p_initSize p;
               Svds.p_numOrthoConst := Svds.p_numOrthoConst p;
               Svds.p_targetShifts := Svds.p_targetShifts p;
               Svds.p_numTargetShifts := Svds.p_numTargetShifts p;
               Svds.p_maxMatvecs := Svds.p_maxMatvecs p;
               Svds.p_numMatvecs := 7 |}));
     Svds.svecs_from_svds := λ _ _ svecs, svecs;
     Svds.svecs_to_svds := λ _ _ _ svecs, svecs;
     Svds.qsort := insertion_qsort |}.

(** Example S without an initial vector. *)
Definition svds_S0 : Svds.primme_svds_params :=
  Svds.set_svds 2%float 0 100 [] svds_S.

End MoreExamples.


(** * Properties *)

(** ** Arrays and loops *)

Section array_facts.
Context {A : Type} `{Inhabited A}.
Implicit Types (a : list A) (i j : Z) (x : A).

Lemma length_aset a i x : length (aset a i x) = length a.
Proof. unfold aset. case_bool_decide; [apply length_insert | done]. Qed.

Lemma aget_aset_eq a i x :
  0 ≤ i < Z.of_nat (length a) → aget (aset a i x) i = x.
Proof.
  intros Hi. unfold aget, aset. rewrite !bool_decide_eq_true_2 by lia.
  apply list_lookup_total_insert_eq. lia.
Qed.

Lemma aget_aset_ne a i j x : i ≠ j → aget (aset a i x) j = aget a j.
Proof.
  intros Hne. unfold aget, aset.
  destruct (bool_decide (0 ≤ j)) eqn:Hj; [|done].
  apply bool_decide_eq_true_1 in Hj.
  case_bool_decide; [|done].
  apply list_lookup_total_insert_ne. lia.
Qed.

Lemma aget_aset a i j x :
  0 ≤ i < Z.of_nat (length a) →
  aget (aset a i x) j = if bool_decide (i = j) then x else aget a j.
Proof.
  intros. case_bool_decide; subst.
  - by apply aget_aset_eq.
  - by apply aget_aset_ne.
Qed.
End array_facts.

Section loop_facts.
Context {S : Type}.
Implicit Types (body : Z → S → S) (s : S).

(** The invariant rule of a counted loop. *)
Lemma for_from_ind (P : Z → S → Prop) body k i s :
  P i s →
  (∀ j t, i ≤ j < i + Z.of_nat k → P j t → P (j + 1) (body j t)) →
  P (i + Z.of_nat k) (for_from k i (λ _ _, true) body s).
Proof.
  revert i s. induction k as [|k IH]; intros i s Hs Hstep; simpl.
  - by replace (i + Z.of_nat 0) with i by lia.
  - replace (i + Z.of_nat (Datatypes.S k)) with ((i + 1) + Z.of_nat k) by lia.
    apply IH.
    + apply Hstep; [lia | done].
    + intros j t Hj. apply Hstep. lia.
Qed.

Lemma for_loop_ind (P : Z → S → Prop) body lo hi s :
  lo ≤ hi →
  P lo s →
  (∀ j t, lo ≤ j < hi → P j t → P (j + 1) (body j t)) →
  P hi (for_loop lo hi body s).
Proof.
  intros Hle Hs Hstep. unfold for_loop.
  replace hi with (lo + Z.of_nat (Z.to_nat (hi - lo))) at 1 by lia.
  apply for_from_ind; [done|]. intros j t Hj. apply Hstep. lia.
Qed.

Lemma for_loop_empty body lo hi s : hi ≤ lo → for_loop lo hi body s = s.
Proof.
  intros Hle. unfold for_loop. by replace (Z.to_nat (hi - lo)) with O by lia.
Qed.

(** A property that every iteration preserves holds after the loop. *)
Lemma for_loop_preserved (P : S → Prop) body lo hi s :
  P s →
  (∀ j t, lo ≤ j < hi → P t → P (body j t)) →
  P (for_loop lo hi body s).
Proof.
  intros Hs Hstep. destruct (decide (lo ≤ hi)).
  - by apply (for_loop_ind (λ _, P)).
  - rewrite for_loop_empty by lia. done.
Qed.
End loop_facts.

Section paired_loops.
Context {S T : Type}.
Implicit Types (f : Z → S → S) (g : Z → T → T).

(** Two loops over the same range, step by step. *)
Lemma for_from_paired (P : Z → S → T → Prop) f g k i s t :
  P i s t →
  (∀ j a b, i ≤ j < i + Z.of_nat k → P j a b → P (j + 1) (f j a) (g j b)) →
  P (i + Z.of_nat k) (for_from k i (λ _ _, true) f s)
    (for_from k i (λ _ _, true) g t).
Proof.
  revert i s t. induction k as [|k IH]; intros i s t Hs Hstep; simpl.
  - by replace (i + Z.of_nat 0) with i by lia.
  - replace (i + Z.of_nat (Datatypes.S k)) with (i + 1 + Z.of_nat k) by lia.
    apply IH; [apply Hstep; [lia|done]|].
    intros j a b Hj. apply Hstep. lia.
Qed.

Lemma for_loop_paired (P : Z → S → T → Prop) f g lo hi s t :
  lo ≤ hi →
  P lo s t →
  (∀ j a b, lo ≤ j < hi → P j a b → P (j + 1) (f j a) (g j b)) →
  P hi (for_loop lo hi f s) (for_loop lo hi g t).
Proof.
  intros Hle Hs Hstep. unfold for_loop.
  replace hi with (lo + Z.of_nat (Z.to_nat (hi - lo))) at 1 by lia.
  apply for_from_paired; [done|]. intros j a b Hj. apply Hstep. lia.
Qed.
End paired_loops.

(** ** The flag reset and the dynamic thick restart *)

Module DtrSpec.
Import Dtr.

Lemma length_reset_flags flags first last :
  length (reset_flags_dprimme flags first last) = length flags.
Proof.
  unfold reset_flags_dprimme.
  apply (for_loop_preserved (λ fl, length fl = length flags)); [done|].
  intros j fl _ Hfl. by rewrite length_aset.
Qed.

(** What [reset_flags_dprimme] leaves at an index in range. *)
Lemma reset_flags_lookup flags first last i :
  0 ≤ i < Z.of_nat (length flags) →
  aget (reset_flags_dprimme flags first last) i =
    if bool_decide (i ≤ last) then UNCONVERGED else aget flags i.
Proof.
  intros Hi. unfold reset_flags_dprimme.
  destruct (decide (0 ≤ last + 1)) as [Hlast|Hlast].
  - pose (P := λ (k : Z) (fl : list flag),
            length fl = length flags ∧
            aget fl i = if bool_decide (i < k) then UNCONVERGED else aget flags i).
    assert (P (last + 1)
              (for_loop 0 (last + 1) (λ i fl, aset fl i UNCONVERGED) flags))
      as [_ HP].
    { apply for_loop_ind; [done | | ].
      - split; [done|]. rewrite bool_decide_eq_false_2 by lia. done.
      - intros j fl Hj [Hlen Hget]. split; [by rewrite length_aset|].
        destruct (decide (j = i)) as [->|Hne].
        + rewrite aget_aset_eq by lia.
          by rewrite bool_decide_eq_true_2 by lia.
        + rewrite aget_aset_ne by done. rewrite Hget.
          repeat case_bool_decide; (done || lia). }
    rewrite HP. repeat case_bool_decide; (done || lia).
  - rewrite for_loop_empty by lia. rewrite bool_decide_eq_false_2 by lia. done.
Qed.

Lemma length_copy_flags (flags : list flag) lo n src :
  length (for_loop 0 n (λ i fl, aset fl (lo + i) (aget fl (src + i))) flags)
  = length flags.
Proof.
  apply (for_loop_preserved (λ fl, length fl = length flags)); [done|].
  intros j fl _ Hfl. by rewrite length_aset.
Qed.

(** The flags that [dtr_dprimme] returns are the reset of the flags
    after the copy of the right-hand ones. *)
Lemma dtr_flags primme numLocked hVecs hVals flags basisSize numFree iev rwork :
  ∃ flags1 restartSize,
    length flags1 = length flags ∧
    (dtr_dprimme numLocked hVecs hVals flags basisSize numFree iev rwork primme).2.2
    = reset_flags_dprimme flags1 restartSize (maxBasisSize primme).
Proof.
  unfold dtr_dprimme. simpl.
  eexists _, _. split; [|reflexivity]. apply length_copy_flags.
Qed.

(** The loop with the bounds of the array gives what
    [reset_flags_dprimme] gives when [last] is an index of the array,
    and writes outside it otherwise. *)
Lemma reset_flags_checked flags first last :
  reset_flags_dprimme_checked flags first last
  = if bool_decide (last < Z.of_nat (length flags))
    then Some (reset_flags_dprimme flags first last) else None.
Proof.
  unfold reset_flags_dprimme_checked, reset_flags_dprimme.
  destruct (decide (0 ≤ last + 1)) as [Hlast|Hlast].
  - pose (P := λ (k : Z) (o : option (list flag)) (fl : list flag),
            length fl = length flags
            ∧ o = if bool_decide (k ≤ Z.of_nat (length flags))
                  then Some fl else None).
    match goal with
    | |- for_loop _ _ ?b1 ?s = (if _ then Some (for_loop _ _ ?b2 ?t) else _) =>
        assert (P (last + 1) (for_loop 0 (last + 1) b1 s)
                  (for_loop 0 (last + 1) b2 t)) as [_ ->]
    end.
    { apply for_loop_paired; [done| |].
      - split; [done|]. by rewrite bool_decide_eq_true_2 by lia.
      - intros j o fl Hj [Hlen ->]. split; [by rewrite length_aset|].
        destruct (decide (j ≤ Z.of_nat (length flags))).
        + rewrite (bool_decide_eq_true_2 (j ≤ _)) by done. rewrite Hlen.
          repeat case_bool_decide; (done || lia).
        + rewrite (bool_decide_eq_false_2 (j ≤ _)) by done.
          by rewrite bool_decide_eq_false_2 by lia. }
    repeat case_bool_decide; (done || lia).
  - rewrite !for_loop_empty by lia. by rewrite bool_decide_eq_true_2 by lia.
Qed.

Lemma aget_lookup (fl : list flag) i :
  0 ≤ i < Z.of_nat (length fl) → fl !! Z.to_nat i = Some (aget fl i).
Proof.
  intros Hi. unfold aget. rewrite bool_decide_eq_true_2 by lia.
  apply list_lookup_lookup_total_lt. lia.
Qed.

(** What [reset_flags_dprimme] leaves: as many flags as there were,
    UNCONVERGED from 0 to [last], the others as they were. *)
Lemma reset_flags_entries flags first last :
  let reset := reset_flags_dprimme flags first last in
  length reset = length flags
  ∧ (∀ i, 0 ≤ i ≤ last → i < Z.of_nat (length flags) →
       reset !! Z.to_nat i = Some UNCONVERGED)
  ∧ (∀ i, last < i → 0 ≤ i → reset !! Z.to_nat i = flags !! Z.to_nat i).
Proof.
  cbv zeta. split; [apply length_reset_flags|]. split.
  - intros i Hi Hlen.
    rewrite aget_lookup by (rewrite length_reset_flags; lia).
    rewrite reset_flags_lookup by lia.
    by rewrite bool_decide_eq_true_2 by lia.
  - intros i Hi Hpos.
    destruct (decide (i < Z.of_nat (length flags))) as [Hlen|Hlen].
    + rewrite !aget_lookup by (rewrite ?length_reset_flags; lia).
      rewrite reset_flags_lookup by lia.
      by rewrite bool_decide_eq_false_2 by lia.
    + rewrite !lookup_ge_None_2; [done|lia|rewrite length_reset_flags; lia].
Qed.

(** The flags of [dtr_dprimme], with and without the bounds, are the
    reset of the same array. *)
Lemma dtr_flags_reset primme numLocked hVecs hVals flags basisSize numFree
    iev rwork :
  ∃ flags1 restartSize,
    length flags1 = length flags
    ∧ (dtr_dprimme numLocked hVecs hVals flags basisSize numFree iev rwork
         primme).2.2
      = reset_flags_dprimme flags1 restartSize (maxBasisSize primme)
    ∧ dtr_flags_checked numLocked hVals flags basisSize numFree iev primme
      = reset_flags_dprimme_checked flags1 restartSize (maxBasisSize primme).
Proof.
  unfold dtr_dprimme, dtr_flags_checked. simpl.
  eexists _, _. split; [|split; reflexivity]. apply length_copy_flags.
Qed.

(** C8: [reset_flags_dprimme flags first last] leaves as many flags as
    there were, UNCONVERGED at every index of the array from 0 to [last]
    inclusive, whatever [first] is, and the flags after [last] as they
    were; it stays inside the array when [last] is an index of it, and
    writes outside it otherwise.  Hence after [dtr_dprimme] every flag
    of the array from 0 to [maxBasisSize] inclusive is UNCONVERGED, the
    flags copied to [lOpt .. lOpt + rOpt) included, and the call stays
    inside the array only if the array has more than [maxBasisSize]
    flags. *)
Theorem reset_flags_erases_all
    primme numLocked hVecs hVals flags basisSize numFree iev rwork first last :
  let reset := reset_flags_dprimme flags first last in
  let dtr := (dtr_dprimme numLocked hVecs hVals flags basisSize numFree iev
                rwork primme).2.2 in
  length reset = length flags
  ∧ (∀ i, 0 ≤ i ≤ last → i < Z.of_nat (length flags) →
       reset !! Z.to_nat i = Some UNCONVERGED)
  ∧ (∀ i, last < i → 0 ≤ i → reset !! Z.to_nat i = flags !! Z.to_nat i)
  ∧ reset_flags_dprimme_checked flags first last
    = (if bool_decide (last < Z.of_nat (length flags))
       then Some reset else None)
  ∧ length dtr = length flags
  ∧ (∀ i, 0 ≤ i ≤ maxBasisSize primme → i < Z.of_nat (length flags) →
       dtr !! Z.to_nat i = Some UNCONVERGED)
  ∧ dtr_flags_checked numLocked hVals flags basisSize numFree iev primme
    = (if bool_decide (maxBasisSize primme < Z.of_nat (length flags))
       then Some dtr else None).
Proof.
  intros reset dtr.
  destruct (reset_flags_entries flags first last) as (Hlen & Hreset & Hrest).
  split; [done|]. split; [done|]. split; [done|].
  split; [apply reset_flags_checked|].
  destruct (dtr_flags_reset primme numLocked hVecs hVals flags basisSize
              numFree iev rwork) as (flags1 & restartSize & Hlen1 & Hdtr & Hchk).
  fold dtr in Hdtr. rewrite Hchk, Hdtr, reset_flags_checked, Hlen1.
  destruct (reset_flags_entries flags1 restartSize (maxBasisSize primme))
    as (Hlen' & Hreset' & _).
  split; [by rewrite Hlen'|]. split; [|done].
  intros i Hi Hi'. apply Hreset'; [done|by rewrite Hlen1].
Qed.

Lemma dtr_search_region primme hVals basisSize numFree currentRitzVal lMin :
  let o := dtr_search primme hVals basisSize numFree currentRitzVal lMin in
  (o.1.1 = lMin ∧ o.1.2 = 0)
  ∨ in_search_region primme basisSize numFree lMin (o.1.1) (o.1.2).
Proof.
  unfold dtr_search.
  apply (for_loop_preserved
           (λ o : dtr_opt, (o.1.1 = lMin ∧ o.1.2 = 0)
                ∨ in_search_region primme basisSize numFree lMin (o.1.1) (o.1.2))).
  { by left. }
  intros l o Hl Ho. apply for_loop_preserved; [done|].
  intros r o' Hr Ho'. unfold dtr_step.
  case_bool_decide as Hrem; [|done].
  destruct (dgt _ _); [|done].
  right. simpl. unfold in_search_region. lia.
Qed.

Lemma dtr_restartSize primme numLocked hVecs hVals flags basisSize numFree iev rwork :
  let o := dtr_search primme hVals basisSize numFree (aget hVals (aget iev 0))
             (dtr_lMin primme numLocked flags basisSize) in
  (dtr_dprimme numLocked hVecs hVals flags basisSize numFree iev rwork primme).1
  = o.1.1 + o.1.2.
Proof.
  reflexivity.
Qed.

(** C4 (amended): with 0 < lMin ≤ basisSize − numFree the restart size
    lOpt + rOpt returned by [dtr_dprimme] satisfies
    0 < lOpt + rOpt ≤ basisSize − numFree, and (lOpt, rOpt) is either the
    initial pair (lMin, 0) or a pair of the search region
    lMin ≤ l < basisSize − numFree, 0 ≤ r < basisSize − l − numFree with
    basisSize − l − r a multiple of maxBlockSize. *)
Theorem dtr_restart_size_feasible
    primme numLocked hVecs hVals flags basisSize numFree iev rwork :
  let lMin := dtr_lMin primme numLocked flags basisSize in
  let o := dtr_search primme hVals basisSize numFree
             (aget hVals (aget iev 0)) lMin in
  let lOpt := o.1.1 in
  let rOpt := o.1.2 in
  0 < maxBlockSize primme →
  0 < lMin ≤ basisSize - numFree →
  (dtr_dprimme numLocked hVecs hVals flags basisSize numFree iev rwork primme).1
  = lOpt + rOpt
  ∧ 0 < lOpt + rOpt ≤ basisSize - numFree
  ∧ ((lOpt = lMin ∧ rOpt = 0)
     ∨ in_search_region primme basisSize numFree lMin lOpt rOpt).
Proof.
  cbv zeta. intros Hblock HlMin.
  split; [apply dtr_restartSize|].
  pose proof (dtr_search_region primme hVals basisSize numFree
                (aget hVals (aget iev 0))
                (dtr_lMin primme numLocked flags basisSize)) as Hreg.
  cbv zeta in Hreg. split; [|done].
  destruct Hreg as [[Hl Hr]|Hreg].
  - rewrite Hl, Hr. lia.
  - unfold in_search_region in Hreg. lia.
Qed.

End DtrSpec.

(** ** Comparisons and square roots of doubles *)

Section float_facts.
Implicit Types (x y : double).

Lemma not_nan_spec x : not_nan x ↔ Prim2SF x ≠ S754_nan.
Proof.
  unfold not_nan, PrimFloat.is_nan. rewrite FloatAxioms.eqb_spec. unfold SFeqb.
  destruct (Prim2SF x) as [[]|[]| |[] m e]; simpl;
    rewrite ?Z.compare_refl, ?Pos.compare_cont_refl; simpl; split; done.
Qed.

Lemma SFcompare_antisym (a b : spec_float) :
  SFcompare b a = option_map CompOpp (SFcompare a b).
Proof.
  destruct a as [[]|[]| |[] ma ea], b as [[]|[]| |[] mb eb]; simpl; try done.
  all: rewrite (Z.compare_antisym ea eb);
    destruct (ea ?= eb) eqn:E; simpl; try done.
  all: rewrite (Pos.compare_cont_antisym ma mb Eq); simpl;
    by destruct (Pos.compare_cont Eq ma mb).
Qed.

Lemma SFcompare_not_nan (a b : spec_float) :
  a ≠ S754_nan → b ≠ S754_nan → is_Some (SFcompare a b).
Proof.
  intros Ha Hb.
  destruct a as [[]|[]| |[] ma ea], b as [[]|[]| |[] mb eb]; simpl; by eauto.
Qed.

Lemma dle_not_nan x y : dle x y = true → not_nan x ∧ not_nan y.
Proof.
  unfold dle. rewrite FloatAxioms.leb_spec, !not_nan_spec. unfold SFleb.
  destruct (Prim2SF x) as [[]|[]| |[] ma ea],
           (Prim2SF y) as [[]|[]| |[] mb eb]; simpl; try done.
Qed.

Lemma dle_refl x : not_nan x → dle x x = true.
Proof.
  rewrite not_nan_spec. unfold dle. rewrite FloatAxioms.leb_spec. unfold SFleb.
  destruct (Prim2SF x) as [[]|[]| |[] m e]; simpl;
    rewrite ?Z.compare_refl, ?Pos.compare_cont_refl; done.
Qed.


Lemma dle_total x y : not_nan x → not_nan y → dle x y = false → dle y x = true.
Proof.
  rewrite !not_nan_spec. unfold dle. rewrite !FloatAxioms.leb_spec. unfold SFleb.
  intros Hx Hy. rewrite (SFcompare_antisym (Prim2SF x) (Prim2SF y)).
  destruct (SFcompare_not_nan _ _ Hx Hy) as [c ->]. by destruct c.
Qed.

End float_facts.

Section sqrt_facts.











End sqrt_facts.

(** ** Loops that rewrite an array entry by entry *)

Section pointwise_loops.
Context {A : Type} `{Inhabited A}.

Lemma for_loop_pointwise (body : Z → list A → list A) (f : Z → A → A)
    lo hi (a : list A) :
  (∀ j t, length (body j t) = length t) →
  (∀ j t k, k ≠ j → aget (body j t) k = aget t k) →
  (∀ j t, 0 ≤ j < Z.of_nat (length t) → aget (body j t) j = f j (aget t j)) →
  length (for_loop lo hi body a) = length a
  ∧ ∀ i, 0 ≤ i < Z.of_nat (length a) →
      aget (for_loop lo hi body a) i
      = if bool_decide (lo ≤ i < hi) then f i (aget a i) else aget a i.
Proof.
  intros Hlen Hne Heq. destruct (decide (lo ≤ hi)) as [Hle|Hgt].
  - pose (P := λ (k : Z) (t : list A),
            length t = length a
            ∧ ∀ i, 0 ≤ i < Z.of_nat (length a) →
                aget t i = if bool_decide (lo ≤ i < k)
                           then f i (aget a i) else aget a i).
    cut (P hi (for_loop lo hi body a)); [done|].
    apply for_loop_ind; [done | | ]; unfold P.
    + split; [done|]. intros i Hi. by rewrite bool_decide_eq_false_2 by lia.
    + intros j t Hj [Hl Hget]. split; [by rewrite Hlen|].
      intros i Hi. destruct (decide (i = j)) as [->|Hij].
      * rewrite Heq by lia. rewrite Hget by done.
        rewrite bool_decide_eq_false_2 by lia.
        by rewrite bool_decide_eq_true_2 by lia.
      * rewrite Hne by done. rewrite Hget by done.
        repeat case_bool_decide; (done || lia).
  - rewrite for_loop_empty by lia. split; [done|].
    intros i Hi. by rewrite bool_decide_eq_false_2 by lia.
Qed.

End pointwise_loops.

(** ** The SVD front end *)

Module SvdsSpec.
Import Svds Examples.



(** *** The shifts of the second stage *)

Lemma comp_double_lt x y : comp_double x y < 0 ↔ dle x y = true.
Proof. unfold comp_double. destruct (dle x y); split; (done || lia). Qed.


(** The insertion sort of the examples, run with [comp_double]. *)
Lemma qsort_insert_Forall (P : double → Prop) x l :
  P x → Forall P l → Forall P (qsort_insert comp_double x l).
Proof.
  intros Hx Hl. induction Hl as [|y l Hy Hl IH]; simpl.
  - by constructor.
  - case_bool_decide; by repeat constructor.
Qed.

Lemma qsort_insert_length x l :
  length (qsort_insert comp_double x l) = Datatypes.S (length l).
Proof.
  induction l as [|y l IH]; simpl; [done|].
  case_bool_decide; simpl; by rewrite ?IH.
Qed.


Lemma qsort_insert_HdRel x y l :
  dle_rel y x → HdRel dle_rel y l → HdRel dle_rel y (qsort_insert comp_double x l).
Proof.
  intros Hyx Hyl. destruct l as [|z l]; simpl.
  - by constructor.
  - case_bool_decide; constructor; [done|]. by inversion Hyl.
Qed.

Lemma qsort_insert_Sorted x l :
  not_nan x → Forall not_nan l →
  Sorted dle_rel l → Sorted dle_rel (qsort_insert comp_double x l).
Proof.
  intros Hx Hnan Hs. induction Hs as [|y l Hs IH Hhd]; simpl.
  - by repeat constructor.
  - inversion Hnan as [|? ? Hy Hl]; subst.
    case_bool_decide as Hc.
    + constructor; [by constructor|]. constructor. by apply comp_double_lt.
    + constructor; [by apply IH|]. apply qsort_insert_HdRel; [|done].
      apply dle_total; [done..|].
      destruct (dle x y) eqn:E; [|done]. by apply comp_double_lt in E.
Qed.

Lemma insertion_qsort_Sorted (l : list double) :
  Forall not_nan l →
  Sorted dle_rel (insertion_qsort l (Z.of_nat (length l)) comp_double).
Proof.
  intros Hl. unfold insertion_qsort. rewrite Nat2Z.id, take_ge, drop_ge by done.
  rewrite app_nil_r. induction Hl as [|x l Hx Hl IH]; simpl; [constructor|].
  apply qsort_insert_Sorted; [done| |done].
  clear IH. induction Hl; simpl; [constructor|].
  by apply qsort_insert_Forall.
Qed.


Section with_kernels.
Context {K : SvdsKernels}.



(** *** The return code of the driver *)


(** The code of a stage is the code that the eigensolver returned. *)
Lemma run_stage_code stage svals svecs resNorms ps r out :
  run_stage stage svals svecs resNorms ps = Some (r, out) →
  ∃ ps1 allocated svals0 rnorms0,
    copy_last_params_from_svds ps stage svals0 rnorms0 = Some (ps1, allocated)
    ∧ (zprimme svals (svecs_from_svds stage ps1 svecs) resNorms
         (stage_of stage ps1)).1 = r.
Proof.
  unfold run_stage. intros Hrun.
  destruct (bool_decide (stage = 0));
    (destruct (copy_last_params_from_svds _ _ _ _) as [[ps1 alloc]|] eqn:Hfrom;
     [|done]);
    destruct (zprimme _ _ _ _) as [ret [[[sv vecs] rn] p]] eqn:Hz;
    destruct (copy_last_params_to_svds _ _ _ _ _) as [ps' [sv' rn']];
    injection Hrun as <- _; eexists _, _, _, _;
    (split; [exact Hfrom|by rewrite Hz]).
Qed.


End with_kernels.

End SvdsSpec.

(** ** The restart *)

Module RestartSpec.
Import Restart.

(** The condition under which the first step of the soft-locking
    restart flags the pair [i] UNCONVERGED again. *)
Lemma recheck_converged_flags_lookup primme basisSize
    (hVals evals resNorms : list double) (flags : list flag) i :
  0 ≤ i < Z.of_nat (length flags) →
  aget (recheck_converged_flags primme basisSize hVals evals resNorms flags) i
  = if bool_decide (basisSize + numOrthoConst primme < n primme
                    ∧ i < numEvals primme)
       && bool_decide (aget flags i ≠ UNCONVERGED)
       && dgt (fabs (aget hVals i - aget evals i)%float) (aget resNorms i)
    then UNCONVERGED else aget flags i.
Proof.
  intros Hi. unfold recheck_converged_flags.
  case_bool_decide as Hguard.
  - set (drift := λ i : Z, dgt (fabs (aget hVals i - aget evals i)%float)
                               (aget resNorms i)).
    destruct (for_loop_pointwise
                (λ i fl, if bool_decide (aget fl i ≠ UNCONVERGED) && drift i
                         then aset fl i UNCONVERGED else fl)
                (λ i x, if bool_decide (x ≠ UNCONVERGED) && drift i
                        then UNCONVERGED else x)
                0 (numEvals primme) flags) as [_ Hget].
    + intros j t. destruct (_ && _); [apply length_aset|done].
    + intros j t k Hk. destruct (_ && _); [by apply aget_aset_ne|done].
    + intros j t Hj. destruct (_ && _); [by apply aget_aset_eq|done].
    + rewrite Hget by done. fold (drift i).
      repeat case_bool_decide; simpl; (done || lia).
  - rewrite bool_decide_eq_false_2 by lia. done.
Qed.

(** The arrays of ints and the ints are not touched by a write to an
    array of doubles. *)
Lemma set_d_frame a v st :
  zmem (set_d a v st) = zmem st ∧ ivar (set_d a v st) = ivar st.
Proof. by split. Qed.

Lemma set_ievSize_frame v st :
  zmem (set_i Iv.ievSize v st) = zmem st
  ∧ ivar (set_i Iv.ievSize v st) Iv.left = ivar st Iv.left.
Proof. by split. Qed.

(** The size that the first part of the soft-locking restart gives to
    the block. *)
Lemma soft_locking_layout_iev basisSize ldhVecs ldpreviousHVecs
    numArbitraryVecs primme st :
  let st' := soft_locking_layout basisSize ldhVecs ldpreviousHVecs
               numArbitraryVecs primme st in
  ivar st' Iv.ievSize
  = soft_locking_ievSize primme (ivar st Iv.numConverged)
      (ivar st Iv.restartSize
       + (Z.min (maxBasisSize primme)
            (ivar st Iv.restartSize + ivar st Iv.numPrevRetained)
          - ivar st Iv.restartSize))
  ∧ zmem st' Ia.iev = zmem st Ia.iev.
Proof. by repeat split. Qed.

(** The loop that fills [iev] with the candidates. *)
Lemma soft_locking_perms_iev basisSize numArbitraryVecs st :
  let st' := soft_locking_perms basisSize numArbitraryVecs st in
  zmem st' Ia.iev
  = for_loop 0 (ivar st Iv.ievSize)
      (λ i iev, aset iev i (aget (zmem st Ia.restartPerm) (ivar st Iv.left + i)))
      (zmem st Ia.iev)
  ∧ zmem st' Ia.restartPerm = zmem st Ia.restartPerm
  ∧ ivar st' Iv.left = ivar st Iv.left.
Proof. by repeat split. Qed.

Section with_kernels.
Context {K : Kernels}.

Lemma pack_converged_evecs_frame nLocal ldevecsHat ldM primme st :
  let st' := pack_converged_evecs nLocal ldevecsHat ldM primme st in
  zmem st' = zmem st ∧ ivar st' Iv.left = ivar st Iv.left.
Proof. by split. Qed.

(** What a call of the soft-locking restart that returns 0 leaves in
    [iev]: the loop over the block has run with the size that the
    routine first gave to the block. *)
Lemma soft_locking_iev
    nLocal ldhR ldhU basisSize ldV ldhVecs ldevecsHat ldM ldpreviousHVecs
    numArbitraryVecs evecsHat_given machEps primme st :
  let numPrev := Z.min (maxBasisSize primme)
                   (ivar st Iv.restartSize + ivar st Iv.numPrevRetained)
                 - ivar st Iv.restartSize in
  match restart_soft_locking_dprimme nLocal ldhR ldhU basisSize ldV ldhVecs
          ldevecsHat ldM ldpreviousHVecs numArbitraryVecs evecsHat_given
          machEps primme st with
  | Some (ret, st') =>
      ret = 0 →
      zmem st' Ia.iev
      = for_loop 0
          (soft_locking_ievSize primme (ivar st Iv.numConverged)
             (ivar st Iv.restartSize + numPrev))
          (λ i iev, aset iev i
                      (aget (zmem st' Ia.restartPerm) (ivar st' Iv.left + i)))
          (zmem st Ia.iev)
  | None => True
  end.
Proof.
  cbv beta delta [restart_soft_locking_dprimme]. cbv zeta.
  destruct (soft_locking_layout_iev basisSize ldhVecs ldpreviousHVecs
              numArbitraryVecs primme st) as [Hsize Hiev].
  cbv zeta in Hsize, Hiev.
  set (st1 := soft_locking_layout _ _ _ _ _ _) in *. clearbody st1.
  destruct (ortho_coefficient_vectors_dprimme _ _ _ _ _ _ _ _ _ _ _ _ _)
    as [r1 [hv hu]].
  case_bool_decide as Hr1; [by intros ?|].
  destruct (Num_update_VWXR_dprimme _ _ _ _ _ _ _ _ _ _ _ _)
    as [r2 [[v w] bn]].
  case_bool_decide as Hr2; [by intros ?|].
  set (st3 := set_d Da.blockNorms _ _).
  assert (ivar st3 Iv.ievSize = ivar st1 Iv.ievSize
          ∧ zmem st3 Ia.iev = zmem st1 Ia.iev) as [Hsize3 Hiev3].
  { subst st3.
    rewrite !(proj1 (set_d_frame _ _ _)), !(proj2 (set_d_frame _ _ _)).
    by split. }
  destruct (soft_locking_perms_iev basisSize numArbitraryVecs st3)
    as (Hperm & Hrp & Hleft).
  cbv zeta in Hperm, Hrp, Hleft.
  rewrite Hsize3, Hsize, Hiev3, Hiev in Hperm.
  clearbody st3.
  set (st4 := soft_locking_perms _ _ _) in *. clearbody st4.
  destruct (soft_locking_asserts _ _); [|done].
  intros _. rewrite <- Hrp, <- Hleft in Hperm.
  destruct (set_ievSize_frame 0 st4) as [Hz Hl].
  destruct evecsHat_given.
  - destruct (pack_converged_evecs_frame nLocal ldevecsHat ldM primme
                (set_i Iv.ievSize 0 st4)) as [Hz' Hl'].
    cbv zeta in Hz', Hl'. rewrite Hz', Hl', Hz, Hl. exact Hperm.
  - rewrite Hz, Hl. exact Hperm.
Qed.

(** What a call of the soft-locking restart leaves in the flags, in
    [restartSize] and in [ievSize]. *)
Lemma soft_locking_out
    nLocal ldhR ldhU basisSize ldV ldhVecs ldevecsHat ldM ldpreviousHVecs
    numArbitraryVecs evecsHat_given machEps primme st :
  let numPrev := Z.min (maxBasisSize primme)
                   (ivar st Iv.restartSize + ivar st Iv.numPrevRetained)
                 - ivar st Iv.restartSize in
  match restart_soft_locking_dprimme nLocal ldhR ldhU basisSize ldV ldhVecs
          ldevecsHat ldM ldpreviousHVecs numArbitraryVecs evecsHat_given
          machEps primme st with
  | Some (ret, st') =>
      flags st' = recheck_converged_flags primme basisSize (dmem st Da.hVals)
                    (dmem st Da.evals) (dmem st Da.resNorms) (flags st)
      ∧ ivar st' Iv.restartSize = ivar st Iv.restartSize + numPrev
      ∧ (ret = 0 → ivar st' Iv.ievSize = 0)
      ∧ (ret ≠ 0 →
         ivar st' Iv.ievSize
         = soft_locking_ievSize primme (ivar st Iv.numConverged)
             (ivar st Iv.restartSize + numPrev))
  | None => True
  end.
Proof.
  cbv beta delta [restart_soft_locking_dprimme]. cbv zeta.
  set (st1 := soft_locking_layout _ _ _ _ _ _).
  destruct (ortho_coefficient_vectors_dprimme _ _ _ _ _ _ _ _ _ _ _ _ _)
    as [r1 [hv hu]].
  case_bool_decide as Hr1; [by repeat split|].
  destruct (Num_update_VWXR_dprimme _ _ _ _ _ _ _ _ _ _ _ _)
    as [r2 [[v w] bn]].
  case_bool_decide as Hr2; [by repeat split|].
  destruct (soft_locking_asserts _ _); [|done].
  destruct evecsHat_given; by repeat split.
Qed.

(** C5 (amended): when basisSize + numOrthoConst < n, the soft-locking
    restart flags UNCONVERGED every pair i < numEvals whose flag is not
    UNCONVERGED and whose Ritz value is further from the stored
    eigenvalue than the residual norm, |hVals[i] - evals[i]| > resNorms[i],
    and leaves every other flag as it was; when
    basisSize + numOrthoConst >= n it leaves all flags as they were. *)
Theorem soft_locking_rechecks_flags
    nLocal ldhR ldhU basisSize ldV ldhVecs ldevecsHat ldM ldpreviousHVecs
    numArbitraryVecs evecsHat_given machEps primme st ret st' i :
  restart_soft_locking_dprimme nLocal ldhR ldhU basisSize ldV ldhVecs
    ldevecsHat ldM ldpreviousHVecs numArbitraryVecs evecsHat_given
    machEps primme st = Some (ret, st') →
  0 ≤ i < Z.of_nat (length (flags st)) →
  aget (flags st') i
  = if bool_decide (basisSize + numOrthoConst primme < n primme
                    ∧ i < numEvals primme)
       && bool_decide (aget (flags st) i ≠ UNCONVERGED)
       && dgt (fabs (aget (dmem st Da.hVals) i
                     - aget (dmem st Da.evals) i)%float)
              (aget (dmem st Da.resNorms) i)
    then UNCONVERGED else aget (flags st) i.
Proof.
  intros Hcall Hi.
  pose proof (soft_locking_out nLocal ldhR ldhU basisSize ldV ldhVecs
                ldevecsHat ldM ldpreviousHVecs numArbitraryVecs
                evecsHat_given machEps primme st) as Hout.
  cbv zeta in Hout. rewrite Hcall in Hout. destruct Hout as (-> & _).
  by apply recheck_converged_flags_lookup.
Qed.

(** C7: on every return of the soft-locking restart with code 0 the
    output ievSize is 0, although the routine has first given it the
    value min(maxBlockSize, numEvals - numConverged + 1, maxBasisSize -
    restartSize), with numConverged as on entry and restartSize as on
    exit: that value has sized the block of candidates, iev holds as
    many of them, restartPerm[left], restartPerm[left + 1], ..., and it
    is what ievSize holds on a return with a non-zero code. *)
Theorem soft_locking_block_empty
    nLocal ldhR ldhU basisSize ldV ldhVecs ldevecsHat ldM ldpreviousHVecs
    numArbitraryVecs evecsHat_given machEps primme st ret st' :
  let size := Z.min (Z.min (maxBlockSize primme)
                           (numEvals primme - ivar st Iv.numConverged + 1))
                    (maxBasisSize primme - ivar st' Iv.restartSize) in
  restart_soft_locking_dprimme nLocal ldhR ldhU basisSize ldV ldhVecs
    ldevecsHat ldM ldpreviousHVecs numArbitraryVecs evecsHat_given
    machEps primme st = Some (ret, st') →
  (ret = 0 →
   ivar st' Iv.ievSize = 0
   ∧ length (zmem st' Ia.iev) = length (zmem st Ia.iev)
   ∧ ∀ i, 0 ≤ i < Z.of_nat (length (zmem st Ia.iev)) →
       aget (zmem st' Ia.iev) i
       = if bool_decide (i < size)
         then aget (zmem st' Ia.restartPerm) (ivar st' Iv.left + i)
         else aget (zmem st Ia.iev) i)
  ∧ (ret ≠ 0 → ivar st' Iv.ievSize = size).
Proof.
  intros size Hcall.
  pose proof (soft_locking_out nLocal ldhR ldhU basisSize ldV ldhVecs
                ldevecsHat ldM ldpreviousHVecs numArbitraryVecs
                evecsHat_given machEps primme st) as Hout.
  pose proof (soft_locking_iev nLocal ldhR ldhU basisSize ldV ldhVecs
                ldevecsHat ldM ldpreviousHVecs numArbitraryVecs
                evecsHat_given machEps primme st) as Hiev.
  cbv zeta in Hout, Hiev. rewrite Hcall in Hout, Hiev.
  destruct Hout as (_ & Hsize & Hzero & Hmin).
  rewrite <- Hsize in Hmin, Hiev. fold (soft_locking_ievSize primme
    (ivar st Iv.numConverged) (ivar st' Iv.restartSize)) in size.
  split; [|exact Hmin].
  intros Hret. split; [by apply Hzero|].
  rewrite (Hiev Hret).
  destruct (for_loop_pointwise
              (λ i iev, aset iev i
                 (aget (zmem st' Ia.restartPerm) (ivar st' Iv.left + i)))
              (λ i _, aget (zmem st' Ia.restartPerm) (ivar st' Iv.left + i))
              0 size (zmem st Ia.iev)) as [Hlen Hget].
  { intros. apply length_aset. }
  { intros j t k Hk. by apply aget_aset_ne. }
  { intros j t Hj. by apply aget_aset_eq. }
  split; [exact Hlen|].
  intros i Hi. rewrite Hget by done.
  repeat case_bool_decide; (done || lia).
Qed.

(** The restart size and the number of retained vectors that
    [choose_restartSize] leaves when the basis is not full. *)
Lemma choose_restartSize_not_full args primme st :
  a_basisSize args ≤ maxBasisSize primme - maxBlockSize primme →
  let st0 := choose_restartSize args primme st in
  ivar st0 Iv.restartSize = a_basisSize args
  ∧ ivar st0 Iv.numPrevRetained
    = (if bool_decide (n primme ≤ a_basisSize args + ivar st Iv.numLocked
                                  + numOrthoConst primme)
       then 0 else ivar st Iv.numPrevRetained)
  ∧ ivar st0 Iv.numLocked = ivar st Iv.numLocked.
Proof.
  intros Hsmall. cbv zeta. cbv beta delta [choose_restartSize]. cbv zeta.
  case_bool_decide; [done|].
  rewrite bool_decide_eq_true_2 by done. done.
Qed.

(** C1 (what the code does instead): as soon as the restart of the
    bases has returned 0, [restart_dprimme] returns 0 whatever code r
    the projection restart returns, RESTART_H_FAILURE and
    UDUDECOMPOSE_FAILURE included: the value of the call of
    [restart_projection_dprimme] is not used. *)
Theorem restart_ignores_projection_code args primme st st1 r st2 :
  restart_bases args primme st = Some (0, st1) →
  restart_projected args primme st1 = Some (r, st2) →
  restart_dprimme args primme st
  = Some (0, set_i Iv.restartSizeOutput (ivar st1 Iv.restartSize) st2).
Proof.
  intros Hbases Hproj. unfold restart_dprimme.
  rewrite Hbases. simpl. by rewrite Hproj.
Qed.

(** The restart size that a restart without locking reports for a basis
    that is not full, from the number p of the previous vectors that it
    retains. *)
Lemma restart_not_full_reported args primme st st' :
  locking primme = false →
  a_basisSize args ≤ maxBasisSize primme - maxBlockSize primme →
  restart_dprimme args primme st = Some (0, st') →
  let p := if bool_decide (n primme ≤ a_basisSize args + ivar st Iv.numLocked
                                     + numOrthoConst primme)
           then 0 else ivar st Iv.numPrevRetained in
  ivar st' Iv.restartSizeOutput
  = a_basisSize args
    + (Z.min (maxBasisSize primme) (a_basisSize args + p) - a_basisSize args).
Proof.
  intros Hlock Hsmall Hcall p.
  unfold restart_dprimme in Hcall.
  destruct (restart_bases args primme st) as [[r1 st1]|] eqn:Hbases; [|done].
  case_bool_decide as Hr1; [by injection Hcall as -> _|].
  destruct (restart_projected args primme st1) as [[r2 st2]|]; [|done].
  injection Hcall as <-.
  match goal with |- _ = ?rhs => change (ivar st1 Iv.restartSize = rhs) end.
  unfold restart_bases in Hbases. rewrite Hlock in Hbases. simpl in Hbases.
  set (st0 := choose_restartSize args primme _) in Hbases.
  pose proof (soft_locking_out (a_nLocal args) (a_ldR args) (a_ldhU args)
                (a_basisSize args) (a_ldV args) (a_ldhVecs args)
                (a_ldevecsHat args) (a_ldM args) (a_ldpreviousHVecs args)
                (a_numArbitraryVecs args) (a_evecsHat_given args)
                (a_machEps args) primme st0) as Hout.
  cbv zeta in Hout. rewrite Hbases in Hout. destruct Hout as (_ & -> & _).
  destruct (choose_restartSize_not_full args primme
              (set_i Iv.numArbitraryVecs (a_numArbitraryVecs args) st) Hsmall)
    as (Hrs & Hnp & _).
  fold st0 in Hrs, Hnp. rewrite Hrs, Hnp. done.
Qed.

(** C2 (amended): a restart without locking of a basis with
    basisSize <= maxBasisSize - maxBlockSize that retains no previous
    vectors (numPrevRetained is 0 on entry, or the basis and the locked
    vectors span the space) and returns 0 reports
    restartSize = basisSize. *)
Theorem restart_not_full_size args primme st st' :
  locking primme = false →
  a_basisSize args ≤ maxBasisSize primme - maxBlockSize primme →
  0 ≤ maxBlockSize primme →
  ivar st Iv.numPrevRetained = 0
  ∨ n primme ≤ a_basisSize args + ivar st Iv.numLocked + numOrthoConst primme →
  restart_dprimme args primme st = Some (0, st') →
  ivar st' Iv.restartSizeOutput = a_basisSize args.
Proof.
  intros Hlock Hsmall Hblock Hprev Hcall.
  pose proof (restart_not_full_reported args primme st st' Hlock Hsmall Hcall)
    as Hsize.
  cbv zeta in Hsize. rewrite Hsize.
  case_bool_decide; lia.
Qed.

End with_kernels.
End RestartSpec.
(** ** Loops over the columns of a matrix *)

Section column_loops.
Context {A : Type} `{Inhabited A}.

Lemma column_before (ld j c : Z) : 0 ≤ ld → j < c → ld * j + ld ≤ ld * c.
Proof. intros Hld Hj. nia. Qed.

(** A loop that writes [g i] at [off + i] for [i] in [0, m). *)
Lemma for_loop_fill (g : Z → A) (off m : Z) (a : list A) :
  let a' := for_loop 0 m (λ i t, aset t (off + i) (g i)) a in
  length a' = length a
  ∧ ∀ k, 0 ≤ k < Z.of_nat (length a) →
      aget a' k = if bool_decide (off ≤ k < off + m) then g (k - off)
                  else aget a k.
Proof.
  cbv zeta. destruct (decide (0 ≤ m)) as [Hm|Hm].
  - pose (P := λ (c : Z) (t : list A),
            length t = length a
            ∧ ∀ k, 0 ≤ k < Z.of_nat (length a) →
                aget t k = if bool_decide (off ≤ k < off + c)
                           then g (k - off) else aget a k).
    cut (P m (for_loop 0 m (λ i t, aset t (off + i) (g i)) a)); [done|].
    apply for_loop_ind; [done| |]; unfold P.
    + split; [done|]. intros k Hk. by rewrite bool_decide_eq_false_2 by lia.
    + intros j t Hj [Hlen Hget]. split; [by rewrite length_aset|].
      intros k Hk. destruct (decide (k = off + j)) as [->|Hne].
      * rewrite aget_aset_eq by lia. rewrite bool_decide_eq_true_2 by lia.
        f_equal. lia.
      * rewrite aget_aset_ne by lia. rewrite Hget by done.
        repeat case_bool_decide; (done || lia).
  - rewrite for_loop_empty by lia. split; [done|].
    intros k Hk. by rewrite bool_decide_eq_false_2 by lia.
Qed.

(** A loop over the columns [lo .. hi) of a matrix with leading
    dimension [ld], whose step [j] rewrites the first [rows j] entries
    of column [j] and nothing else. *)
Lemma for_loop_columns (colop : Z → list A → list A) (val : Z → Z → A)
    (rows : Z → Z) (ld lo hi : Z) (a : list A) :
  (∀ j t, length (colop j t) = length t) →
  (∀ j t k, lo ≤ j < hi → 0 ≤ k < Z.of_nat (length t) →
     aget (colop j t) k
     = if bool_decide (ld * j ≤ k < ld * j + rows j) then val j (k - ld * j)
       else aget t k) →
  (∀ j, lo ≤ j < hi → rows j ≤ ld) →
  let a' := for_loop lo hi colop a in
  length a' = length a
  ∧ ∀ i j, 0 ≤ i < ld → 0 ≤ ld * j + i < Z.of_nat (length a) →
      aget a' (ld * j + i)
      = if bool_decide (lo ≤ j < hi ∧ i < rows j) then val j i
        else aget a (ld * j + i).
Proof.
  intros Hlen Hcol Hrows. cbv zeta.
  destruct (decide (lo ≤ hi)) as [Hle|Hgt].
  - pose (P := λ (c : Z) (t : list A),
            length t = length a
            ∧ ∀ i j, 0 ≤ i < ld → 0 ≤ ld * j + i < Z.of_nat (length a) →
                aget t (ld * j + i)
                = if bool_decide (lo ≤ j < c ∧ i < rows j) then val j i
                  else aget a (ld * j + i)).
    cut (P hi (for_loop lo hi colop a)); [done|].
    apply for_loop_ind; [done| |]; unfold P.
    + split; [done|]. intros i j Hi Hk.
      by rewrite bool_decide_eq_false_2 by lia.
    + intros c t Hc [Hl Hget]. split; [by rewrite Hlen|].
      intros i j Hi Hk. rewrite Hcol by (rewrite ?Hl; done).
      specialize (Hrows c Hc).
      destruct (decide (j = c)) as [->|Hne].
      * case_bool_decide as Hin.
        -- rewrite bool_decide_eq_true_2 by lia. f_equal. lia.
        -- rewrite Hget by done. rewrite !bool_decide_eq_false_2 by lia. done.
      * rewrite bool_decide_eq_false_2.
        -- rewrite Hget by done. repeat case_bool_decide; (done || lia).
        -- destruct (decide (j < c)).
           ++ pose proof (column_before ld j c). lia.
           ++ pose proof (column_before ld c j). lia.
  - rewrite for_loop_empty by lia. split; [done|].
    intros i j Hi Hk. by rewrite bool_decide_eq_false_2 by lia.
Qed.
End column_loops.

(** ** The projection restart for Rayleigh-Ritz extraction *)

Module RestartRRSpec.
Import Restart.

(** The step of the first and of the third loop of [restart_RR_H]. *)
Lemma diagonal_column_lookup (ldH j : Z) (hVals t : list double) k :
  0 ≤ j → 0 ≤ k < Z.of_nat (length t) →
  let t' := aset (for_loop 0 (j + 1) (λ i H, aset H (ldH * j + i) 0%float) t)
              (ldH * j + j) (aget hVals j) in
  length t' = length t
  ∧ aget t' k
    = if bool_decide (ldH * j ≤ k < ldH * j + (j + 1))
      then (if bool_decide (k - ldH * j = j) then aget hVals j else 0%float)
      else aget t k.
Proof.
  intros Hj Hk. cbv zeta.
  destruct (for_loop_fill (λ _, 0%float) (ldH * j) (j + 1) t) as [Hlen Hget].
  split; [by rewrite length_aset|].
  destruct (decide (k = ldH * j + j)) as [->|Hne].
  - rewrite aget_aset_eq by (rewrite Hlen; lia).
    rewrite bool_decide_eq_true_2 by lia.
    by rewrite bool_decide_eq_true_2 by lia.
  - rewrite aget_aset_ne by lia. rewrite Hget by done.
    case_bool_decide; [|done]. by rewrite bool_decide_eq_false_2 by lia.
Qed.

(** The entries of the restarted [H], by row [i] and column [j]. *)
Lemma restart_RR_H_lookup (H : list double) ldH (hVals : list double)
    restartSize numPrevRetained indexOfPreviousVecs :
  0 ≤ indexOfPreviousVecs → 0 ≤ numPrevRetained →
  indexOfPreviousVecs + numPrevRetained ≤ restartSize → restartSize ≤ ldH →
  let H' := restart_RR_H H ldH hVals restartSize numPrevRetained
              indexOfPreviousVecs in
  length H' = length H
  ∧ ∀ i j, 0 ≤ i < ldH → 0 ≤ ldH * j + i < Z.of_nat (length H) →
      aget H' (ldH * j + i)
      = if bool_decide
             ((0 ≤ j < indexOfPreviousVecs
               ∨ indexOfPreviousVecs + numPrevRetained ≤ j < restartSize)
              ∧ i ≤ j)
        then (if bool_decide (i = j) then aget hVals j else 0%float)
        else if bool_decide
                  (indexOfPreviousVecs ≤ j
                   < indexOfPreviousVecs + numPrevRetained
                   ∧ i < indexOfPreviousVecs)
             then 0%float
             else aget H (ldH * j + i).
Proof.
  intros Hidx Hprev Hfit Hld. cbv zeta.
  set (diag := λ (j : Z) (t : list double),
         aset (for_loop 0 (j + 1) (λ i H, aset H (ldH * j + i) 0%float) t)
           (ldH * j + j) (aget hVals j)).
  set (above := λ (j : Z) (t : list double),
         for_loop 0 indexOfPreviousVecs
           (λ i H, aset H (ldH * j + i) 0%float) t).
  set (dval := λ j i : Z, if bool_decide (i = j) then aget hVals j else 0%float).
  change (restart_RR_H H ldH hVals restartSize numPrevRetained
            indexOfPreviousVecs)
    with (for_loop (indexOfPreviousVecs + numPrevRetained) restartSize diag
            (for_loop indexOfPreviousVecs
               (indexOfPreviousVecs + numPrevRetained) above
               (for_loop 0 indexOfPreviousVecs diag H))).
  assert (∀ lo hi (a : list double), 0 ≤ lo → hi ≤ ldH →
            let a' := for_loop lo hi diag a in
            length a' = length a
            ∧ ∀ i j, 0 ≤ i < ldH → 0 ≤ ldH * j + i < Z.of_nat (length a) →
                aget a' (ldH * j + i)
                = if bool_decide (lo ≤ j < hi ∧ i < j + 1) then dval j i
                  else aget a (ldH * j + i)) as Hdiag.
  { intros lo hi a Hlo Hhi.
    apply (for_loop_columns diag dval (λ j, j + 1) ldH lo hi a).
    - intros j t. unfold diag. rewrite length_aset.
      by destruct (for_loop_fill (λ _, 0%float) (ldH * j) (j + 1) t).
    - intros j t k Hj Hk. unfold diag, dval.
      destruct (diagonal_column_lookup ldH j hVals t k) as [_ ->]; [lia|done|].
      done.
    - intros j Hj. lia. }
  destruct (Hdiag 0 indexOfPreviousVecs H) as [Hl1 Hg1]; [lia..|].
  set (H1 := for_loop 0 indexOfPreviousVecs diag H) in *. clearbody H1.
  destruct (for_loop_columns above (λ _ _, 0%float) (λ _, indexOfPreviousVecs)
              ldH indexOfPreviousVecs
              (indexOfPreviousVecs + numPrevRetained) H1) as [Hl2 Hg2].
  { intros j t. unfold above.
    by destruct (for_loop_fill (λ _, 0%float) (ldH * j) indexOfPreviousVecs t). }
  { intros j t k Hj Hk. unfold above.
    destruct (for_loop_fill (λ _, 0%float) (ldH * j) indexOfPreviousVecs t)
      as [_ ->]; done. }
  { intros j Hj. lia. }
  set (H2 := for_loop indexOfPreviousVecs _ above H1) in *. clearbody H2.
  destruct (Hdiag (indexOfPreviousVecs + numPrevRetained) restartSize H2)
    as [Hl3 Hg3]; [lia..|].
  split; [by rewrite Hl3, Hl2, Hl1|].
  intros i j Hi Hk.
  rewrite Hg3 by (rewrite ?Hl2, ?Hl1; done).
  rewrite Hg2 by (rewrite ?Hl1; done).
  rewrite Hg1 by done. unfold dval.
  repeat case_bool_decide; (done || lia).
Qed.

(** The entries of [hVecs] after the loop that sets the standard basis
    vectors, by row [i] and column [j]. *)
Lemma restart_RR_hVecs_lookup (hVecs : list double) newldhVecs restartSize
    (hVecsPerm : list Z) :
  restartSize ≤ newldhVecs →
  (∀ j, 0 ≤ j < restartSize → 0 ≤ aget hVecsPerm j < restartSize) →
  let P := restart_RR_hVecs hVecs newldhVecs restartSize hVecsPerm in
  length P = length hVecs
  ∧ ∀ i j, 0 ≤ i < newldhVecs →
      0 ≤ newldhVecs * j + i < Z.of_nat (length hVecs) →
      aget P (newldhVecs * j + i)
      = if bool_decide (0 ≤ j < restartSize ∧ i < restartSize)
        then (if bool_decide (i = aget hVecsPerm j) then 1%float else 0%float)
        else aget hVecs (newldhVecs * j + i).
Proof.
  intros Hld Hperm. cbv zeta.
  set (unit_col := λ (j : Z) (t : list double),
         aset (for_loop 0 restartSize
                 (λ i hVecs, aset hVecs (newldhVecs * j + i) 0%float) t)
           (newldhVecs * j + aget hVecsPerm j) 1%float).
  change (restart_RR_hVecs hVecs newldhVecs restartSize hVecsPerm)
    with (for_loop 0 restartSize unit_col hVecs).
  apply (for_loop_columns unit_col
           (λ j i, if bool_decide (i = aget hVecsPerm j)
                   then 1%float else 0%float)
           (λ _, restartSize) newldhVecs 0 restartSize hVecs).
  - intros j t. unfold unit_col. rewrite length_aset.
    by destruct (for_loop_fill (λ _, 0%float) (newldhVecs * j) restartSize t).
  - intros j t k Hj Hk. unfold unit_col. specialize (Hperm j Hj).
    destruct (for_loop_fill (λ _, 0%float) (newldhVecs * j) restartSize t)
      as [Hlen Hget].
    destruct (decide (k = newldhVecs * j + aget hVecsPerm j)) as [->|Hne].
    + rewrite aget_aset_eq by (rewrite Hlen; lia).
      rewrite bool_decide_eq_true_2 by lia.
      by rewrite bool_decide_eq_true_2 by lia.
    + rewrite aget_aset_ne by lia. rewrite Hget by done.
      case_bool_decide; [|done]. by rewrite bool_decide_eq_false_2 by lia.
  - intros j Hj. done.
Qed.

(** An invariant of a loop with an exit condition. *)
Lemma for_from_while_preserved {S} (P : S → Prop) (cond : Z → S → bool)
    (body : Z → S → S) k i s :
  P s →
  (∀ j t, i ≤ j < i + Z.of_nat k → P t → P (body j t)) →
  P (for_from k i cond body s).
Proof.
  revert i s. induction k as [|k IH]; intros i s Hs Hstep; simpl; [done|].
  destruct (cond i s); [|done].
  apply IH; [apply Hstep; [lia|done]|].
  intros j t Hj. apply Hstep. lia.
Qed.

(** When the search of [restart_RR] finds [indexOfPreviousVecs] in
    [hVecsPerm], what it returns is a position that holds it. *)
Lemma restart_RR_ordered_found (hVecsPerm : list Z)
    restartSize indexOfPreviousVecs :
  let ordered := restart_RR_ordered hVecsPerm restartSize indexOfPreviousVecs in
  ordered ≠ restartSize →
  0 ≤ ordered < restartSize ∧ aget hVecsPerm ordered = indexOfPreviousVecs.
Proof.
  cbv zeta. unfold restart_RR_ordered, for_loop_while.
  set (P := λ r : Z, r = restartSize
                     ∨ (0 ≤ r < restartSize
                        ∧ aget hVecsPerm r = indexOfPreviousVecs)).
  match goal with
  | |- ?r ≠ _ → _ => assert (P r) as [Hr|Hr]
  end.
  - apply for_from_while_preserved; [by left|].
    intros j r Hj Hr. case_bool_decide; [|done]. right. split; [lia|done].
  - by intros ?.
  - by intros _.
Qed.

Section with_kernels.
Context {K : Kernels}.

(** C3 (what the code does): after a projection restart by
    [restart_RR] the upper triangle (row <= column) of the first
    restartSize columns of H is zero except for the diagonal entries,
    equal to hVals[j], in the columns outside [indexOfPreviousVecs,
    indexOfPreviousVecs + numPrevRetained), and for the submatrix that
    compute_submatrix wrote in the rows and columns of that range; the
    entries below the diagonal of the other columns are not written.
    hVecs is set to the identity permuted by hVecsPerm, where hVecsPerm
    maps the indices below restartSize to such indices, and the column
    at orderedIndexOfPreviousVecs, the position of indexOfPreviousVecs
    in hVecsPerm, has its 1 in the row indexOfPreviousVecs; the solver
    of the inserted submatrix is handed the block of hVecs that starts
    in that column at the row orderedIndexOfPreviousVecs, and hVals from
    that position on; the code returned is 0 or
    INSERT_SUBMATRIX_FAILURE, as the solver returns 0 or not. *)
Theorem restart_RR_rebuilds_H
    (H : list double) ldH (hVecs : list double) ldhVecs newldhVecs
    (hVals : list double) restartSize basisSize numLocked numPrevRetained
    indexOfPreviousVecs (hVecsPerm : list Z) machEps primme
    ret H' hVecs' hVals' :
  let Hs := compute_submatrix_dprimme hVecs (ldhVecs * indexOfPreviousVecs)
              numPrevRetained ldhVecs H basisSize ldH
              H (ldH * indexOfPreviousVecs + indexOfPreviousVecs) ldH in
  let P := restart_RR_hVecs hVecs newldhVecs restartSize hVecsPerm in
  let ordered := restart_RR_ordered hVecsPerm restartSize indexOfPreviousVecs in
  let solved :=
    solve_H_dprimme H'
      (ldH * indexOfPreviousVecs + indexOfPreviousVecs) numPrevRetained
      ldH P (newldhVecs * ordered + ordered) newldhVecs
      (permute_vecs_dprimme hVals 1 restartSize 1 hVecsPerm) ordered
      numLocked machEps primme in
  restart_RR H ldH hVecs ldhVecs newldhVecs hVals restartSize basisSize
    numLocked numPrevRetained indexOfPreviousVecs hVecsPerm machEps primme
  = Some (ret, (H', hVecs', hVals')) →
  0 ≤ indexOfPreviousVecs → 0 ≤ numPrevRetained →
  indexOfPreviousVecs + numPrevRetained ≤ restartSize →
  restartSize ≤ ldH → restartSize ≤ newldhVecs →
  ldH * restartSize ≤ Z.of_nat (length Hs) →
  newldhVecs * restartSize ≤ Z.of_nat (length hVecs) →
  (∀ i j, 0 ≤ i ≤ j → j < restartSize →
     aget H' (ldH * j + i)
     = if bool_decide (indexOfPreviousVecs ≤ j
                       < indexOfPreviousVecs + numPrevRetained)
       then (if bool_decide (i < indexOfPreviousVecs) then 0%float
             else aget Hs (ldH * j + i))
       else (if bool_decide (i = j) then aget hVals j else 0%float))
  ∧ (∀ i j, 0 ≤ j < i → i < ldH → j < restartSize →
       aget H' (ldH * j + i) = aget Hs (ldH * j + i))
  ∧ ((∀ j, 0 ≤ j < restartSize → 0 ≤ aget hVecsPerm j < restartSize) →
     (∀ i j, 0 ≤ i < restartSize → 0 ≤ j < restartSize →
        aget P (newldhVecs * j + i)
        = if bool_decide (i = aget hVecsPerm j) then 1%float else 0%float)
     ∧ (ordered ≠ restartSize →
        aget P (newldhVecs * ordered + indexOfPreviousVecs) = 1%float))
  ∧ (ordered ≠ restartSize →
     0 ≤ ordered < restartSize
     ∧ aget hVecsPerm ordered = indexOfPreviousVecs)
  ∧ (hVecs', hVals') = solved.2
  ∧ ret = (if bool_decide (solved.1 ≠ 0) then INSERT_SUBMATRIX_FAILURE else 0).
Proof.
  intros Hs P ordered solved Hcall Hidx Hprev Hfit HldH Hnewld HlenH HlenV.
  subst solved.
  cbv beta delta [restart_RR] in Hcall. cbv zeta in Hcall.
  fold Hs P ordered in Hcall.
  destruct (negb _); [done|].
  destruct (solve_H_dprimme _ _ _ _ _ _ _ _ _ _ _ _) as [r [hv hvals]] eqn:Hsolve
    in Hcall.
  assert (H' = restart_RR_H Hs ldH hVals restartSize numPrevRetained
                 indexOfPreviousVecs
          ∧ hVecs' = hv ∧ hVals' = hvals
          ∧ ret = if bool_decide (r ≠ 0) then INSERT_SUBMATRIX_FAILURE else 0)
    as (-> & -> & -> & ->).
  { destruct (bool_decide (r ≠ 0)); by injection Hcall as <- <- <- <-. }
  rewrite Hsolve.
  destruct (restart_RR_H_lookup Hs ldH hVals restartSize numPrevRetained
              indexOfPreviousVecs Hidx Hprev Hfit HldH) as [_ HgetH].
  pose proof (restart_RR_ordered_found hVecsPerm restartSize
                indexOfPreviousVecs) as Hfound.
  cbv zeta in Hfound. fold ordered in Hfound.
  split; [|split; [|split; [|split; [done|done]]]].
  - intros i j Hi Hj.
    pose proof (column_before ldH j restartSize).
    rewrite HgetH by nia.
    repeat case_bool_decide; (done || lia).
  - intros i j Hji Hi Hj.
    pose proof (column_before ldH j restartSize).
    rewrite HgetH by nia.
    rewrite !bool_decide_eq_false_2 by lia. done.
  - intros Hperm.
    destruct (restart_RR_hVecs_lookup hVecs newldhVecs restartSize hVecsPerm
                Hnewld Hperm) as [_ HgetP].
    fold P in HgetP.
    assert (∀ i j, 0 ≤ i < restartSize → 0 ≤ j < restartSize →
              aget P (newldhVecs * j + i)
              = if bool_decide (i = aget hVecsPerm j) then 1%float
                else 0%float) as Hid.
    { intros i j Hi Hj.
      pose proof (column_before newldhVecs j restartSize).
      rewrite HgetP by nia.
      by rewrite bool_decide_eq_true_2 by lia. }
    split; [done|]. intros Hord.
    destruct (Hfound Hord) as [Hrange Hhit].
    pose proof (Hperm ordered Hrange) as Hrow. rewrite Hhit in Hrow.
    rewrite Hid by lia. by rewrite bool_decide_eq_true_2.
Qed.
End with_kernels.

End RestartRRSpec.

(** ** The theorems at the examples *)

Section option_results.
Context {A B : Type}.

(** A result whose first component is known is the pair of it and of
    what [from_option snd] reads off. *)
Lemma option_pair_eta (o : option (A * B)) (a : A) (d : B) :
  fst <$> o = Some a → o = Some (a, from_option snd d o).
Proof.
  destruct o as [[a' b]|]; simpl; [|done]. by intros [= ->].
Qed.

End option_results.

Module DtrExamples.
Import Dtr Examples.

(** C8 at Example D, whose array has nine flags and whose
    maxBasisSize is 7: the flag of index 1, below [first] = 5, is
    reset; after the dynamic thick restart the flag of index 7, LOCKED
    before, is UNCONVERGED; on the first seven flags alone the call
    writes outside the array. *)
Lemma reset_flags_erases_all_D :
  reset_flags_dprimme flags_D 5 6 !! 1%nat = Some UNCONVERGED
  ∧ (dtr_dprimme 0 hVecs_D hVals_D flags_D 7 3 [2] rwork_D primme_D).2.2
      !! 7%nat = Some UNCONVERGED
  ∧ flags_D !! 7%nat = Some LOCKED
  ∧ dtr_flags_checked 0 hVals_D (take 7 flags_D) 7 3 [2] primme_D = None.
Proof.
  pose proof (DtrSpec.reset_flags_erases_all primme_D 0 hVecs_D hVals_D
                flags_D 7 3 [2] rwork_D 5 6) as Hall.
  pose proof (DtrSpec.reset_flags_erases_all primme_D 0 hVecs_D hVals_D
                (take 7 flags_D) 7 3 [2] rwork_D 5 6) as Hshort.
  cbv zeta in Hall, Hshort.
  destruct Hall as (_ & Hreset & _ & _ & _ & Hdtr & _).
  destruct Hshort as (_ & _ & _ & _ & _ & _ & Hchecked).
  split; [|split; [|split]].
  - apply (Hreset 1); [lia|]. change (1 < 9). lia.
  - apply (Hdtr 7); [change (0 ≤ 7 ≤ 7); lia|]. change (7 < 9). lia.
  - reflexivity.
  - exact Hchecked.
Defined.

(** C4 (amended) at Example D: the restart size is 3, from the pair
    (3, 0) of the search region. *)
Lemma dtr_restart_size_feasible_D :
  (dtr_dprimme 0 hVecs_D hVals_D flags_D 7 3 [2] rwork_D primme_D).1 = 3
  ∧ in_search_region primme_D 7 3 1 3 0.
Proof.
  pose proof (DtrSpec.dtr_restart_size_feasible primme_D 0 hVecs_D hVals_D
                flags_D 7 3 [2] rwork_D) as Hdtr.
  cbv zeta in Hdtr.
  destruct Hdtr as (Hsize & Hrange & Hpair).
  - change (0 < 2). lia.
  - change (0 < 1 ≤ 7 - 3). lia.
  - split; [exact Hsize|].
    destruct Hpair as [[Hl _]|Hreg]; [|exact Hreg].
    vm_compute in Hl. discriminate Hl.
Defined.

(** C4, the claim as it stands fails at Example D: the selector returns
    lOpt + rOpt = 3 + 0, which is no multiple of maxBlockSize = 2; it is
    basisSize - lOpt - rOpt = 4 that is one. *)
Lemma dtr_size_not_multiple_of_block :
  (dtr_search primme_D hVals_D 7 3 (aget hVals_D 2)
     (dtr_lMin primme_D 0 flags_D 7)).1 = (3, 0)
  ∧ (dtr_dprimme 0 hVecs_D hVals_D flags_D 7 3 [2] rwork_D primme_D).1 = 3
  ∧ maxBlockSize primme_D = 2
  ∧ Z.rem (3 + 0) 2 = 1
  ∧ Z.rem (7 - 3 - 0) 2 = 0.
Proof.
  vm_compute. done.
Qed.

End DtrExamples.

Module SvdsExamples.
Import Svds Examples.



(** C9 at Example T with a [qsort] that sorts for the comparison
    functions the C library asks for and leaves the array alone for the
    others: the stage gets the shifts (2.5, 2^-52, 2^-52), which are not
    in ascending order; the second and the third are equal, and
    [comp_double] puts each of them below the other. *)
Lemma stage2_shifts_not_ascending :
  (λ r, p_targetShifts (s_primmeStage2 r.1))
    <$> copy_last_params_from_svds (K := svds_kernels_strict) svds_T 1
          [3; 0; 0]%float [0.5; 0; 0]%float
  = Some (shifts_array [2.5; 0x1p-52; 0x1p-52]%float)
  ∧ dle 2.5%float 0x1p-52%float = false
  ∧ comp_double 0x1p-52%float 0x1p-52%float = -1
  ∧ s_methodStage2 svds_T = primme_svds_op_augmented
  ∧ s_target svds_T = primme_svds_smallest
  ∧ p_targetShifts (s_primmeStage2 svds_T) = shifts_null.
Proof.
  vm_compute. done.
Qed.


End SvdsExamples.

Module RestartExamples.
Import Restart Examples.

(** C5 (amended) at Example E in a space of dimension 3: the call returns
    0 and the flag of the first pair is reset. *)
Lemma soft_locking_rechecks_flags_F :
  ∃ st',
    restart_soft_locking_dprimme (K := ref_kernels) (nLocal primme_F)
      2 2 2 3 2 3 1 2 0 false 0x1p-53%float primme_F state_E = Some (0, st')
    ∧ aget (flags st') 0 = UNCONVERGED.
Proof.
  eexists. split.
  - apply (option_pair_eta _ 0 state_E). vm_compute. reflexivity.
  - etrans.
    + eapply (RestartSpec.soft_locking_rechecks_flags (K := ref_kernels)).
      * apply (option_pair_eta _ 0 state_E). vm_compute. reflexivity.
      * change (0 ≤ 0 < 2). lia.
    + vm_compute. reflexivity.
Defined.

(** C5, the claim as it stands fails at Example E in a space of
    dimension 2 = basisSize: the first pair, of index 0 < numEvals, is
    flagged CONVERGED and |hVals[0] - evals[0]| = 4 > resNorms[0] = 1/2,
    but its flag is CONVERGED after the call. *)
Lemma soft_locking_keeps_drifted_flag :
  (λ r, (r.1, aget (flags r.2) 0)) <$> soft_locking_E primme_E
  = Some (0, CONVERGED)
  ∧ aget (flags state_E) 0 = CONVERGED
  ∧ numEvals primme_E = 1
  ∧ dgt (fabs (aget (dmem state_E Da.hVals) 0
               - aget (dmem state_E Da.evals) 0)%float)
        (aget (dmem state_E Da.resNorms) 0) = true.
Proof.
  vm_compute. done.
Qed.

(** C7 at Example E5 in a space of dimension 3, entered with
    ievSize = 5 and iev = (7): the call returns 0 and leaves
    ievSize = 0, and iev = (0), the one candidate of the block of size
    min(1, 1, 1) = 1.  At Example H, entered with ievSize = 5, the call
    returns -1 and leaves ievSize = min(1, 1, 3 - 2) = 1. *)
Lemma soft_locking_block_empty_F :
  ∃ st' st'',
    restart_soft_locking_dprimme (K := ref_kernels) (nLocal primme_F)
      2 2 2 3 2 3 1 2 0 false 0x1p-53%float primme_F state_E5 = Some (0, st')
    ∧ ivar state_E5 Iv.ievSize = 5
    ∧ ivar st' Iv.ievSize = 0
    ∧ aget (zmem state_E5 Ia.iev) 0 = 7
    ∧ aget (zmem st' Ia.iev) 0 = 0
    ∧ restart_soft_locking_dprimme (K := ref_kernels) (nLocal primme_H)
        2 2 2 3 2 3 1 2 0 false 0x1p-53%float primme_H state_H
      = Some (-1, st'')
    ∧ ivar state_H Iv.ievSize = 5
    ∧ ivar st'' Iv.ievSize = 1.
Proof.
  eexists _, _.
  split; [apply (option_pair_eta _ 0 state_E5); vm_compute; reflexivity|].
  split; [reflexivity|]. split; [|split; [reflexivity|split]].
  - eapply (RestartSpec.soft_locking_block_empty (K := ref_kernels)).
    + apply (option_pair_eta _ 0 state_E5). vm_compute. reflexivity.
    + reflexivity.
  - etrans.
    + eapply (RestartSpec.soft_locking_block_empty (K := ref_kernels)).
      * apply (option_pair_eta _ 0 state_E5). vm_compute. reflexivity.
      * reflexivity.
      * change (0 ≤ 0 < 1). lia.
    + vm_compute. reflexivity.
  - split; [apply (option_pair_eta _ (-1) state_H); vm_compute; reflexivity|].
    split; [reflexivity|].
    etrans.
    + eapply (RestartSpec.soft_locking_block_empty (K := ref_kernels)).
      * apply (option_pair_eta _ (-1) state_H). vm_compute. reflexivity.
      * discriminate.
    + vm_compute. reflexivity.
Defined.

(** C2 (amended) at Example A: the restart of a basis of two vectors,
    with room for three and no previous vectors, returns 0 and reports
    restartSize = 2. *)
Lemma restart_not_full_size_A :
  ∃ st',
    restart_dprimme (K := ref_kernels) args_A primme_A state_A = Some (0, st')
    ∧ ivar st' Iv.restartSizeOutput = 2.
Proof.
  assert (fst <$> restart_dprimme (K := ref_kernels) args_A primme_A state_A
          = Some 0) as Hcall by (vm_compute; reflexivity).
  apply (option_pair_eta _ 0 state_A) in Hcall.
  eexists. split; [exact Hcall|].
  assert (a_basisSize args_A ≤ maxBasisSize primme_A - maxBlockSize primme_A)
    as Hsmall by (change (2 ≤ 3 - 1); lia).
  assert (0 ≤ maxBlockSize primme_A) as Hblock by (change (0 ≤ 1); lia).
  exact (RestartSpec.restart_not_full_size (K := ref_kernels) args_A
           primme_A state_A _ eq_refl Hsmall Hblock (or_introl eq_refl) Hcall).
Defined.

(** C2, the claim as it stands fails at Example A, where
    basisSize = 2 = maxBasisSize - maxBlockSize: the restart returns 0
    and reports restartSize = 2, but the two columns of V and of W have
    changed places. *)
Lemma restart_not_full_reorders_bases :
  (λ r, (r.1, ivar r.2 Iv.restartSizeOutput, dmem r.2 Da.V, dmem r.2 Da.W))
    <$> restart_dprimme (K := ref_kernels) args_A primme_A state_A
  = Some (0, 2,
          [0; 1; 0;  1; 0; 0;  1; 0; 0;  0; 0; 0]%float,
          [0; 2; 0;  1; 0; 0;  0; 0; 0;  0; 0; 0]%float)
  ∧ dmem state_A Da.V = [1; 0; 0;  0; 1; 0;  0; 0; 0;  0; 0; 0]%float
  ∧ dmem state_A Da.W = [1; 0; 0;  0; 2; 0;  0; 0; 0;  0; 0; 0]%float
  ∧ a_basisSize args_A = 2
  ∧ maxBasisSize primme_A - maxBlockSize primme_A = 2.
Proof.
  vm_compute. done.
Qed.

(** C1 at Example B with a solver of the projected problem that fails:
    the restart of the bases returns 0, the projection restart returns
    RESTART_H_FAILURE, and [restart_dprimme] returns 0. *)
Lemma restart_ignores_projection_code_B :
  ∃ st1 st2,
    restart_bases (K := failing_solver_kernels) args_B primme_B state_B
    = Some (0, st1)
    ∧ restart_projected (K := failing_solver_kernels) args_B primme_B st1
      = Some (RESTART_H_FAILURE, st2)
    ∧ restart_dprimme (K := failing_solver_kernels) args_B primme_B state_B
      = Some (0, set_i Iv.restartSizeOutput (ivar st1 Iv.restartSize) st2).
Proof.
  assert (∃ st1 st2,
            restart_bases (K := failing_solver_kernels) args_B primme_B state_B
            = Some (0, st1)
            ∧ restart_projected (K := failing_solver_kernels) args_B primme_B
                st1 = Some (RESTART_H_FAILURE, st2))
    as (st1 & st2 & Hbases & Hproj).
  { eexists _, _. split.
    - apply (option_pair_eta _ 0 state_B). vm_compute. reflexivity.
    - apply (option_pair_eta _ RESTART_H_FAILURE state_B).
      vm_compute. reflexivity. }
  exists st1, st2. split; [exact Hbases|]. split; [exact Hproj|].
  exact (RestartSpec.restart_ignores_projection_code
           (K := failing_solver_kernels) args_B primme_B state_B st1
           RESTART_H_FAILURE st2 Hbases Hproj).
Defined.

(** C3 at Example G: the projection restart returns 0; in the column 1
    of the rebuilt H, which is not a column of the previous vectors, the
    entry above the diagonal is 0 and the one on it is hVals[1]; the
    position of indexOfPreviousVecs = 0 in hVecsPerm = (1, 0) is 1, and
    the column 1 of the permuted identity has its 1 in the row 0. *)
Lemma restart_RR_rebuilds_H_G :
  ∃ H' hVecs' hVals',
    restart_RR (K := ref_kernels) H_G 3 hVecs_G 3 2 hVals_G 2 3 0 1 0
      [1; 0] 0x1p-53%float primme_B
    = Some (0, (H', hVecs', hVals'))
    ∧ aget H' (3 * 1 + 0) = 0%float
    ∧ aget H' (3 * 1 + 1) = aget hVals_G 1
    ∧ restart_RR_ordered [1; 0] 2 0 = 1
    ∧ aget (restart_RR_hVecs hVecs_G 2 2 [1; 0]) (2 * 1 + 0) = 1%float.
Proof.
  exists [3; 7; 0;  0; 1; 0;  0; 0; 3]%float,
         [0; 1;  1; 1;  0; 0; 0; 1; 0]%float, [1; 3; 2]%float.
  assert (restart_RR (K := ref_kernels) H_G 3 hVecs_G 3 2 hVals_G 2 3 0 1 0
            [1; 0] 0x1p-53%float primme_B
          = Some (0, ([3; 7; 0;  0; 1; 0;  0; 0; 3]%float,
                      [0; 1;  1; 1;  0; 0; 0; 1; 0]%float, [1; 3; 2]%float)))
    as Hcall by (vm_compute; reflexivity).
  split; [exact Hcall|].
  pose proof (RestartRRSpec.restart_RR_rebuilds_H (K := ref_kernels)
                H_G 3 hVecs_G 3 2 hVals_G 2 3 0 1 0 [1; 0] 0x1p-53%float
                primme_B 0 _ _ _ Hcall) as Hrr.
  cbv zeta in Hrr.
  destruct Hrr as (Hupper & _ & Hperm & _).
  - lia.
  - lia.
  - lia.
  - lia.
  - lia.
  - apply Z.leb_le. vm_compute. reflexivity.
  - apply Z.leb_le. vm_compute. reflexivity.
  - destruct Hperm as [_ Hone].
    { intros j Hj. assert (j = 0 ∨ j = 1) as [-> | ->] by lia.
      + change (0 ≤ 1 < 2). lia.
      + change (0 ≤ 0 < 2). lia. }
    split; [|split; [|split]].
    + etrans; [apply (Hupper 0 1); lia|]. vm_compute. reflexivity.
    + etrans; [apply (Hupper 1 1); lia|]. vm_compute. reflexivity.
    + reflexivity.
    + apply Hone. vm_compute. discriminate.
Defined.

(** C3 at Example G, where the rebuilt H is diag(3, 1) in its upper
    triangle: the solver has written its vector, 1, in the row 1 of
    the column 1 of hVecs, which is (1, 1) and no eigenvector of H for
    hVals[1] = 3: the row 1 of H times the column is 1, and hVals[1]
    times the entry of the column is 3. *)
Lemma restart_RR_not_diagonalised :
  restart_RR_G
  = Some (0, ([3; 7; 0;  0; 1; 0;  0; 0; 3]%float,
              [0; 1;  1; 1;  0; 0; 0; 1; 0]%float,
              [1; 3; 2]%float))
  ∧ (aget [3; 7; 0;  0; 1; 0;  0; 0; 3]%float (3 * 1 + 0)
     * aget [0; 1;  1; 1;  0; 0; 0; 1; 0]%float (2 * 1 + 0)
     + aget [3; 7; 0;  0; 1; 0;  0; 0; 3]%float (3 * 1 + 1)
       * aget [0; 1;  1; 1;  0; 0; 0; 1; 0]%float (2 * 1 + 1))%float
    = 1%float
  ∧ (aget [1; 3; 2]%float 1
     * aget [0; 1;  1; 1;  0; 0; 0; 1; 0]%float (2 * 1 + 1))%float
    = 3%float.
Proof.
  vm_compute. done.
Qed.

(** C3 through [restart_dprimme] at Example B, which restarts three
    basis vectors to two: the restarted H is diag(3, 1), hVals is
    (1, 3), and the column 1 of hVecs is (1, 1), no eigenvector of H
    for hVals[1] = 3. *)
Lemma restart_dprimme_not_diagonalised :
  (λ r, (r.1, ivar r.2 Iv.restartSizeOutput, take 5 (dmem r.2 Da.H),
         take 4 (dmem r.2 Da.hVecs), take 2 (dmem r.2 Da.hVals)))
    <$> restart_dprimme (K := ref_kernels) args_B primme_B state_B
  = Some (0, 2, [3; 0; 0;  0; 1]%float, [0; 1;  1; 1]%float, [1; 3]%float)
  ∧ (0 * 1 + 1 * 1)%float = 1%float
  ∧ (3 * 1)%float = 3%float.
Proof.
  vm_compute. done.
Qed.

End RestartExamples.

(** * Further properties of the restart *)

Section more_loop_facts.
Context {S : Type}.
Implicit Types (body : Z → S → S) (s : S).

(** The last iteration of a counted loop. *)
Lemma for_from_snoc body k i s :
  for_from (Datatypes.S k) i (λ _ _, true) body s
  = body (i + Z.of_nat k) (for_from k i (λ _ _, true) body s).
Proof.
  revert i s. induction k as [|k IH]; intros i s.
  - simpl. by replace (i + Z.of_nat 0) with i by lia.
  - change (for_from (Datatypes.S (Datatypes.S k)) i (λ _ _, true) body s)
      with (for_from (Datatypes.S k) (i + 1) (λ _ _, true) body (body i s)).
    rewrite IH. simpl.
    by replace (i + 1 + Z.of_nat k) with (i + Z.of_nat (Datatypes.S k)) by lia.
Qed.

Lemma for_loop_snoc body lo hi s :
  lo ≤ hi → for_loop lo (hi + 1) body s = body hi (for_loop lo hi body s).
Proof.
  intros Hle. unfold for_loop.
  replace (Z.to_nat (hi + 1 - lo)) with (Datatypes.S (Z.to_nat (hi - lo)))
    by lia.
  rewrite for_from_snoc. f_equal. lia.
Qed.

(** The invariant rule of a loop with an exit condition: the loop stops
    at some [j], which is the bound unless the condition fails there. *)
Lemma for_from_while_ind (P : Z → S → Prop) (cond : Z → S → bool) body k i s :
  P i s →
  (∀ j t, i ≤ j < i + Z.of_nat k → cond j t = true → P j t →
          P (j + 1) (body j t)) →
  ∃ j, i ≤ j ≤ i + Z.of_nat k
       ∧ P j (for_from k i cond body s)
       ∧ (j < i + Z.of_nat k → cond j (for_from k i cond body s) = false).
Proof.
  revert i s. induction k as [|k IH]; intros i s Hs Hstep; simpl.
  - exists i. split; [lia|]. split; [done|lia].
  - destruct (cond i s) eqn:Hc.
    + destruct (IH (i + 1) (body i s)) as (j & Hj & HP & Hexit).
      * apply Hstep; [lia|done|done].
      * intros j t Hj. apply Hstep. lia.
      * exists j. split; [lia|]. split; [done|].
        intros Hlt. apply Hexit. lia.
    + exists i. split; [lia|]. split; [done|]. done.
Qed.

Lemma for_loop_while_ind (P : Z → S → Prop) (cond : Z → S → bool) body
    lo hi s :
  lo ≤ hi →
  P lo s →
  (∀ j t, lo ≤ j < hi → cond j t = true → P j t → P (j + 1) (body j t)) →
  ∃ j, lo ≤ j ≤ hi
       ∧ P j (for_loop_while lo hi cond body s)
       ∧ (j < hi → cond j (for_loop_while lo hi cond body s) = false).
Proof.
  intros Hle Hs Hstep. unfold for_loop_while.
  destruct (for_from_while_ind P cond body (Z.to_nat (hi - lo)) lo s)
    as (j & Hj & HP & Hexit); [done| |].
  - intros j t Hj. apply Hstep. lia.
  - exists j. split; [lia|]. split; [done|]. intros Hlt. apply Hexit. lia.
Qed.
End more_loop_facts.

Section more_array_facts.
Context {A : Type} `{Inhabited A}.

(** Writing back what an entry holds changes nothing. *)
Lemma aset_aget_id (a : list A) i : aset a i (aget a i) = a.
Proof.
  unfold aset, aget. case_bool_decide; [|done].
  destruct (decide (Z.to_nat i < length a)%nat) as [Hlt|Hge].
  - apply list_insert_id. by apply list_lookup_lookup_total_lt.
  - apply list_insert_ge. lia.
Qed.
End more_array_facts.

Module FlagsSpec.
Import Dtr Restart.

(** X1: [reset_flags_dprimme] keeps the number of flags and every flag of
    index above [last]. *)
Theorem reset_flags_keeps_above flags first last i :
  0 ≤ i < Z.of_nat (length flags) →
  last < i →
  length (reset_flags_dprimme flags first last) = length flags
  ∧ aget (reset_flags_dprimme flags first last) i = aget flags i.
Proof.
  intros Hi Hlast. split; [apply DtrSpec.length_reset_flags|].
  rewrite DtrSpec.reset_flags_lookup by done.
  by rewrite bool_decide_eq_false_2 by lia.
Qed.

Lemma count_unconverged_step flags i :
  0 ≤ i →
  count_unconverged flags (i + 1)
  = count_unconverged flags i
    + (if bool_decide (aget flags i = UNCONVERGED) then 1 else 0).
Proof.
  intros Hi. unfold count_unconverged. rewrite for_loop_snoc by done.
  case_bool_decide; lia.
Qed.

Lemma count_unconverged_0 flags : count_unconverged flags 0 = 0.
Proof. reflexivity. Qed.

Lemma count_unconverged_bounds flags i m :
  0 ≤ i ≤ m →
  count_unconverged flags i ≤ count_unconverged flags m
  ≤ count_unconverged flags i + (m - i).
Proof.
  intros Him.
  cut (∀ k : nat, count_unconverged flags i
                  ≤ count_unconverged flags (i + Z.of_nat k)
                  ≤ count_unconverged flags i + Z.of_nat k).
  { intros Hk. specialize (Hk (Z.to_nat (m - i))).
    by replace (i + Z.of_nat (Z.to_nat (m - i))) with m in Hk by lia;
       replace (Z.of_nat (Z.to_nat (m - i))) with (m - i) in Hk by lia. }
  induction k as [|k IH].
  - replace (i + Z.of_nat 0) with i by lia. lia.
  - replace (i + Z.of_nat (Datatypes.S k)) with (i + Z.of_nat k + 1) by lia.
    rewrite count_unconverged_step by lia. case_bool_decide; lia.
Qed.

End FlagsSpec.

Module RestartPermSpec.
Import Restart FlagsSpec.

(** X2: when at least [numCandidates] of the first [basisSize] flags are
    UNCONVERGED, the loop of the soft-locking restart fills the first
    [basisSize] entries of [restartPerm] with a permutation of
    0 .. basisSize - 1: every entry lies in that range and no two entries
    are equal; the entries [left .. left + numCandidates) are indices of
    UNCONVERGED pairs. *)
Theorem restartPerm_is_permutation flags basisSize numCandidates left
    (restartPerm : list Z) :
  0 ≤ numCandidates → 0 ≤ left → left + numCandidates ≤ basisSize →
  numCandidates ≤ count_unconverged flags basisSize →
  basisSize ≤ Z.of_nat (length restartPerm) →
  let rp := build_restartPerm flags basisSize numCandidates left restartPerm in
  length rp = length restartPerm
  ∧ (∀ p, 0 ≤ p < basisSize → 0 ≤ aget rp p < basisSize)
  ∧ (∀ p q, 0 ≤ p < basisSize → 0 ≤ q < basisSize →
       aget rp p = aget rp q → p = q)
  ∧ (∀ p, left ≤ p < left + numCandidates →
       aget flags (aget rp p) = UNCONVERGED).
Proof.
  intros Hnc Hleft Hfit Hcount Hlen. cbv zeta. unfold build_restartPerm.
  pose (Inv := λ (i : Z) (s : Z * Z * list Z),
          let j := s.1.1 in let k := s.1.2 in let rp := s.2 in
          0 ≤ j ∧ 0 ≤ k ∧ j + k = i
          ∧ j = Z.min numCandidates (count_unconverged flags i)
          ∧ length rp = length restartPerm
          ∧ (∀ p, restartPerm_written numCandidates left j k p → 0 ≤ aget rp p < i)
          ∧ (∀ p q, restartPerm_written numCandidates left j k p →
               restartPerm_written numCandidates left j k q →
               aget rp p = aget rp q → p = q)
          ∧ (∀ p, left ≤ p < left + j →
               aget flags (aget rp p) = UNCONVERGED)).
  match goal with
  | |- context [for_loop 0 basisSize ?body ?s0] =>
      assert (Inv basisSize (for_loop 0 basisSize body s0)) as Hinv
  end.
  { apply for_loop_ind; [lia| |].
    - unfold Inv, restartPerm_written. simpl. rewrite count_unconverged_0.
      repeat split; try lia; intros; lia.
    - intros i [[j k] rp] Hi (Hj & Hk & Hjk & Hjc & Hl & Hrange & Hinj & Hcand).
      simpl in Hj, Hk, Hjk, Hjc, Hl, Hrange, Hinj, Hcand.
      pose proof (count_unconverged_step flags i ltac:(lia)) as Hstep.
      pose proof (count_unconverged_bounds flags (i + 1) basisSize
                    ltac:(lia)) as Hbound.
      assert (∀ pn j' k',
                ¬ restartPerm_written numCandidates left j k pn →
                0 ≤ pn < Z.of_nat (length rp) →
                (∀ p, restartPerm_written numCandidates left j' k' p
                      ↔ restartPerm_written numCandidates left j k p ∨ p = pn) →
                (left ≤ pn < left + j' → aget flags i = UNCONVERGED) →
                (∀ p, left ≤ p < left + j' → p ≠ pn → left ≤ p < left + j) →
                let rp' := aset rp pn i in
                length rp' = length restartPerm
                ∧ (∀ p, restartPerm_written numCandidates left j' k' p →
                        0 ≤ aget rp' p < i + 1)
                ∧ (∀ p q, restartPerm_written numCandidates left j' k' p →
                     restartPerm_written numCandidates left j' k' q →
                     aget rp' p = aget rp' q → p = q)
                ∧ (∀ p, left ≤ p < left + j' →
                     aget flags (aget rp' p) = UNCONVERGED)) as Hwrite.
      { intros pn j' k' Hnew Hpn Hw Hflag Hold. cbv zeta.
        assert (∀ p, aget (aset rp pn i) p
                     = if bool_decide (pn = p) then i else aget rp p) as Hget
          by (intros p; by apply aget_aset).
        split; [by rewrite length_aset|]. split; [|split].
        - intros p Hp. rewrite Hget. apply Hw in Hp as [Hp| ->].
          + rewrite bool_decide_eq_false_2 by (by intros ->).
            specialize (Hrange p Hp). lia.
          + rewrite bool_decide_eq_true_2 by done. lia.
        - intros p q Hp Hq. rewrite !Hget.
          apply Hw in Hp as [Hp| ->]; apply Hw in Hq as [Hq| ->].
          + rewrite !bool_decide_eq_false_2 by (by intros ->).
            by apply Hinj.
          + rewrite bool_decide_eq_false_2 by (by intros ->).
            rewrite bool_decide_eq_true_2 by done.
            specialize (Hrange p Hp). lia.
          + rewrite bool_decide_eq_true_2 by done.
            rewrite bool_decide_eq_false_2 by (by intros ->).
            specialize (Hrange q Hq). lia.
          + done.
        - intros p Hp. rewrite Hget.
          destruct (decide (pn = p)) as [<-|Hne].
          + rewrite bool_decide_eq_true_2 by done. by apply Hflag.
          + rewrite bool_decide_eq_false_2 by done.
            apply Hcand, Hold; [done|]. by intros ->. }
      unfold Inv. cbn [fst snd].
      destruct (bool_decide (j < numCandidates)) eqn:Hjn;
        [apply bool_decide_eq_true_1 in Hjn
        |apply bool_decide_eq_false_1 in Hjn];
        (destruct (bool_decide (aget flags i = UNCONVERGED)) eqn:Hfl;
         [apply bool_decide_eq_true_1 in Hfl
         |apply bool_decide_eq_false_1 in Hfl]);
        rewrite ?bool_decide_eq_true_2 in Hstep by done;
        rewrite ?bool_decide_eq_false_2 in Hstep by done;
        cbn [andb].
      + (* a candidate *)
        cbn [fst snd].
        destruct (Hwrite (left + j) (j + 1) k) as (H1 & H2 & H3 & H4);
          [unfold restartPerm_written; lia | lia | unfold restartPerm_written; intros p; lia
          | done | intros p; lia |].
        repeat (split; [lia|]). done.
      + case_bool_decide as Hkl; cbn [fst snd].
        * destruct (Hwrite k j (k + 1)) as (H1 & H2 & H3 & H4);
            [unfold restartPerm_written; lia | lia | unfold restartPerm_written; intros p; lia
            | lia | intros p; lia |].
          repeat (split; [lia|]). done.
        * destruct (Hwrite (numCandidates + k) j (k + 1))
            as (H1 & H2 & H3 & H4);
            [unfold restartPerm_written; lia | lia | unfold restartPerm_written; intros p; lia
            | lia | intros p; lia |].
          repeat (split; [lia|]). done.
      + case_bool_decide as Hkl; cbn [fst snd].
        * destruct (Hwrite k j (k + 1)) as (H1 & H2 & H3 & H4);
            [unfold restartPerm_written; lia | lia | unfold restartPerm_written; intros p; lia
            | lia | intros p; lia |].
          repeat (split; [lia|]). done.
        * destruct (Hwrite (numCandidates + k) j (k + 1))
            as (H1 & H2 & H3 & H4);
            [unfold restartPerm_written; lia | lia | unfold restartPerm_written; intros p; lia
            | lia | intros p; lia |].
          repeat (split; [lia|]). done.
      + case_bool_decide as Hkl; cbn [fst snd].
        * destruct (Hwrite k j (k + 1)) as (H1 & H2 & H3 & H4);
            [unfold restartPerm_written; lia | lia | unfold restartPerm_written; intros p; lia
            | lia | intros p; lia |].
          repeat (split; [lia|]). done.
        * destruct (Hwrite (numCandidates + k) j (k + 1))
            as (H1 & H2 & H3 & H4);
            [unfold restartPerm_written; lia | lia | unfold restartPerm_written; intros p; lia
            | lia | intros p; lia |].
          repeat (split; [lia|]). done. }
  destruct (for_loop 0 basisSize _ _) as [[j k] rp].
  destruct Hinv as (Hj & Hk & Hjk & Hjc & Hl & Hrange & Hinj & Hcand).
  simpl in *.
  assert (∀ p, 0 ≤ p < basisSize → restartPerm_written numCandidates left j k p) as Hall
    by (intros p Hp; unfold restartPerm_written; lia).
  split; [done|]. split; [|split].
  - intros p Hp. by apply Hrange, Hall.
  - intros p q Hp Hq. by apply Hinj; apply Hall.
  - intros p Hp. apply Hcand. lia.
Qed.

End RestartPermSpec.

Module SoftLockingSpec.
Import Restart FlagsSpec.

(** The loop [hVecsPerm[restartPerm[i]] = i] inverts [restartPerm] where
    that takes distinct values inside [hVecsPerm]. *)
Lemma inverse_loop (rp hp : list Z) basisSize :
  (∀ p, 0 ≤ p < basisSize → 0 ≤ aget rp p < Z.of_nat (length hp)) →
  (∀ p q, 0 ≤ p < basisSize → 0 ≤ q < basisSize →
     aget rp p = aget rp q → p = q) →
  ∀ i, 0 ≤ i < basisSize →
    aget (for_loop 0 basisSize (λ i hp, aset hp (aget rp i) i) hp) (aget rp i)
    = i.
Proof.
  intros Hrange Hinj.
  destruct (decide (0 ≤ basisSize)) as [Hb|Hb]; [|intros; lia].
  pose (Inv := λ (m : Z) (t : list Z),
          length t = length hp
          ∧ ∀ i, 0 ≤ i < m → aget t (aget rp i) = i).
  cut (Inv basisSize
         (for_loop 0 basisSize (λ i hp, aset hp (aget rp i) i) hp)).
  { intros [_ Hinv]. done. }
  apply for_loop_ind; [done| |]; unfold Inv.
  - split; [done|]. intros; lia.
  - intros m t Hm [Hl Hget]. split; [by rewrite length_aset|].
    intros i Hi. destruct (decide (i = m)) as [->|Hne].
    + apply aget_aset_eq. rewrite Hl. by apply Hrange.
    + rewrite aget_aset_ne; [apply Hget; lia|].
      intros Heq. apply Hinj in Heq; lia.
Qed.

(** What [soft_locking_perms] leaves in [hVecsPerm] and in
    [numPrevRetained] when the candidates follow the previous vectors:
    its second loop over [hVecsPerm], which runs with [j = 0], rewrites
    every entry with its own value. *)
Lemma soft_locking_perms_out basisSize numArbitraryVecs st :
  ivar st Iv.left
  = ivar st Iv.indexOfPreviousVecs + ivar st Iv.numPrevRetained →
  let st' := soft_locking_perms basisSize numArbitraryVecs st in
  zmem st' Ia.hVecsPerm
  = for_loop 0 basisSize
      (λ i hp, aset hp (aget (zmem st Ia.restartPerm) i) i)
      (zmem st Ia.hVecsPerm)
  ∧ ivar st' Iv.numPrevRetained = ivar st Iv.numPrevRetained
  ∧ zmem st' Ia.restartPerm = zmem st Ia.restartPerm.
Proof.
  intros Hleft. cbv zeta. cbv beta delta [soft_locking_perms]. cbv zeta.
  set (hp0 := for_loop 0 basisSize _ (zmem st Ia.hVecsPerm)).
  split; [|split].
  - match goal with
    | |- zmem ?s Ia.hVecsPerm = _ =>
        change (zmem s Ia.hVecsPerm)
          with (for_loop 0 (ivar st Iv.restartSize)
                  (λ i hp,
                     if bool_decide (ivar st Iv.indexOfPreviousVecs ≤ aget hp i)
                        && bool_decide (aget hp i < ivar st Iv.left + 0)
                     then aset hp i
                            (Z.rem (aget hp i - ivar st Iv.indexOfPreviousVecs + 0)
                                   (ivar st Iv.numPrevRetained + 0)
                             + ivar st Iv.indexOfPreviousVecs)
                     else hp) hp0)
    end.
    apply (for_loop_preserved (λ t, t = hp0)); [done|].
    intros i t _ ->.
    case_bool_decide as Hlo; [|done]. case_bool_decide as Hhi; [|done].
    simpl. rewrite !Z.add_0_r in *.
    rewrite Z.rem_small by lia.
    replace (aget hp0 i - ivar st Iv.indexOfPreviousVecs
             + ivar st Iv.indexOfPreviousVecs) with (aget hp0 i) by lia.
    apply aset_aget_id.
  - match goal with
    | |- ivar ?s Iv.numPrevRetained = _ =>
        change (ivar s Iv.numPrevRetained)
          with (ivar st Iv.numPrevRetained + 0)
    end.
    lia.
  - reflexivity.
Qed.

(** X3: the second loop of the soft-locking restart over [hVecsPerm],
    meant to move the arbitrary vectors among the candidates, runs with
    its counter [j] reset to 0 and changes nothing: once
    left = indexOfPreviousVecs + numPrevRetained, [hVecsPerm] is what the
    loop [hVecsPerm[restartPerm[i]] = i] wrote and [numPrevRetained]
    keeps its value. *)
Theorem soft_locking_shift_changes_nothing basisSize numArbitraryVecs st :
  ivar st Iv.left
  = ivar st Iv.indexOfPreviousVecs + ivar st Iv.numPrevRetained →
  zmem (soft_locking_perms basisSize numArbitraryVecs st) Ia.hVecsPerm
  = for_loop 0 basisSize
      (λ i hp, aset hp (aget (zmem st Ia.restartPerm) i) i)
      (zmem st Ia.hVecsPerm)
  ∧ ivar (soft_locking_perms basisSize numArbitraryVecs st) Iv.numPrevRetained
    = ivar st Iv.numPrevRetained.
Proof.
  intros Hleft.
  destruct (soft_locking_perms_out basisSize numArbitraryVecs st Hleft)
    as (Hhp & Hnp & _).
  done.
Qed.

(** X4: when [restartPerm] holds distinct indices of [hVecsPerm] in its
    first [basisSize] entries, the [hVecsPerm] that the soft-locking
    restart leaves is its inverse there:
    hVecsPerm[restartPerm[i]] = i for every i < basisSize. *)
Theorem hVecsPerm_inverts_restartPerm basisSize numArbitraryVecs st i :
  ivar st Iv.left
  = ivar st Iv.indexOfPreviousVecs + ivar st Iv.numPrevRetained →
  (∀ p, 0 ≤ p < basisSize →
     0 ≤ aget (zmem st Ia.restartPerm) p
     < Z.of_nat (length (zmem st Ia.hVecsPerm))) →
  (∀ p q, 0 ≤ p < basisSize → 0 ≤ q < basisSize →
     aget (zmem st Ia.restartPerm) p = aget (zmem st Ia.restartPerm) q →
     p = q) →
  0 ≤ i < basisSize →
  aget (zmem (soft_locking_perms basisSize numArbitraryVecs st) Ia.hVecsPerm)
       (aget (zmem st Ia.restartPerm) i)
  = i.
Proof.
  intros Hleft Hrange Hinj Hi.
  destruct (soft_locking_perms_out basisSize numArbitraryVecs st Hleft)
    as (-> & _).
  by apply inverse_loop.
Qed.

End SoftLockingSpec.

Module RestartMoreSpec.
Import Restart FlagsSpec.

(** The count of the converged pairs in the soft-locking restart. *)
Lemma converged_count flags numEvals basisSize :
  0 ≤ basisSize → 0 ≤ numEvals →
  for_loop 0 basisSize
    (λ i c, if bool_decide (aget flags i ≠ UNCONVERGED)
               && bool_decide (i < numEvals)
            then c + 1 else c) 0
  = Z.min basisSize numEvals
    - count_unconverged flags (Z.min basisSize numEvals).
Proof.
  intros Hb He.
  pose (Inv := λ (m c : Z),
          c = Z.min m numEvals - count_unconverged flags (Z.min m numEvals)).
  apply (for_loop_ind Inv); [done| |]; unfold Inv.
  - rewrite Z.min_l by lia. rewrite count_unconverged_0. lia.
  - intros m c Hm ->.
    destruct (decide (m < numEvals)) as [Hlt|Hge].
    + rewrite (Z.min_l m), (Z.min_l (m + 1)) by lia.
      rewrite count_unconverged_step by lia.
      rewrite (bool_decide_eq_true_2 (m < numEvals)) by done.
      rewrite andb_true_r.
      destruct (decide (aget flags m = UNCONVERGED)) as [Hu|Hu].
      * rewrite bool_decide_eq_false_2 by (by intros ?).
        rewrite bool_decide_eq_true_2 by done. lia.
      * rewrite bool_decide_eq_true_2 by done.
        rewrite bool_decide_eq_false_2 by done. lia.
    + rewrite (Z.min_r m), (Z.min_r (m + 1)) by lia.
      rewrite (bool_decide_eq_false_2 (m < numEvals)) by done.
      by rewrite andb_false_r.
Qed.

Section with_kernels.
Context {K : Kernels}.

(** What a call of the soft-locking restart leaves in [numConverged]:
    the count over the flags that the check of the converged pairs
    left. *)
Lemma soft_locking_numConverged
    nLocal ldhR ldhU basisSize ldV ldhVecs ldevecsHat ldM ldpreviousHVecs
    numArbitraryVecs evecsHat_given machEps primme st :
  match restart_soft_locking_dprimme nLocal ldhR ldhU basisSize ldV ldhVecs
          ldevecsHat ldM ldpreviousHVecs numArbitraryVecs evecsHat_given
          machEps primme st with
  | Some (ret, st') =>
      ivar st' Iv.numConverged
      = for_loop 0 basisSize
          (λ i c,
             if bool_decide
                  (aget (recheck_converged_flags primme basisSize
                           (dmem st Da.hVals) (dmem st Da.evals)
                           (dmem st Da.resNorms) (flags st)) i ≠ UNCONVERGED)
                && bool_decide (i < numEvals primme)
             then c + 1 else c) 0
  | None => True
  end.
Proof.
  cbv beta delta [restart_soft_locking_dprimme]. cbv zeta.
  set (st1 := soft_locking_layout _ _ _ _ _ _).
  destruct (ortho_coefficient_vectors_dprimme _ _ _ _ _ _ _ _ _ _ _ _ _)
    as [r1 [hv hu]].
  case_bool_decide as Hr1; [reflexivity|].
  destruct (Num_update_VWXR_dprimme _ _ _ _ _ _ _ _ _ _ _ _)
    as [r2 [[v w] bn]].
  case_bool_decide as Hr2; [reflexivity|].
  destruct (soft_locking_asserts _ _); [|done].
  destruct evecsHat_given; reflexivity.
Qed.

(** X5: whatever code the soft-locking restart returns, it leaves
    restartSize = min(maxBasisSize, restartSize + numPrevRetained), with
    both as on entry, so the restarted basis fits in maxBasisSize; and it
    leaves in numConverged the number of pairs of index below
    min(basisSize, numEvals) whose flag, after the check of the
    converged pairs, is not UNCONVERGED. *)
Theorem soft_locking_sizes
    nLocal ldhR ldhU basisSize ldV ldhVecs ldevecsHat ldM ldpreviousHVecs
    numArbitraryVecs evecsHat_given machEps primme st ret st' :
  0 ≤ basisSize → 0 ≤ numEvals primme →
  restart_soft_locking_dprimme nLocal ldhR ldhU basisSize ldV ldhVecs
    ldevecsHat ldM ldpreviousHVecs numArbitraryVecs evecsHat_given
    machEps primme st = Some (ret, st') →
  ivar st' Iv.restartSize
  = Z.min (maxBasisSize primme)
          (ivar st Iv.restartSize + ivar st Iv.numPrevRetained)
  ∧ ivar st' Iv.restartSize ≤ maxBasisSize primme
  ∧ ivar st' Iv.numConverged
    = Z.min basisSize (numEvals primme)
      - count_unconverged (flags st') (Z.min basisSize (numEvals primme))
  ∧ 0 ≤ ivar st' Iv.numConverged ≤ Z.min basisSize (numEvals primme).
Proof.
  intros Hb He Hcall.
  pose proof (RestartSpec.soft_locking_out nLocal ldhR ldhU basisSize ldV
                ldhVecs ldevecsHat ldM ldpreviousHVecs numArbitraryVecs
                evecsHat_given machEps primme st) as Hout.
  cbv zeta in Hout. rewrite Hcall in Hout.
  destruct Hout as (Hfl & Hsize & _).
  pose proof (soft_locking_numConverged nLocal ldhR ldhU basisSize ldV
                ldhVecs ldevecsHat ldM ldpreviousHVecs numArbitraryVecs
                evecsHat_given machEps primme st) as Hnc.
  rewrite Hcall in Hnc.
  assert (ivar st' Iv.numConverged
          = Z.min basisSize (numEvals primme)
            - count_unconverged (flags st')
                (Z.min basisSize (numEvals primme))) as Hcount.
  { rewrite Hnc, Hfl. by apply converged_count. }
  split; [lia|]. split; [lia|]. split; [done|].
  rewrite Hcount.
  pose proof (count_unconverged_bounds (flags st') 0
                (Z.min basisSize (numEvals primme)) ltac:(lia)) as Hbnd.
  rewrite count_unconverged_0 in Hbnd. lia.
Qed.

(** X6: when the basis and the locked vectors span the whole space,
    basisSize + numLocked + numOrthoConst >= n, the restart keeps the
    whole basis, restartSize = basisSize, retains no previous vector,
    and flags UNCONVERGED pairs CONVERGED, in the order of their index,
    until numEvals pairs are counted as converged: no other flag
    changes, numConverged does not decrease and does not pass a numEvals
    it was not above, and if it stays below numEvals no pair of the
    basis is left UNCONVERGED. *)
Theorem whole_space_restart args primme st :
  n primme ≤ a_basisSize args + ivar st Iv.numLocked + numOrthoConst primme →
  0 ≤ a_basisSize args ≤ Z.of_nat (length (flags st)) →
  let st' := choose_restartSize args primme st in
  ivar st' Iv.restartSize = a_basisSize args
  ∧ ivar st' Iv.numPrevRetained = 0
  ∧ length (flags st') = length (flags st)
  ∧ ivar st Iv.numConverged ≤ ivar st' Iv.numConverged
  ∧ (ivar st Iv.numConverged ≤ numEvals primme →
     ivar st' Iv.numConverged ≤ numEvals primme)
  ∧ (∀ i, 0 ≤ i < Z.of_nat (length (flags st)) →
       aget (flags st') i = aget (flags st) i
       ∨ (aget (flags st) i = UNCONVERGED ∧ aget (flags st') i = CONVERGED
          ∧ i < a_basisSize args))
  ∧ (ivar st' Iv.numConverged < numEvals primme →
     ∀ i, 0 ≤ i < a_basisSize args → aget (flags st') i ≠ UNCONVERGED).
Proof.
  intros Hwhole Hb. cbv zeta. cbv beta delta [choose_restartSize]. cbv zeta.
  rewrite bool_decide_eq_true_2 by done.
  split; [reflexivity|]. split; [reflexivity|].
  change (flags (set_i Iv.numPrevRetained 0 ?s)) with (flags s).
  set (cond := λ (i : Z) '((fl, nc) : list flag * Z),
         bool_decide (nc < numEvals primme)).
  set (body := λ (i : Z) '((fl, nc) : list flag * Z),
         if bool_decide (aget fl i = UNCONVERGED)
         then (aset fl i CONVERGED, nc + 1) else (fl, nc)).
  set (marked := for_loop_while 0 (a_basisSize args) cond body
                   (flags st, ivar st Iv.numConverged)).
  change (length marked.1 = length (flags st)
          ∧ ivar st Iv.numConverged ≤ marked.2
          ∧ (ivar st Iv.numConverged ≤ numEvals primme →
             marked.2 ≤ numEvals primme)
          ∧ (∀ i, 0 ≤ i < Z.of_nat (length (flags st)) →
               aget marked.1 i = aget (flags st) i
               ∨ (aget (flags st) i = UNCONVERGED
                  ∧ aget marked.1 i = CONVERGED ∧ i < a_basisSize args))
          ∧ (marked.2 < numEvals primme →
             ∀ i, 0 ≤ i < a_basisSize args →
               aget marked.1 i ≠ UNCONVERGED)).
  pose (Inv := λ (m : Z) (s : list flag * Z),
          length s.1 = length (flags st)
          ∧ ivar st Iv.numConverged ≤ s.2
          ∧ (ivar st Iv.numConverged ≤ numEvals primme →
             s.2 ≤ numEvals primme)
          ∧ (∀ i, 0 ≤ i < Z.of_nat (length (flags st)) →
               aget s.1 i = aget (flags st) i
               ∨ (aget (flags st) i = UNCONVERGED
                  ∧ aget s.1 i = CONVERGED ∧ i < m))
          ∧ (∀ i, 0 ≤ i < m → aget s.1 i ≠ UNCONVERGED)
          ∧ (∀ i, m ≤ i → aget s.1 i = aget (flags st) i)).
  destruct (for_loop_while_ind Inv cond body 0 (a_basisSize args)
              (flags st, ivar st Iv.numConverged))
    as (m & Hm & Hinv & Hexit); [lia| | |].
  - unfold Inv. simpl. repeat split; try lia; try done;
      intros; first [by left | lia].
  - intros j [fl nc] Hj Hcond (Hl & Hge & Hle & Hrel & Hdone & Hrest).
    simpl in Hcond, Hl, Hge, Hle, Hrel, Hdone, Hrest.
    apply bool_decide_eq_true_1 in Hcond.
    unfold Inv, body. case_bool_decide as Hu; simpl.
    + split; [by rewrite length_aset|]. split; [lia|]. split; [lia|].
      assert (∀ i, aget (aset fl j CONVERGED) i
                   = if bool_decide (j = i) then CONVERGED else aget fl i)
        as Hget by (intros i; apply aget_aset; lia).
      split; [|split].
      * intros i Hi. rewrite Hget. case_bool_decide as Hji.
        -- subst i. right. rewrite <- (Hrest j) by lia.
           split; [done|]. split; [done|lia].
        -- destruct (Hrel i Hi) as [?|(? & ? & ?)]; [by left|right].
           split; [done|]. split; [done|lia].
      * intros i Hi. rewrite Hget. case_bool_decide; [done|].
        apply Hdone; lia.
      * intros i Hi. rewrite Hget.
        rewrite bool_decide_eq_false_2 by lia. apply Hrest. lia.
    + split; [done|]. split; [lia|]. split; [lia|]. split; [|split].
      * intros i Hi.
        destruct (Hrel i Hi) as [?|(? & ? & ?)]; [by left|right].
        split; [done|]. split; [done|lia].
      * intros i Hi. destruct (decide (i = j)) as [->|Hne];
          [done|apply Hdone; lia].
      * intros i Hi. apply Hrest. lia.
  - fold marked in Hinv, Hexit.
    destruct Hinv as (Hl & Hge & Hle & Hrel & Hdone & Hrest).
    split; [done|]. split; [done|]. split; [done|]. split.
    + intros i Hi.
      destruct (Hrel i Hi) as [?|(? & ? & ?)]; [by left|right].
      split; [done|]. split; [done|lia].
    + intros Hlt i Hi.
      destruct (decide (m < a_basisSize args)) as [Hmlt|Hmge].
      * specialize (Hexit Hmlt). unfold cond in Hexit.
        destruct marked as [fl nc]. simpl in *.
        apply bool_decide_eq_false_1 in Hexit. lia.
      * apply Hdone; lia.
Qed.

(** X7: the code that [restart_dprimme] returns is the code of the
    restart of the bases; when that code is not 0 the projection restart
    is not run and the state is as the restart of the bases left it. *)
Theorem restart_code_is_bases_code args primme st r st' :
  restart_dprimme args primme st = Some (r, st') →
  ∃ st1, restart_bases args primme st = Some (r, st1)
         ∧ (r ≠ 0 → st' = st1).
Proof.
  unfold restart_dprimme. intros Hcall.
  destruct (restart_bases args primme st) as [[r1 st1]|]; [|done].
  case_bool_decide as Hr1.
  - injection Hcall as <- <-. by exists st1.
  - destruct (restart_projected args primme st1) as [[r2 st2]|]; [|done].
    injection Hcall as <- <-. exists st1. split; [|done].
    f_equal. f_equal. destruct (decide (r1 = 0)); [done|contradiction].
Qed.

(** X8: [restart_projection_dprimme] returns 0, RESTART_H_FAILURE or
    UDUDECOMPOSE_FAILURE, whatever codes the projection kernels and the
    factorization return. *)
Theorem restart_projection_codes
    ldV ldW ldH nLocal ldQ ldR ldQV ldhU newldhU ldhVecs newldhVecs
    restartSize basisSize numPrevRetained indexOfPreviousVecs ldevecs
    ldevecsHat ldM ldUDU numConverged numArbitraryVecs rworkSize
    evecsHat_given QV_given machEps primme st r st' :
  restart_projection_dprimme ldV ldW ldH nLocal ldQ ldR ldQV ldhU newldhU
    ldhVecs newldhVecs restartSize basisSize numPrevRetained
    indexOfPreviousVecs ldevecs ldevecsHat ldM ldUDU numConverged
    numArbitraryVecs rworkSize evecsHat_given QV_given machEps primme st
  = Some (r, st') →
  r = 0 ∨ r = RESTART_H_FAILURE ∨ r = UDUDECOMPOSE_FAILURE.
Proof.
  assert (∀ ret s, restart_projection_finish ret nLocal ldevecs ldM ldUDU
                     numConverged evecsHat_given primme s = Some (r, st') →
                   r = 0 ∨ r = RESTART_H_FAILURE ∨ r = UDUDECOMPOSE_FAILURE)
    as Hfinish.
  { intros ret s. cbv beta delta [restart_projection_finish]. cbv zeta.
    case_bool_decide as Hret; [intros [= <- _]; by right; left|].
    destruct evecsHat_given.
    - case_bool_decide; [done|].
      destruct (UDUDecompose_dprimme _ _ _ _ _ _) as [r2 [udu ip]].
      case_bool_decide as Hr2; intros [= <- _]; [by right; right|].
      left. destruct (decide (r2 = 0)); [done|contradiction].
    - intros [= <- _]. left. destruct (decide (ret = 0)); [done|contradiction]. }
  unfold restart_projection_dprimme.
  destruct (projection primme); [done| | |].
  - destruct (restart_RR _ _ _ _ _ _ _ _ _ _ _ _ _ _)
      as [[ret [[H hv] hvals]]|]; [|done].
    apply Hfinish.
  - destruct (restart_qr _ _ _ _ _ _ _ _ _ _ _ _ _ _ _ _ _ _ _ _ _ _)
      as [ret s]. apply Hfinish.
  - destruct (restart_qr _ _ _ _ _ _ _ _ _ _ _ _ _ _ _ _ _ _ _ _ _ _)
      as [ret s]. apply Hfinish.
Qed.

End with_kernels.

(** X9: the search of [restart_RR] for [indexOfPreviousVecs] in
    [hVecsPerm] returns the first position below [restartSize] that
    holds it, and [restartSize] when there is none. *)
Theorem restart_RR_ordered_first (hVecsPerm : list Z)
    restartSize indexOfPreviousVecs :
  0 ≤ restartSize →
  let r := restart_RR_ordered hVecsPerm restartSize indexOfPreviousVecs in
  (∀ i, 0 ≤ i < r → aget hVecsPerm i ≠ indexOfPreviousVecs)
  ∧ ((r = restartSize
      ∧ ∀ i, 0 ≤ i < restartSize → aget hVecsPerm i ≠ indexOfPreviousVecs)
     ∨ (0 ≤ r < restartSize ∧ aget hVecsPerm r = indexOfPreviousVecs)).
Proof.
  intros Hrs. cbv zeta. unfold restart_RR_ordered.
  pose (Inv := λ (m r : Z),
          (r = restartSize
           ∧ ∀ i, 0 ≤ i < m → aget hVecsPerm i ≠ indexOfPreviousVecs)
          ∨ (0 ≤ r < m ∧ r < restartSize
             ∧ aget hVecsPerm r = indexOfPreviousVecs
             ∧ ∀ i, 0 ≤ i < r → aget hVecsPerm i ≠ indexOfPreviousVecs)).
  match goal with
  | |- context [for_loop_while 0 restartSize ?c ?b ?s] =>
      destruct (for_loop_while_ind Inv c b 0 restartSize s)
        as (m & Hm & Hinv & Hexit); [done| | |];
      [| |set (r := for_loop_while 0 restartSize c b s) in * ]
  end.
  - left. split; [done|]. intros; lia.
  - intros j r Hj Hcond Hinv. apply bool_decide_eq_true_1 in Hcond.
    destruct Hinv as [[_ Hnone]|(? & ? & _)]; [|lia].
    unfold Inv. case_bool_decide as Hhit.
    + right. split; [lia|]. split; [lia|]. split; [done|].
      intros i Hi. apply Hnone. lia.
    + left. split; [done|]. intros i Hi.
      destruct (decide (i = j)) as [->|Hne]; [done|apply Hnone; lia].
  - destruct Hinv as [[Hr Hnone]|(Hr & Hlt & Hhit & Hfirst)].
    + assert (m = restartSize) as ->.
      { destruct (decide (m < restartSize)) as [Hmlt|]; [|lia].
        specialize (Hexit Hmlt). apply bool_decide_eq_false_1 in Hexit.
        contradiction. }
      split; [intros i Hi; apply Hnone; lia|]. left. done.
    + split; [done|]. right. split; [lia|done].
Qed.

End RestartMoreSpec.

(** * Further properties of the SVD front end *)

Module SvdsMoreSpec.
Import Svds SvdsOperator.

#[local] Set Warnings "-clear-no-such-hyp".

Ltac check_input_cases :=
  unfold primme_svds_check_input;
  repeat first
    [ case_bool_decide
    | match goal with
      | |- context [negb ?b] => destruct b eqn:?; cbn [negb andb]
      | |- context [andb ?b _] => destruct b eqn:?; cbn [negb andb]
      end ].

(** X10: [primme_svds_check_input] returns 0 exactly when the dimensions
    are positive, there is at least one process, the operator is given,
    a preconditioner is given if preconditioning is on, a global sum is
    given if there are several processes, 1 <= numSvals <= min(n, m), the
    first stage works on A'A, AA' or the augmented matrix, a second stage
    is only the augmented matrix after a first stage on the normal
    equations, the print level is in 0..5 and the three output arrays
    are given. *)
Theorem check_input_accepts_iff svals_given svecs_given resNorms_given ps :
  primme_svds_check_input svals_given svecs_given resNorms_given ps = 0
  ↔ 0 < s_n ps ∧ 0 < s_m ps
    ∧ 1 ≤ s_numProcs ps
    ∧ s_matrixMatvec_given ps = true
    ∧ (s_precondition ps = 1 → s_applyPreconditioner_given ps = true)
    ∧ (1 < s_numProcs ps → s_globalSumDouble_given ps = true)
    ∧ 1 ≤ s_numSvals ps ≤ Z.min (s_n ps) (s_m ps)
    ∧ s_method ps ≠ primme_svds_op_none
    ∧ (s_method ps = primme_svds_op_augmented →
       s_methodStage2 ps = primme_svds_op_none)
    ∧ (s_methodStage2 ps = primme_svds_op_none
       ∨ s_methodStage2 ps = primme_svds_op_augmented)
    ∧ 0 ≤ s_printLevel ps ≤ 5
    ∧ svals_given = true ∧ svecs_given = true ∧ resNorms_given = true.
Proof.
  split.
  - check_input_cases; try discriminate; intros _;
      (assert (s_method ps ≠ primme_svds_op_none
               ∧ (s_method ps = primme_svds_op_augmented →
                  s_methodStage2 ps = primme_svds_op_none)
               ∧ (s_methodStage2 ps = primme_svds_op_none
                  ∨ s_methodStage2 ps = primme_svds_op_augmented))
         as (? & ? & ?)
         by (destruct (s_method ps), (s_methodStage2 ps); naive_solver));
      repeat (split; [first [lia | done | intros; first [lia | congruence]]|]);
      done.
  - intros (? & ? & ? & ? & ? & ? & ? & ? & ? & ? & ? & ? & ? & ?).
    check_input_cases; try done; exfalso;
      first [ lia | congruence
            | destruct (s_method ps), (s_methodStage2 ps), (s_target ps);
              naive_solver ].
Qed.

(** X11: the codes of [primme_svds_check_input] are 0 and -5 .. -19
    without -12; none is positive. *)
Theorem check_input_codes svals_given svecs_given resNorms_given ps :
  let c := primme_svds_check_input svals_given svecs_given resNorms_given ps in
  c = 0 ∨ (-19 ≤ c ≤ -5 ∧ c ≠ -12).
Proof.
  cbv zeta. check_input_cases; lia.
Qed.

Lemma check_input_stage2 svals_given svecs_given resNorms_given ps :
  primme_svds_check_input svals_given svecs_given resNorms_given ps = 0 →
  s_methodStage2 ps = primme_svds_op_none
  ∨ s_methodStage2 ps = primme_svds_op_augmented.
Proof.
  check_input_cases; try discriminate; intros _;
    destruct (s_method ps), (s_methodStage2 ps); naive_solver.
Qed.

(** X12: [comp_double] never returns 0: it returns -1 when a <= b and 1
    otherwise; on numbers it puts every value below itself and any two
    values in order one way or the other, and it returns 1 whenever an
    argument is not a number. *)
Theorem comp_double_order (a b : double) :
  (comp_double a b = -1 ∨ comp_double a b = 1)
  ∧ (comp_double a b = -1 ↔ dle a b = true)
  ∧ (not_nan a → comp_double a a = -1)
  ∧ (not_nan a → not_nan b → comp_double a b = -1 ∨ comp_double b a = -1)
  ∧ (PrimFloat.is_nan a = true ∨ PrimFloat.is_nan b = true →
     comp_double a b = 1).
Proof.
  unfold comp_double. split; [|split; [|split; [|split]]].
  - destruct (dle a b); [by left|by right].
  - destruct (dle a b); split; done.
  - intros Ha. by rewrite dle_refl.
  - intros Ha Hb. destruct (dle a b) eqn:Hab; [by left|right].
    by rewrite (dle_total a b).
  - intros Hnan. destruct (dle a b) eqn:Hab; [|done].
    apply dle_not_nan in Hab as [Ha Hb]. unfold not_nan in *.
    destruct Hnan; congruence.
Qed.

(** X13: [copy_last_params_to_svds] keeps the length of [svals] and
    every entry that is not an eigenvalue of the normal equations: all
    of them after a stage on the augmented matrix, and those from
    [primme->initSize] on after a stage on A'A or AA'. *)
Theorem copy_to_svds_keeps_other_svals ps stage svals rnorms
    allocatedTargetShifts i :
  0 ≤ i < Z.of_nat (length svals) →
  is_normal_eq (method_of stage ps) = false
  ∨ p_initSize (stage_of stage ps) ≤ i →
  let svals' :=
    (copy_last_params_to_svds ps stage svals rnorms allocatedTargetShifts).2.1 in
  length svals' = length svals ∧ aget svals' i = aget svals i.
Proof.
  intros Hi Hcase. cbv zeta. unfold copy_last_params_to_svds.
  case_bool_decide as Hnone; [done|]. cbn [fst snd].
  destruct (is_normal_eq (method_of stage ps)) eqn:Hn; [|done].
  destruct Hcase as [|Hge]; [done|].
  unfold svals_of_evals.
  destruct (for_loop_pointwise
              (λ i sv, aset sv i (PrimFloat.sqrt (dmax 0%float (aget sv i))))
              (λ _ x, PrimFloat.sqrt (dmax 0%float x))
              0 (p_initSize (stage_of stage ps)) svals) as [Hlen Hget].
  - intros. apply length_aset.
  - intros j t k Hk. by apply aget_aset_ne.
  - intros j t Hj. by apply aget_aset_eq.
  - split; [done|]. rewrite Hget by done.
    by rewrite bool_decide_eq_false_2 by lia.
Qed.

Section with_kernels.
Context {K : SvdsKernels}.

(** What [copy_last_params_from_svds] hands to a stage that has an
    operator. *)
Lemma copy_from_svds_out ps stage svals rnorms ps' allocated :
  method_of stage ps ≠ primme_svds_op_none →
  copy_last_params_from_svds ps stage svals rnorms = Some (ps', allocated) →
  p_initSize (stage_of stage ps')
  = (if bool_decide (method_of stage ps = primme_svds_op_augmented)
     then Z.max 1 (s_initSize ps) else s_initSize ps)
  ∧ p_numOrthoConst (stage_of stage ps') = s_numOrthoConst ps
  ∧ p_maxMatvecs (stage_of stage ps') = s_maxMatvecs ps
  ∧ p_numMatvecs (stage_of stage ps') = p_numMatvecs (stage_of stage ps)
  ∧ s_maxMatvecs ps' = s_maxMatvecs ps
  ∧ s_method ps' = s_method ps ∧ s_methodStage2 ps' = s_methodStage2 ps.
Proof.
  intros Hmethod. unfold copy_last_params_from_svds.
  rewrite bool_decide_eq_false_2 by done.
  assert (∀ q, stage_of stage (set_stage stage q ps) = q) as Hstage.
  { intros q. unfold stage_of, set_stage. simpl. by case_bool_decide. }
  assert (∀ q a b c d,
            stage_of stage (set_stage stage q (set_svds a b c d ps)) = q)
    as Hstage'.
  { intros q a b c d. unfold stage_of, set_stage. simpl. by case_bool_decide. }
  repeat match goal with
         | |- context [if ?b then _ else _] =>
             lazymatch b with
             | dgt _ _ => fail
             | _ => destruct b eqn:?
             end
         end;
    try discriminate; intros [= <- <-];
    rewrite ?Hstage, ?Hstage'; simpl in *;
    repeat match goal with
           | H : bool_decide _ = true |- _ => apply bool_decide_eq_true_1 in H
           | H : bool_decide _ = false |- _ => apply bool_decide_eq_false_1 in H
           end;
    repeat split; first [done | lia].
Qed.

(** X14: a stage with an operator gets from
    [copy_last_params_from_svds] the matvec budget and the number of
    constraint vectors of [primme_svds], and its number of initial
    vectors, raised to 1 when the stage works on the augmented matrix
    and there is none; the methods of the two stages are not changed. *)
Theorem copy_from_svds_hand_over ps stage svals rnorms ps' allocated :
  method_of stage ps ≠ primme_svds_op_none →
  copy_last_params_from_svds ps stage svals rnorms = Some (ps', allocated) →
  p_initSize (stage_of stage ps')
  = (if bool_decide (method_of stage ps = primme_svds_op_augmented)
     then Z.max 1 (s_initSize ps) else s_initSize ps)
  ∧ p_numOrthoConst (stage_of stage ps') = s_numOrthoConst ps
  ∧ p_maxMatvecs (stage_of stage ps') = s_maxMatvecs ps
  ∧ s_method ps' = s_method ps ∧ s_methodStage2 ps' = s_methodStage2 ps.
Proof.
  intros Hmethod Hcall.
  destruct (copy_from_svds_out ps stage svals rnorms ps' allocated Hmethod
              Hcall) as (? & ? & ? & _ & _ & ? & ?).
  done.
Qed.

(** X15: once [primme_svds_check_input] has accepted the parameters,
    [copy_last_params_from_svds] does not abort, for either stage and
    whatever the target and the shifts. *)
Theorem copy_from_svds_accepted svals_given svecs_given resNorms_given
    ps stage svals rnorms :
  primme_svds_check_input svals_given svecs_given resNorms_given ps = 0 →
  is_Some (copy_last_params_from_svds ps stage svals rnorms).
Proof.
  intros Hcheck. apply check_input_stage2 in Hcheck.
  unfold copy_last_params_from_svds.
  case_bool_decide as Hnone; [by eexists|].
  destruct (_ || _); [by eexists|].
  destruct (bool_decide (stage = 1) && is_null _
            && bool_decide (s_target ps = primme_svds_smallest)) eqn:Hbranch.
  - destruct (bool_decide (method_of stage ps = primme_svds_op_augmented))
      eqn:Haug; [by eexists|].
    exfalso. apply bool_decide_eq_false_1 in Haug.
    apply andb_true_iff in Hbranch as [Hbranch _].
    apply andb_true_iff in Hbranch as [Hstage _].
    apply bool_decide_eq_true_1 in Hstage. subst stage.
    unfold method_of in *.
    rewrite (bool_decide_eq_false_2 (1 = 0)) in * by done.
    by destruct Hcheck.
  - match goal with
    | |- is_Some (match (if ?b then _ else _) with _ => _ end) =>
        destruct b
    end; by eexists.
Qed.

(** X16: after a stage with an operator, the matvec budget left in
    [primme_svds] is the budget before the stage minus the number of
    matvecs that the eigensolver of the stage reports. *)
Theorem run_stage_matvec_budget stage svals svecs resNorms ps r out :
  method_of stage ps ≠ primme_svds_op_none →
  run_stage stage svals svecs resNorms ps = Some (r, out) →
  s_maxMatvecs out.2
  = s_maxMatvecs ps - p_numMatvecs (stage_of stage out.2).
Proof.
  intros Hmethod. unfold run_stage.
  set (from := if bool_decide (stage = 0) then _ else _).
  assert (∃ sv rn, from = copy_last_params_from_svds ps stage sv rn)
    as (sv0 & rn0 & Hfrom).
  { subst from. case_bool_decide; by eexists _, _. }
  rewrite Hfrom. clear from Hfrom.
  destruct (copy_last_params_from_svds ps stage sv0 rn0)
    as [[ps1 alloc]|] eqn:Hcall; [|done].
  destruct (copy_from_svds_out ps stage sv0 rn0 ps1 alloc Hmethod Hcall)
    as (_ & _ & _ & _ & Hbudget & Hm1 & Hm2).
  destruct (zprimme _ _ _ _) as [ret [[[sv vecs] rn] p]].
  assert (method_of stage (set_stage stage p ps1) ≠ primme_svds_op_none)
    as Hmethod'.
  { unfold method_of in *. simpl. by rewrite Hm1, Hm2. }
  assert (stage_of stage (set_stage stage p ps1) = p) as Hstage.
  { unfold stage_of, set_stage. simpl. by case_bool_decide. }
  unfold copy_last_params_to_svds.
  rewrite (bool_decide_eq_false_2 _ Hmethod'). rewrite Hstage.
  intros [= _ <-]. cbn [snd].
  unfold stage_of, set_stage, set_svds. simpl.
  rewrite Hbudget. by destruct (bool_decide (stage = 0)), alloc.
Qed.

(** X17: when [primme_svds_check_input] rejects the parameters,
    [zprimme_svds] returns its code, and when the workspace cannot be
    allocated it returns ALLOCATE_WORKSPACE_FAILURE; in both cases the
    three output arrays are as they were and no stage is run. *)
Theorem zprimme_svds_early_exit svals svecs resNorms ps :
  let ps0 := primme_svds_set_defaults ps in
  let c := primme_svds_check_input true true true ps0 in
  (c ≠ 0 →
   zprimme_svds svals svecs resNorms ps
   = Some (c, (svals, svecs, resNorms, ps0)))
  ∧ (c = 0 → (allocate_workspace_svds ps0 true).1 ≠ 0 →
     zprimme_svds svals svecs resNorms ps
     = Some (ALLOCATE_WORKSPACE_FAILURE,
             (svals, svecs, resNorms, (allocate_workspace_svds ps0 true).2))).
Proof.
  cbv zeta. unfold zprimme_svds. split.
  - intros Hc. by rewrite bool_decide_eq_true_2.
  - intros Hc Ha. rewrite bool_decide_eq_false_2 by (rewrite Hc; congruence).
    destruct (allocate_workspace_svds _ _) as [ra psa]. simpl in *.
    by rewrite bool_decide_eq_true_2.
Qed.

End with_kernels.

(** The blocks of a loop over the columns with enough fuel. *)
Lemma block_loop_blocks fuel i blockSize maxBlockSize body :
  (Z.to_nat (blockSize - i) < fuel)%nat →
  ∃ blocks,
    block_loop fuel i blockSize maxBlockSize body
    = Some (flat_map (λ b : Z * Z, body b.1 b.2) blocks)
    ∧ blocks_cover i blocks
        (if bool_decide (0 < maxBlockSize ∧ i < blockSize)
         then blockSize else i)
    ∧ Forall (λ b : Z * Z, 0 < b.2 ≤ maxBlockSize) blocks.
Proof.
  revert i. induction fuel as [|fuel IH]; intros i Hfuel; [lia|].
  simpl. case_bool_decide as Hbs.
  - destruct (IH (i + Z.min (blockSize - i) maxBlockSize)) as
      (blocks & -> & Hcover & Hall); [lia|].
    exists ((i, Z.min (blockSize - i) maxBlockSize) :: blocks).
    split; [done|]. split.
    + simpl. split; [done|].
      rewrite bool_decide_eq_true_2 by lia.
      destruct (decide (i + Z.min (blockSize - i) maxBlockSize < blockSize))
        as [Hlt|Hge].
      * by rewrite bool_decide_eq_true_2 in Hcover by lia.
      * rewrite bool_decide_eq_false_2 in Hcover by lia.
        by replace blockSize
             with (i + Z.min (blockSize - i) maxBlockSize) at 2 by lia.
    + constructor; [simpl; lia|done].
  - exists []. split; [done|]. split; [|done].
    simpl. by rewrite bool_decide_eq_false_2 by lia.
Qed.

(** X18: for a stage on A'A or AA', [matrixMatvecSVDS] ends and applies
    the operator of the user block by block: the blocks of columns
    follow one another from column 0 to column blockSize, each has
    between 1 and maxBlockSize columns, and each is multiplied twice,
    from [x] into the workspace and from the workspace into [y], first
    without and then with transposition for A'A, the other way round
    for AA'.  With maxBlockSize <= 0 or blockSize <= 0 there is no
    call. *)
Theorem matvec_normal_equations_blocks
    stage blockSize nLocal maxBlockSize mLocal_svds nLocal_svds ps :
  method_of stage ps = primme_svds_op_AtA
  ∨ method_of stage ps = primme_svds_op_AAt →
  let first := if bool_decide (method_of stage ps = primme_svds_op_AtA)
               then 0 else 1 in
  let ldw := if bool_decide (method_of stage ps = primme_svds_op_AtA)
             then mLocal_svds else nLocal_svds in
  ∃ blocks,
    matrixMatvecSVDS stage blockSize nLocal maxBlockSize mLocal_svds
      nLocal_svds ps
    = Some (flat_map
              (λ b : Z * Z,
                 [ {| mv_x := buf_x; mv_x_off := nLocal * b.1;
                      mv_ldx := nLocal;
                      mv_y := buf_realWork; mv_y_off := 0; mv_ldy := ldw;
                      mv_blockSize := b.2; mv_transpose := first |};
                   {| mv_x := buf_realWork; mv_x_off := 0; mv_ldx := ldw;
                      mv_y := buf_y; mv_y_off := b.1 * nLocal;
                      mv_ldy := nLocal;
                      mv_blockSize := b.2; mv_transpose := 1 - first |} ])
              blocks)
    ∧ blocks_cover 0 blocks
        (if bool_decide (0 < maxBlockSize ∧ 0 < blockSize)
         then blockSize else 0)
    ∧ Forall (λ b : Z * Z, 0 < b.2 ≤ maxBlockSize) blocks.
Proof.
  intros Hmethod. cbv zeta. unfold matrixMatvecSVDS.
  destruct Hmethod as [-> | ->]; simpl bool_decide; cbv iota;
    match goal with
    | |- context [block_loop ?f 0 blockSize maxBlockSize ?body] =>
        destruct (block_loop_blocks f 0 blockSize maxBlockSize body)
          as (blocks & Hcalls & Hcover & Hall); [lia|];
        exists blocks; split; [exact Hcalls|done]
    end.
Qed.

End SvdsMoreSpec.

(** * The further properties at the examples *)

Module MoreInstances.
Import Dtr Restart Svds SvdsOperator Examples MoreExamples.

(** X1 at Example D: the flag of index 8, above last = 6, is kept. *)
Lemma reset_flags_keeps_above_D :
  length (reset_flags_dprimme flags_D 5 6) = length flags_D
  ∧ aget (reset_flags_dprimme flags_D 5 6) 8 = aget flags_D 8.
Proof.
  apply (FlagsSpec.reset_flags_keeps_above flags_D 5 6 8).
  - change (0 ≤ 8 < 9). lia.
  - lia.
Defined.

(** X2 at Example P: one candidate behind one other pair. *)
Lemma restartPerm_is_permutation_P :
  length (build_restartPerm flags_P 3 1 1 [0; 0; 0]) = 3%nat
  ∧ 0 ≤ aget (build_restartPerm flags_P 3 1 1 [0; 0; 0]) 2 < 3
  ∧ aget flags_P (aget (build_restartPerm flags_P 3 1 1 [0; 0; 0]) 1)
    = UNCONVERGED.
Proof.
  pose proof (RestartPermSpec.restartPerm_is_permutation flags_P 3 1 1
                [0; 0; 0]) as Hperm.
  cbv zeta in Hperm.
  destruct Hperm as (Hlen & Hrange & _ & Hcand).
  - lia.
  - lia.
  - lia.
  - apply Z.leb_le. vm_compute. reflexivity.
  - change (3 ≤ 3). lia.
  - split; [exact Hlen|]. split; [apply Hrange; lia|apply Hcand; lia].
Defined.

(** X3 at Example W. *)
Lemma soft_locking_shift_changes_nothing_W :
  zmem (soft_locking_perms 2 0 state_W) Ia.hVecsPerm = [1; 0]
  ∧ ivar (soft_locking_perms 2 0 state_W) Iv.numPrevRetained = 1.
Proof.
  destruct (SoftLockingSpec.soft_locking_shift_changes_nothing 2 0 state_W)
    as [Hperm Hprev].
  - reflexivity.
  - split.
    + etrans; [exact Hperm|]. vm_compute. reflexivity.
    + etrans; [exact Hprev|]. reflexivity.
Defined.

(** X4 at Example W, for the index 0. *)
Lemma hVecsPerm_inverts_restartPerm_W :
  aget (zmem (soft_locking_perms 2 0 state_W) Ia.hVecsPerm)
       (aget (zmem state_W Ia.restartPerm) 0)
  = 0.
Proof.
  apply (SoftLockingSpec.hVecsPerm_inverts_restartPerm 2 0 state_W 0).
  - reflexivity.
  - intros p Hp. assert (p = 0 ∨ p = 1) as [-> | ->] by lia.
    + change (0 ≤ 1 < 2). lia.
    + change (0 ≤ 0 < 2). lia.
  - intros p q Hp Hq.
    assert (p = 0 ∨ p = 1) as [-> | ->] by lia;
      assert (q = 0 ∨ q = 1) as [-> | ->] by lia;
      first [done | intros Heq; vm_compute in Heq; discriminate Heq].
  - lia.
Defined.

(** X5 at Example E in a space of dimension 3. *)
Lemma soft_locking_sizes_F :
  ∃ st',
    restart_soft_locking_dprimme (K := ref_kernels) (nLocal primme_F)
      2 2 2 3 2 3 1 2 0 false 0x1p-53%float primme_F state_E = Some (0, st')
    ∧ ivar st' Iv.restartSize = 1
    ∧ 0 ≤ ivar st' Iv.numConverged ≤ 1.
Proof.
  assert (fst <$> restart_soft_locking_dprimme (K := ref_kernels)
                    (nLocal primme_F) 2 2 2 3 2 3 1 2 0 false 0x1p-53%float
                    primme_F state_E = Some 0) as Hcall
    by (vm_compute; reflexivity).
  apply (option_pair_eta _ 0 state_E) in Hcall.
  eexists. split; [exact Hcall|].
  assert (0 ≤ 2) as Hb by lia.
  assert (0 ≤ numEvals primme_F) as He by (change (0 ≤ 1); lia).
  destruct (RestartMoreSpec.soft_locking_sizes (K := ref_kernels)
              (nLocal primme_F) 2 2 2 3 2 3 1 2 0 false 0x1p-53%float
              primme_F state_E 0 _ Hb He Hcall)
    as (Hsize & _ & _ & Hcount).
  split; [etrans; [exact Hsize|vm_compute; reflexivity]|].
  exact Hcount.
Defined.

(** X6 at Example E in the space of dimension 2, with no pair counted
    as converged. *)
Lemma whole_space_restart_E :
  ivar (choose_restartSize args_E primme_E state_E0) Iv.restartSize = 2
  ∧ ivar (choose_restartSize args_E primme_E state_E0) Iv.numPrevRetained = 0
  ∧ ivar (choose_restartSize args_E primme_E state_E0) Iv.numConverged ≤ 1.
Proof.
  pose proof (RestartMoreSpec.whole_space_restart args_E primme_E state_E0)
    as Hws.
  cbv zeta in Hws.
  destruct Hws as (Hsize & Hprev & _ & _ & Hle & _).
  - change (2 ≤ 2 + 0 + 0). lia.
  - change (0 ≤ 2 ≤ 2). lia.
  - split; [exact Hsize|]. split; [exact Hprev|].
    apply Hle. change (0 ≤ 1). lia.
Defined.

(** X7 at Example A. *)
Lemma restart_code_is_bases_code_A :
  ∃ st1, restart_bases (K := ref_kernels) args_A primme_A state_A
         = Some (0, st1).
Proof.
  assert (fst <$> restart_dprimme (K := ref_kernels) args_A primme_A state_A
          = Some 0) as Hcall by (vm_compute; reflexivity).
  apply (option_pair_eta _ 0 state_A) in Hcall.
  destruct (RestartMoreSpec.restart_code_is_bases_code (K := ref_kernels)
              args_A primme_A state_A 0 _ Hcall) as (st1 & Hbases & _).
  by exists st1.
Defined.

(** X8 at Example G. *)
Lemma restart_projection_codes_G :
  ∃ r st',
    restart_projection_dprimme (K := ref_kernels) 3 3 3 3 3 3 3 3 2 3 2 2 3
      1 0 3 3 1 1 0 0 16 false false 0x1p-53%float primme_B state_G
    = Some (r, st')
    ∧ (r = 0 ∨ r = RESTART_H_FAILURE ∨ r = UDUDECOMPOSE_FAILURE).
Proof.
  assert (fst <$> restart_projection_dprimme (K := ref_kernels) 3 3 3 3 3 3
                    3 3 2 3 2 2 3 1 0 3 3 1 1 0 0 16 false false
                    0x1p-53%float primme_B state_G
          = Some 0) as Hcall by (vm_compute; reflexivity).
  apply (option_pair_eta _ 0 state_G) in Hcall.
  eexists _, _. split; [exact Hcall|].
  exact (RestartMoreSpec.restart_projection_codes (K := ref_kernels)
           _ _ _ _ _ _ _ _ _ _ _ _ _ _ _ _ _ _ _ _ _ _ _ _ _ _ _ _ _ Hcall).
Defined.

(** X9 for hVecsPerm = (1, 0) and indexOfPreviousVecs = 0. *)
Lemma restart_RR_ordered_first_G :
  (restart_RR_ordered [1; 0] 2 0 = 2
   ∧ ∀ i, 0 ≤ i < 2 → aget [1; 0] i ≠ 0)
  ∨ (0 ≤ restart_RR_ordered [1; 0] 2 0 < 2
     ∧ aget [1; 0] (restart_RR_ordered [1; 0] 2 0) = 0).
Proof.
  pose proof (RestartMoreSpec.restart_RR_ordered_first [1; 0] 2 0) as Hfirst.
  cbv zeta in Hfirst. apply Hfirst. lia.
Defined.

(** X13 at Example S: the third entry of svals is kept. *)
Lemma copy_to_svds_keeps_other_svals_S :
  length (copy_last_params_to_svds svds_S 0 [4; -1; 9]%float
            [0; 0; 0]%float false).2.1 = 3%nat
  ∧ aget (copy_last_params_to_svds svds_S 0 [4; -1; 9]%float
            [0; 0; 0]%float false).2.1 2 = 9%float.
Proof.
  pose proof (SvdsMoreSpec.copy_to_svds_keeps_other_svals svds_S 0
                [4; -1; 9]%float [0; 0; 0]%float false 2) as Hkeep.
  cbv zeta in Hkeep. apply Hkeep.
  - change (0 ≤ 2 < 3). lia.
  - right. change (2 ≤ 2). lia.
Defined.

(** X14 at Example S without an initial vector, for the second stage. *)
Lemma copy_from_svds_hand_over_S0 :
  ∃ ps' allocated,
    copy_last_params_from_svds (K := svds_kernels_with 0) svds_S0 1
      [3; 0]%float [0.5; 0]%float = Some (ps', allocated)
    ∧ p_initSize (stage_of 1 ps') = 1
    ∧ p_maxMatvecs (stage_of 1 ps') = 100.
Proof.
  assert (is_Some (copy_last_params_from_svds (K := svds_kernels_with 0)
                     svds_S0 1 [3; 0]%float [0.5; 0]%float))
    as [[ps' allocated] Hcall] by (vm_compute; by eexists).
  exists ps', allocated. split; [exact Hcall|].
  destruct (SvdsMoreSpec.copy_from_svds_hand_over
              (K := svds_kernels_with 0) svds_S0 1 [3; 0]%float
              [0.5; 0]%float ps' allocated) as (Hinit & _ & Hbudget & _).
  - vm_compute. discriminate.
  - exact Hcall.
  - split; [etrans; [exact Hinit|reflexivity]|].
    etrans; [exact Hbudget|reflexivity].
Defined.

(** X15 at Example S, for the second stage. *)
Lemma copy_from_svds_accepted_S :
  is_Some (copy_last_params_from_svds (K := svds_kernels_with 0) svds_S 1
             [3; 0]%float [0.5; 0]%float).
Proof.
  apply (SvdsMoreSpec.copy_from_svds_accepted (K := svds_kernels_with 0)
           true true true).
  vm_compute. reflexivity.
Defined.

(** X16 at Example S with an eigensolver that reports seven matvecs:
    93 of the 100 matvecs are left after the first stage. *)
Lemma run_stage_matvec_budget_S :
  ∃ out,
    run_stage (K := svds_kernels_matvecs) 0 [4; -1]%float tt [0; 0]%float
      svds_S = Some (0, out)
    ∧ s_maxMatvecs out.2 = 93.
Proof.
  assert (fst <$> run_stage (K := svds_kernels_matvecs) 0 [4; -1]%float tt
                    [0; 0]%float svds_S = Some 0) as Hcall
    by (vm_compute; reflexivity).
  apply (option_pair_eta _ 0 ([], tt, [], svds_S)) in Hcall.
  eexists. split; [exact Hcall|].
  etrans.
  - apply (SvdsMoreSpec.run_stage_matvec_budget (K := svds_kernels_matvecs)
             0 [4; -1]%float tt [0; 0]%float svds_S 0 _); [|exact Hcall].
    vm_compute. discriminate.
  - vm_compute. reflexivity.
Defined.

(** X18 at Example S: five columns in blocks of at most two. *)
Lemma matvec_normal_equations_blocks_S :
  ∃ blocks,
    (length <$> matrixMatvecSVDS 0 5 2 2 3 2 svds_S)
    = Some (2 * length blocks)%nat
    ∧ blocks_cover 0 blocks 5
    ∧ Forall (λ b : Z * Z, 0 < b.2 ≤ 2) blocks.
Proof.
  pose proof (SvdsMoreSpec.matvec_normal_equations_blocks 0 5 2 2 3 2 svds_S)
    as Hblocks.
  cbv zeta in Hblocks.
  destruct Hblocks as (blocks & Hcalls & Hcover & Hall).
  - left. reflexivity.
  - exists blocks. split; [|split; [exact Hcover|exact Hall]].
    rewrite Hcalls. simpl. f_equal.
    clear. induction blocks as [|b blocks IH]; [done|].
    simpl. rewrite IH. lia.
Defined.

End MoreInstances.
